(** * Pac-Man simulation engine: a shallow embedding and its properties

    The development follows the TypeScript sources:
    - [types.ts], [constants.ts]: the data model and the maze;
    - [utils/ghostAI.ts]: targeting and the adversaries' decision function;
    - [utils/storage.ts]: score persistence (seen as an external event);
    - the game screen component: [initRound], [resetPositions],
      [isValidMove], [update], [handleDeath], [handleDemotionOrGameOver]
      and [handleLevelComplete].

    Numbers.  JavaScript has one numeric type.  Quantities that the code
    only ever uses as integers (tile codes, score, lives, round, counters)
    are [Z]; positions, times and distances are exact rationals [Q] in
    place of IEEE doubles.  [Math.floor], [Math.ceil], [Math.round] and
    [Math.abs] are [Qfloor], [Qceiling], [jsRound] and [Qabs].

    Exceptions.  Reading a property of [undefined] raises a TypeError in
    JavaScript.  Functions that can do so return [option]; [None] is the
    raised exception.  A missing array element (the value [undefined]) is
    an inner [None] of a lookup result. *)

From Stdlib Require Import ZArith QArith Qround Qabs Lia Lqa String.
From stdpp Require Import base option list strings pretty.

Local Open Scope Z_scope.

(** ** Numeric helpers *)

Definition Qltb (a b : Q) : bool :=
  match Qcompare a b with Lt => true | _ => false end.

Definition Qleb (a b : Q) : bool :=
  match Qcompare a b with Gt => false | _ => true end.

(** A JavaScript number is a binary64 double.  The model holds a finite
    double as the rational it denotes and writes the arithmetic of the
    source as the real result of each operation.  In [getDistance] and in
    the collision test, whose results are compared with one another and
    with a threshold and can lie one rounding step apart, every operation
    is followed by [fl], the rounding of its real result to the nearest
    double, ties to the even significand (53 bits, least exponent -1074
    with gradual underflow).  Positions, times and timers are kept as the
    real values.  Overflow to [Infinity] is not modelled: no quantity of
    the game comes near the largest double. *)

(** [p / q] rounded to the nearest integer, ties to even, for [0 < q]. *)
Definition roundHalfEven (p q : Z) : Z :=
  let k := p / q in
  let r := p mod q in
  if 2 * r <? q then k
  else if q <? 2 * r then k + 1
  else if Z.even k then k else k + 1.

(** [a / (d * 2 ^ e)] as a pair of integers, numerator and denominator. *)
Definition scaled (a d e : Z) : Z * Z :=
  (a * 2 ^ Z.max 0 (- e), d * 2 ^ Z.max 0 e).

(** The double nearest to [x]: [m * 2 ^ e] with [m] the rounded
    significand, [2 ^ 52 <= |m| <= 2 ^ 53] unless [e] is the least
    exponent. *)
Definition fl (x : Q) : Q :=
  let n := Qnum x in
  let d := Z.pos (Qden x) in
  if n =? 0 then 0%Q
  else
    let a := Z.abs n in
    let e0 := Z.log2 a - Z.log2 d - 53 in
    let '(p0, q0) := scaled a d e0 in
    let e1 := if q0 * 2 ^ 53 <=? p0 then e0 + 1 else e0 in
    let e := Z.max e1 (-1074) in
    let '(p, q) := scaled a d e in
    let m := Z.sgn n * roundHalfEven p q in
    Qred (if 0 <=? e then inject_Z (m * 2 ^ e) else Qmake m (Z.to_pos (2 ^ (- e)))).

Arguments fl : simpl never.

(** [Math.round]: nearest integer, halves towards plus infinity. *)
Definition jsRound (q : Q) : Z := Qfloor (q + (1 # 2))%Q.

(** Array indexing with a JavaScript number that holds an integer:
    a negative index or one past the end reads [undefined]. *)
Definition lookupZ {A : Type} (l : list A) (i : Z) : option A :=
  if i <? 0 then None else l !! Z.to_nat i.

(** ** types.ts *)

Inductive Direction : Set := UP | DOWN | LEFT | RIGHT | NONE.

Record Position : Set := mkPosition { pos_x : Q; pos_y : Q }.

Module TileType.
Definition WALL : Z := 0.
Definition PELLET : Z := 1.
Definition EMPTY : Z := 2.
Definition POWER_PELLET : Z := 3.
Definition PACMAN_SPAWN : Z := 9.
Definition GHOST_SPAWN : Z := 8.
End TileType.

Inductive GhostStatus : Set := NORMAL | VULNERABLE | EATEN.

Module Ghost.
Record t : Set := mk {
  id : Z;
  pos : Position;
  color : string;
  startPos : Position;
  direction : Direction;
  status : GhostStatus
}.

Definition set_pos (p : Position) (g : t) : t :=
  mk (id g) p (color g) (startPos g) (direction g) (status g).
Definition set_direction (d : Direction) (g : t) : t :=
  mk (id g) (pos g) (color g) (startPos g) d (status g).
Definition set_status (st : GhostStatus) (g : t) : t :=
  mk (id g) (pos g) (color g) (startPos g) (direction g) st.
End Ghost.

Abbreviation GhostEntity := Ghost.t.

Definition Direction_eqb (a b : Direction) : bool :=
  match a, b with
  | UP, UP | DOWN, DOWN | LEFT, LEFT | RIGHT, RIGHT | NONE, NONE => true
  | _, _ => false
  end.

Definition GhostStatus_eqb (a b : GhostStatus) : bool :=
  match a, b with
  | NORMAL, NORMAL | VULNERABLE, VULNERABLE | EATEN, EATEN => true
  | _, _ => false
  end.

(** The grid is [number[][]]: a list of rows of tile codes. *)
Abbreviation Grid := (list (list Z)).

(** [tile === code] and [tile !== code] for a tile read from the grid,
    [None] being [undefined]. *)
Definition tileIs (tile : option Z) (code : Z) : bool :=
  match tile with Some t => t =? code | None => false end.

Definition tileIsNot (tile : option Z) (code : Z) : bool := negb (tileIs tile code).

(** [grid[y][x]]: the outer [None] is the TypeError raised when the row
    [grid[y]] is [undefined]; the inner [None] is an [undefined] cell. *)
Definition readTile (grid : Grid) (y x : Z) : option (option Z) :=
  row ← lookupZ grid y; Some (lookupZ row x).

(** [grid[y][x] = code], executed only after a successful read of the
    same cell. *)
Definition writeTile (grid : Grid) (y x : Z) (code : Z) : Grid :=
  match lookupZ grid y with
  | Some row => <[Z.to_nat y := <[Z.to_nat x := code]> row]> grid
  | None => grid
  end.

(** ** constants.ts *)

Definition INITIAL_MAP : Grid :=
  [ [0; 0; 0; 0; 0; 0; 0; 0; 0; 0; 0; 0; 0; 0; 0; 0; 0; 0; 0];
    [0; 3; 1; 1; 1; 1; 1; 1; 1; 0; 1; 1; 1; 1; 1; 1; 1; 3; 0];
    [0; 1; 0; 0; 1; 0; 0; 0; 1; 0; 1; 0; 0; 0; 1; 0; 0; 1; 0];
    [0; 1; 0; 0; 1; 0; 0; 0; 1; 0; 1; 0; 0; 0; 1; 0; 0; 1; 0];
    [0; 1; 1; 1; 1; 1; 1; 1; 1; 1; 1; 1; 1; 1; 1; 1; 1; 1; 0];
    [0; 1; 0; 0; 1; 0; 1; 0; 0; 0; 0; 0; 1; 0; 1; 0; 0; 1; 0];
    [0; 1; 1; 1; 1; 0; 1; 1; 1; 0; 1; 1; 1; 0; 1; 1; 1; 1; 0];
    [0; 0; 0; 0; 1; 0; 0; 0; 2; 2; 2; 0; 0; 0; 1; 0; 0; 0; 0];
    [2; 2; 2; 0; 1; 0; 2; 2; 8; 8; 8; 2; 2; 0; 1; 0; 2; 2; 2];
    [0; 0; 0; 0; 1; 0; 2; 0; 0; 2; 0; 0; 2; 0; 1; 0; 0; 0; 0];
    [0; 1; 1; 1; 1; 1; 1; 1; 1; 9; 1; 1; 1; 1; 1; 1; 1; 1; 0];
    [0; 1; 0; 0; 1; 0; 0; 0; 1; 0; 1; 0; 0; 0; 1; 0; 0; 1; 0];
    [0; 1; 1; 0; 1; 1; 1; 1; 1; 0; 1; 1; 1; 1; 1; 0; 1; 1; 0];
    [0; 0; 1; 0; 1; 0; 1; 0; 0; 0; 0; 0; 1; 0; 1; 0; 1; 0; 0];
    [0; 3; 1; 1; 1; 0; 1; 1; 1; 0; 1; 1; 1; 0; 1; 1; 1; 3; 0];
    [0; 0; 0; 0; 0; 0; 0; 0; 0; 0; 0; 0; 0; 0; 0; 0; 0; 0; 0] ].

Definition MAP_WIDTH : Z :=
  Eval cbv in Z.of_nat (length (default [] (INITIAL_MAP !! 0%nat))).
Definition MAP_HEIGHT : Z :=
  Eval cbv in Z.of_nat (length INITIAL_MAP).

(** A movement vector of [DIRECTIONS]; its components are integers. *)
Record Move : Set := mkMove { move_x : Z; move_y : Z }.

Definition DIRECTIONS (dir : Direction) : Move :=
  match dir with
  | UP => mkMove 0 (-1)
  | DOWN => mkMove 0 1
  | LEFT => mkMove (-1) 0
  | RIGHT => mkMove 1 0
  | NONE => mkMove 0 0
  end.

(** An entry of [INITIAL_GHOSTS]. *)
Record GhostSeed : Set := mkSeed {
  seed_id : Z; seed_color : string; seed_startPos : Position
}.

Definition tilePos (tx ty : Z) : Position := mkPosition (inject_Z tx) (inject_Z ty).

Definition INITIAL_GHOSTS : list GhostSeed :=
  [ mkSeed 1 "bg-red-500" (tilePos 9 8);
    mkSeed 2 "bg-pink-400" (tilePos 8 8);
    mkSeed 3 "bg-cyan-400" (tilePos 10 8);
    mkSeed 4 "bg-orange-400" (tilePos 9 7);
    mkSeed 5 "bg-purple-400" (tilePos 8 7);
    mkSeed 6 "bg-green-400" (tilePos 10 7) ].

Record GameConfig : Set := mkConfig {
  speed : Q; name : string; ghostCount : nat
}.

(** [ROUND_CONFIGS[round]]; [None] is [undefined]. *)
Definition ROUND_CONFIGS (round : Z) : option GameConfig :=
  if round =? 1 then Some (mkConfig (130 # 1) "EASY" 3)
  else if round =? 2 then Some (mkConfig (90 # 1) "MODERATE" 4)
  else if round =? 3 then Some (mkConfig (70 # 1) "HARD" 6)
  else None.

Record PauseConfig : Set := mkPause { duration : Q; message : string }.

Definition ROUND_START_PAUSE (round : Z) : option PauseConfig :=
  if round =? 1 then Some (mkPause (2000 # 1) "GET READY")
  else if round =? 2 then Some (mkPause (2000 # 1) "STAY SHARP")
  else if round =? 3 then Some (mkPause (3000 # 1) "FINAL ROUND")
  else None.

Definition VULNERABLE_DURATION_MS : Q := 10000 # 1.

(** ** utils/ghostAI.ts *)

(** The two differences and the sum are rounded: the callers compare the
    result with a threshold and with other distances. *)
Definition getDistance (p1 p2 : Position) : Q :=
  fl (Qabs (fl (pos_x p1 - pos_x p2)) + Qabs (fl (pos_y p1 - pos_y p2)))%Q.

Definition getNextTile (p : Position) (dir : Direction) : Position :=
  let move := DIRECTIONS dir in
  tilePos (jsRound (pos_x p + inject_Z (move_x move))%Q)
          (jsRound (pos_y p + inject_Z (move_y move))%Q).

Definition getOppositeDirection (dir : Direction) : Direction :=
  match dir with
  | UP => DOWN
  | DOWN => UP
  | LEFT => RIGHT
  | RIGHT => LEFT
  | NONE => NONE
  end.

(** The player's position displaced by [k] tiles along [pacmanDir]. *)
Definition ahead (pacmanPos : Position) (pacmanDir : Direction) (k : Z) : Position :=
  mkPosition (pos_x pacmanPos + inject_Z (move_x (DIRECTIONS pacmanDir) * k))%Q
             (pos_y pacmanPos + inject_Z (move_y (DIRECTIONS pacmanDir) * k))%Q.

Definition getTargetPosition (ghost : GhostEntity) (pacmanPos : Position)
    (pacmanDir : Direction) (blinkyPos : Position) (round : Z) : Position :=
  if round =? 1 then pacmanPos
  else if Ghost.id ghost =? 1 then pacmanPos
  else if Ghost.id ghost =? 2 then ahead pacmanPos pacmanDir 4
  else if Ghost.id ghost =? 3 then
    if round <? 3 then pacmanPos
    else
      let pivot := ahead pacmanPos pacmanDir 2 in
      let vecX := (pos_x pivot - pos_x blinkyPos)%Q in
      let vecY := (pos_y pivot - pos_y blinkyPos)%Q in
      mkPosition (pos_x blinkyPos + vecX * (2 # 1))%Q
                 (pos_y blinkyPos + vecY * (2 # 1))%Q
  else if Ghost.id ghost =? 4 then
    let dist := getDistance (Ghost.pos ghost) pacmanPos in
    if Qltb (8 # 1) dist then pacmanPos
    else tilePos 0 (MAP_HEIGHT - 1)
  else if Ghost.id ghost =? 5 then
    mkPosition (pos_x pacmanPos - inject_Z (move_x (DIRECTIONS pacmanDir) * 4))%Q
               (pos_y pacmanPos - inject_Z (move_y (DIRECTIONS pacmanDir) * 4))%Q
  else if Ghost.id ghost =? 6 then
    mkPosition (inject_Z (MAP_WIDTH - 1) - pos_x pacmanPos)%Q
               (inject_Z (MAP_HEIGHT - 1) - pos_y pacmanPos)%Q
  else pacmanPos.

Definition checkOrder : list Direction := [UP; LEFT; DOWN; RIGHT].

(** The body of the [checkOrder.forEach] callback of [getAvailableMoves]:
    does the callback push [dir]? *)
Definition admitsMove (ghost : GhostEntity) (grid : Grid) (allowReverse : bool)
    (dir : Direction) : option bool :=
  let opposite := getOppositeDirection (Ghost.direction ghost) in
  let x := jsRound (pos_x (Ghost.pos ghost)) in
  let y := jsRound (pos_y (Ghost.pos ghost)) in
  if negb allowReverse && Direction_eqb dir opposite then Some false
  else
    let nextX := x + move_x (DIRECTIONS dir) in
    let nextY := y + move_y (DIRECTIONS dir) in
    if (0 <=? nextY) && (nextY <? MAP_HEIGHT) && (0 <=? nextX) && (nextX <? MAP_WIDTH)
    then
      tile ← readTile grid nextY nextX;
      Some (tileIsNot tile TileType.WALL)
    else if (nextX <? 0) || (MAP_WIDTH <=? nextX) then Some true
    else Some false.

Fixpoint collectMoves (ghost : GhostEntity) (grid : Grid) (allowReverse : bool)
    (dirs : list Direction) (moves : list Direction) : option (list Direction) :=
  match dirs with
  | [] => Some moves
  | dir :: rest =>
      admitted ← admitsMove ghost grid allowReverse dir;
      collectMoves ghost grid allowReverse rest
        (if (admitted : bool) then moves ++ [dir] else moves)
  end.

Definition getAvailableMoves (ghost : GhostEntity) (grid : Grid)
    (allowReverse : bool) : option (list Direction) :=
  collectMoves ghost grid allowReverse checkOrder [].

(** The selection loop of [getNextGhostDirection], case C.  [minDistance]
    starts at [Infinity], written [None]; [distOf dir] is the distance the
    loop body computes for the candidate [dir]. *)
Fixpoint selectBest (distOf : Direction -> Q) (moves : list Direction)
    (bestDir : Direction) (minDistance : option Q) : Direction :=
  match moves with
  | [] => bestDir
  | dir :: rest =>
      let dist := distOf dir in
      let better :=
        match minDistance with
        | None => true
        | Some m => Qltb dist m
        end in
      if better then selectBest distOf rest dir (Some dist)
      else selectBest distOf rest bestDir minDistance
  end.

(** [getNextGhostDirection].  [random k] is the value returned by the
    [k]-th call of [Math.random()] and [draws] the number of calls made so
    far; the function returns the direction and the new number of calls
    (the generator is consulted only in VULNERABLE mode, at a tile with a
    non-reverse move).  With a draw outside [0, 1) the index misses the
    array and the source returns [undefined]; the caller stores it as the
    adversary's direction and the next [DIRECTIONS] lookup raises.  The
    model raises at once. *)
Definition getNextGhostDirection (random : nat -> Q) (draws : nat)
    (ghost : GhostEntity) (pacmanPos : Position) (pacmanDir : Direction)
    (blinkyPos : Position) (grid : Grid) (round : Z) : option (Direction * nat) :=
  if GhostStatus_eqb (Ghost.status ghost) VULNERABLE then
    movesNoReverse ← getAvailableMoves ghost grid false;
    if (0 <? length movesNoReverse)%nat then
      dir ← lookupZ movesNoReverse
        (Qfloor (random draws * inject_Z (Z.of_nat (length movesNoReverse)))%Q);
      Some (dir, S draws)
    else Some (getOppositeDirection (Ghost.direction ghost), draws)
  else
    let target := getTargetPosition ghost pacmanPos pacmanDir blinkyPos round in
    validMoves ← getAvailableMoves ghost grid false;
    match validMoves with
    | [] => Some (getOppositeDirection (Ghost.direction ghost), draws)
    | [only] => Some (only, draws)
    | first :: _ =>
        Some (selectBest
                (fun dir => getDistance (getNextTile (Ghost.pos ghost) dir) target)
                validMoves first None, draws)
    end.

(** ** The game screen: state *)

Module Pacman.
Record t : Set := mk {
  pos : Position;
  dir : Direction;
  nextDir : Direction;
  lastMoveTime : Q
}.

Definition set_pos (p : Position) (pac : t) : t :=
  mk p (dir pac) (nextDir pac) (lastMoveTime pac).
Definition set_dir (d : Direction) (pac : t) : t :=
  mk (pos pac) d (nextDir pac) (lastMoveTime pac).
Definition set_nextDir (d : Direction) (pac : t) : t :=
  mk (pos pac) (dir pac) d (lastMoveTime pac).
End Pacman.

Inductive InternalGameStatus : Set :=
  ROUND_STARTING | PLAYING | RESPAWNING | LEVEL_TRANSITION.

Definition InternalGameStatus_eqb (a b : InternalGameStatus) : bool :=
  match a, b with
  | ROUND_STARTING, ROUND_STARTING | PLAYING, PLAYING
  | RESPAWNING, RESPAWNING | LEVEL_TRANSITION, LEVEL_TRANSITION => true
  | _, _ => false
  end.

Record ScorePopup : Set := mkPopup {
  popup_id : Q;
  popup_x : Q;
  popup_y : Q;
  popup_score : Z;
  popup_timestamp : Q
}.

(** An entry of [powerPelletLocations]: a [Position] pushed by [initRound]
    from the [forEach] indices of the grid scan, so both coordinates are
    array indices. *)
Record TileIndex : Set := mkTileIndex { tile_x : Z; tile_y : Z }.

Record GameStateRef : Set := mkState {
  grid : Grid;
  pacman : Pacman.t;
  ghosts : list GhostEntity;
  score : Z;
  lives : Z;
  round : Z;
  vulnerableUntil : Q;
  ghostsEatenStreak : Z;
  status : InternalGameStatus;
  pelletsRemaining : Z;
  popups : list ScorePopup;
  powerPelletLocations : list TileIndex;
  currentPowerPellets : Z;
  pauseTimer : Q;
  pauseDuration : Q;
  pauseMessage : string;
  frameCount : Z;
  lastFrameTime : Q
}.

(** Field updates, one per assignment target of the source. *)
Definition set_grid (v : Grid) (s : GameStateRef) : GameStateRef :=
  mkState v (pacman s) (ghosts s) (score s) (lives s) (round s) (vulnerableUntil s)
    (ghostsEatenStreak s) (status s) (pelletsRemaining s) (popups s)
    (powerPelletLocations s) (currentPowerPellets s) (pauseTimer s) (pauseDuration s)
    (pauseMessage s) (frameCount s) (lastFrameTime s).
Definition set_pacman (v : Pacman.t) (s : GameStateRef) : GameStateRef :=
  mkState (grid s) v (ghosts s) (score s) (lives s) (round s) (vulnerableUntil s)
    (ghostsEatenStreak s) (status s) (pelletsRemaining s) (popups s)
    (powerPelletLocations s) (currentPowerPellets s) (pauseTimer s) (pauseDuration s)
    (pauseMessage s) (frameCount s) (lastFrameTime s).
Definition set_ghosts (v : list GhostEntity) (s : GameStateRef) : GameStateRef :=
  mkState (grid s) (pacman s) v (score s) (lives s) (round s) (vulnerableUntil s)
    (ghostsEatenStreak s) (status s) (pelletsRemaining s) (popups s)
    (powerPelletLocations s) (currentPowerPellets s) (pauseTimer s) (pauseDuration s)
    (pauseMessage s) (frameCount s) (lastFrameTime s).
Definition set_score (v : Z) (s : GameStateRef) : GameStateRef :=
  mkState (grid s) (pacman s) (ghosts s) v (lives s) (round s) (vulnerableUntil s)
    (ghostsEatenStreak s) (status s) (pelletsRemaining s) (popups s)
    (powerPelletLocations s) (currentPowerPellets s) (pauseTimer s) (pauseDuration s)
    (pauseMessage s) (frameCount s) (lastFrameTime s).
Definition set_lives (v : Z) (s : GameStateRef) : GameStateRef :=
  mkState (grid s) (pacman s) (ghosts s) (score s) v (round s) (vulnerableUntil s)
    (ghostsEatenStreak s) (status s) (pelletsRemaining s) (popups s)
    (powerPelletLocations s) (currentPowerPellets s) (pauseTimer s) (pauseDuration s)
    (pauseMessage s) (frameCount s) (lastFrameTime s).
Definition set_round (v : Z) (s : GameStateRef) : GameStateRef :=
  mkState (grid s) (pacman s) (ghosts s) (score s) (lives s) v (vulnerableUntil s)
    (ghostsEatenStreak s) (status s) (pelletsRemaining s) (popups s)
    (powerPelletLocations s) (currentPowerPellets s) (pauseTimer s) (pauseDuration s)
    (pauseMessage s) (frameCount s) (lastFrameTime s).
Definition set_vulnerableUntil (v : Q) (s : GameStateRef) : GameStateRef :=
  mkState (grid s) (pacman s) (ghosts s) (score s) (lives s) (round s) v
    (ghostsEatenStreak s) (status s) (pelletsRemaining s) (popups s)
    (powerPelletLocations s) (currentPowerPellets s) (pauseTimer s) (pauseDuration s)
    (pauseMessage s) (frameCount s) (lastFrameTime s).
Definition set_ghostsEatenStreak (v : Z) (s : GameStateRef) : GameStateRef :=
  mkState (grid s) (pacman s) (ghosts s) (score s) (lives s) (round s)
    (vulnerableUntil s) v (status s) (pelletsRemaining s) (popups s)
    (powerPelletLocations s) (currentPowerPellets s) (pauseTimer s) (pauseDuration s)
    (pauseMessage s) (frameCount s) (lastFrameTime s).
Definition set_status (v : InternalGameStatus) (s : GameStateRef) : GameStateRef :=
  mkState (grid s) (pacman s) (ghosts s) (score s) (lives s) (round s)
    (vulnerableUntil s) (ghostsEatenStreak s) v (pelletsRemaining s) (popups s)
    (powerPelletLocations s) (currentPowerPellets s) (pauseTimer s) (pauseDuration s)
    (pauseMessage s) (frameCount s) (lastFrameTime s).
Definition set_pelletsRemaining (v : Z) (s : GameStateRef) : GameStateRef :=
  mkState (grid s) (pacman s) (ghosts s) (score s) (lives s) (round s)
    (vulnerableUntil s) (ghostsEatenStreak s) (status s) v (popups s)
    (powerPelletLocations s) (currentPowerPellets s) (pauseTimer s) (pauseDuration s)
    (pauseMessage s) (frameCount s) (lastFrameTime s).
Definition set_popups (v : list ScorePopup) (s : GameStateRef) : GameStateRef :=
  mkState (grid s) (pacman s) (ghosts s) (score s) (lives s) (round s)
    (vulnerableUntil s) (ghostsEatenStreak s) (status s) (pelletsRemaining s) v
    (powerPelletLocations s) (currentPowerPellets s) (pauseTimer s) (pauseDuration s)
    (pauseMessage s) (frameCount s) (lastFrameTime s).
Definition set_powerPelletLocations (v : list TileIndex) (s : GameStateRef) : GameStateRef :=
  mkState (grid s) (pacman s) (ghosts s) (score s) (lives s) (round s)
    (vulnerableUntil s) (ghostsEatenStreak s) (status s) (pelletsRemaining s) (popups s)
    v (currentPowerPellets s) (pauseTimer s) (pauseDuration s) (pauseMessage s)
    (frameCount s) (lastFrameTime s).
Definition set_currentPowerPellets (v : Z) (s : GameStateRef) : GameStateRef :=
  mkState (grid s) (pacman s) (ghosts s) (score s) (lives s) (round s)
    (vulnerableUntil s) (ghostsEatenStreak s) (status s) (pelletsRemaining s) (popups s)
    (powerPelletLocations s) v (pauseTimer s) (pauseDuration s) (pauseMessage s)
    (frameCount s) (lastFrameTime s).
Definition set_pauseTimer (v : Q) (s : GameStateRef) : GameStateRef :=
  mkState (grid s) (pacman s) (ghosts s) (score s) (lives s) (round s)
    (vulnerableUntil s) (ghostsEatenStreak s) (status s) (pelletsRemaining s) (popups s)
    (powerPelletLocations s) (currentPowerPellets s) v (pauseDuration s) (pauseMessage
    s) (frameCount s) (lastFrameTime s).
Definition set_pauseDuration (v : Q) (s : GameStateRef) : GameStateRef :=
  mkState (grid s) (pacman s) (ghosts s) (score s) (lives s) (round s)
    (vulnerableUntil s) (ghostsEatenStreak s) (status s) (pelletsRemaining s) (popups s)
    (powerPelletLocations s) (currentPowerPellets s) (pauseTimer s) v (pauseMessage s)
    (frameCount s) (lastFrameTime s).
Definition set_pauseMessage (v : string) (s : GameStateRef) : GameStateRef :=
  mkState (grid s) (pacman s) (ghosts s) (score s) (lives s) (round s)
    (vulnerableUntil s) (ghostsEatenStreak s) (status s) (pelletsRemaining s) (popups s)
    (powerPelletLocations s) (currentPowerPellets s) (pauseTimer s) (pauseDuration s) v
    (frameCount s) (lastFrameTime s).
Definition set_frameCount (v : Z) (s : GameStateRef) : GameStateRef :=
  mkState (grid s) (pacman s) (ghosts s) (score s) (lives s) (round s)
    (vulnerableUntil s) (ghostsEatenStreak s) (status s) (pelletsRemaining s) (popups s)
    (powerPelletLocations s) (currentPowerPellets s) (pauseTimer s) (pauseDuration s)
    (pauseMessage s) v (lastFrameTime s).
Definition set_lastFrameTime (v : Q) (s : GameStateRef) : GameStateRef :=
  mkState (grid s) (pacman s) (ghosts s) (score s) (lives s) (round s)
    (vulnerableUntil s) (ghostsEatenStreak s) (status s) (pelletsRemaining s) (popups s)
    (powerPelletLocations s) (currentPowerPellets s) (pauseTimer s) (pauseDuration s)
    (pauseMessage s) (frameCount s) v.

(** What the component does to its collaborators: [saveScore] of
    [utils/storage.ts] and the two callbacks received as props. *)
Inductive Event : Set :=
  | SaveScore (teamName : string) (finalScore : Z)
  | OnGameOver (finalScore : Z)
  | OnGameWin (finalScore : Z).

(** The component instance: the [gameState] ref and what surrounds it.
    - [ghostsRef] is the identity of the array object held in
      [state.ghosts]; [initRound] installs a fresh array, every other
      write mutates the adversaries of the current array in place;
    - [draws] counts the calls of [Math.random()] made so far;
    - [events] is the trace of collaborator calls, oldest first;
    - [levelTimers] counts the pending [setTimeout] callbacks scheduled
      by [handleLevelComplete].
    The React [uiState] mirror (HUD, overlay, flash) is presentation and
    is not modelled. *)
Record World : Set := mkWorld {
  game : GameStateRef;
  ghostsRef : nat;
  draws : nat;
  events : list Event;
  levelTimers : nat
}.

Definition upd (f : GameStateRef -> GameStateRef) (w : World) : World :=
  mkWorld (f (game w)) (ghostsRef w) (draws w) (events w) (levelTimers w).

Definition set_draws (k : nat) (w : World) : World :=
  mkWorld (game w) (ghostsRef w) k (events w) (levelTimers w).

Definition emit (evs : list Event) (w : World) : World :=
  mkWorld (game w) (ghostsRef w) (draws w) (events w ++ evs) (levelTimers w).

Definition scheduleLevelTimer (w : World) : World :=
  mkWorld (game w) (ghostsRef w) (draws w) (events w) (S (levelTimers w)).

(** The value of [gameState] when the component mounts. *)
Definition mountState : GameStateRef :=
  mkState INITIAL_MAP (Pacman.mk (tilePos 9 10) RIGHT RIGHT 0%Q) [] 0 3 1 0%Q 0
    ROUND_STARTING 0 [] [] 0 0%Q 0%Q "" 0 0%Q.

(** ** The game screen: initialisation *)

(** The callback of the inner [row.forEach] of [initRound], at row [y] and
    column [x]. *)
Definition scanCell (y x : nat) (cell : Z) (acc : Z * list TileIndex)
    : Z * list TileIndex :=
  let '(pelletCount, powerPelletLocs) := acc in
  let pelletCount :=
    if (cell =? TileType.PELLET) || (cell =? TileType.POWER_PELLET)
    then pelletCount + 1 else pelletCount in
  let powerPelletLocs :=
    if cell =? TileType.POWER_PELLET
    then powerPelletLocs ++ [mkTileIndex (Z.of_nat x) (Z.of_nat y)]
    else powerPelletLocs in
  (pelletCount, powerPelletLocs).

Fixpoint scanRow (y x : nat) (row : list Z) (acc : Z * list TileIndex)
    : Z * list TileIndex :=
  match row with
  | [] => acc
  | cell :: rest => scanRow y (S x) rest (scanCell y x cell acc)
  end.

Fixpoint scanRows (y : nat) (rows : Grid) (acc : Z * list TileIndex)
    : Z * list TileIndex :=
  match rows with
  | [] => acc
  | row :: rest => scanRows (S y) rest (scanRow y 0 row acc)
  end.

Definition scanGrid (newGrid : Grid) : Z * list TileIndex :=
  scanRows 0 newGrid (0, []).

Definition spawnGhost (g : GhostSeed) : GhostEntity :=
  Ghost.mk (seed_id g) (seed_startPos g) (seed_color g) (seed_startPos g) UP NORMAL.

Definition pacmanStart : Position := tilePos 9 10.

(** The template string [`ROUND ${roundNum} - ${pauseConfig.message}`]. *)
Definition roundMessage (roundNum : Z) (message : string) : string :=
  "ROUND " +:+ pretty roundNum +:+ " - " +:+ message.

Arguments roundMessage : simpl never.

Definition initRound (roundNum : Z) (keepScore : bool) (w : World) : option World :=
  (* [config.ghostCount] raises when [ROUND_CONFIGS[roundNum]] is undefined *)
  config ← ROUND_CONFIGS roundNum;
  let pauseConfig :=
    default (mkPause (2000 # 1) "READY") (ROUND_START_PAUSE roundNum) in
  let initialGhosts := spawnGhost <$> take (ghostCount config) INITIAL_GHOSTS in
  let newGrid := INITIAL_MAP in
  let '(pelletCount, powerPelletLocs) := scanGrid newGrid in
  let state := game w in
  Some (mkWorld
    (mkState newGrid
       (Pacman.mk pacmanStart RIGHT RIGHT 0%Q)
       initialGhosts
       (if keepScore then score state else 0)
       (lives state)
       roundNum
       0%Q
       0
       ROUND_STARTING
       pelletCount
       []
       powerPelletLocs
       (Z.of_nat (length powerPelletLocs))
       (duration pauseConfig)
       (duration pauseConfig)
       (roundMessage roundNum (message pauseConfig))
       (frameCount state)
       (lastFrameTime state))
    (S (ghostsRef w)) (draws w) (events w) (levelTimers w)).

(** The [ghosts.forEach((g, idx) => ...)] of [resetPositions], from index
    [idx] on; [INITIAL_GHOSTS[idx].startPos] raises past the table. *)
Fixpoint resetGhosts (idx : nat) (gs : list GhostEntity) : option (list GhostEntity) :=
  match gs with
  | [] => Some []
  | g :: rest =>
      g' ← (if GhostStatus_eqb (Ghost.status g) EATEN then Some g
            else seed ← INITIAL_GHOSTS !! idx;
                 Some (Ghost.set_direction UP (Ghost.set_pos (seed_startPos seed) g)));
      rest' ← resetGhosts (S idx) rest;
      Some (g' :: rest')
  end.

Definition resetPositions (w : World) : option World :=
  let state := game w in
  let pac := Pacman.set_nextDir RIGHT
               (Pacman.set_dir RIGHT (Pacman.set_pos pacmanStart (pacman state))) in
  gs ← resetGhosts 0 (ghosts state);
  Some (upd (fun s =>
    set_pauseMessage "READY!"
      (set_pauseDuration (1500 # 1)
        (set_pauseTimer (1500 # 1)
          (set_status RESPAWNING
            (set_ghosts gs (set_pacman pac s)))))) w).

(** The mount effect: [initRound(1, false)], then
    [lastFrameTime = performance.now()]. *)
Definition mount (now : Q) : option World :=
  w ← initRound 1 false (mkWorld mountState 0 0 [] 0);
  Some (upd (set_lastFrameTime now) w).

(** The key handler: a recognised key stores its direction in [nextDir]. *)
Definition handleKeyDown (newDir : Direction) (w : World) : World :=
  if negb (Direction_eqb newDir NONE)
  then upd (fun s => set_pacman (Pacman.set_nextDir newDir (pacman s)) s) w
  else w.

(** ** The game screen: helpers *)

(** [isValidMove(grid, x, y, dir)].  Every caller passes rounded
    coordinates, so [Math.round(x + move.x)] is the integer sum. *)
Definition isValidMove (grid : Grid) (x y : Z) (dir : Direction) : option bool :=
  let move := DIRECTIONS dir in
  let nextX := x + move_x move in
  let nextY := y + move_y move in
  let nextX := if nextX <? 0 then MAP_WIDTH - 1 else nextX in
  let nextX := if MAP_WIDTH <=? nextX then 0 else nextX in
  if (nextY <? 0) || (MAP_HEIGHT <=? nextY) then Some false
  else
    tile ← readTile grid nextY nextX;
    Some (tileIsNot tile TileType.WALL && tileIsNot tile TileType.GHOST_SPAWN).

(** ** The game screen: end of life, end of round *)

(** The number of calls of [saveScore] in a trace. *)
Definition saveCalls (evs : list Event) : nat :=
  length (List.filter (fun e => match e with SaveScore _ _ => true | _ => false end) evs).

Section Handlers.

Variable teamName : string.

(** [saveScore] of [utils/storage.ts] has no handler around the spread of
    what it read from the store nor around [localStorage.setItem], and its
    callers have none either: the call returns or raises as the store
    decides.  [saveReturns k] tells whether the call made after [k]
    earlier calls returns; when it raises, so does the caller, before the
    callback that follows in the source is reached. *)
Variable saveReturns : nat -> bool.

Definition handleDemotionOrGameOver (w : World) : option World :=
  let w := upd (set_status LEVEL_TRANSITION) w in
  let round := round (game w) in
  let score := score (game w) in
  if round =? 1 then
    if saveReturns (saveCalls (events w))
    then Some (emit [SaveScore teamName score; OnGameOver score] w)
    else None
  else
    initRound 1 true (upd (set_lives 3) w).

Definition handleDeath (w : World) : option World :=
  let w := upd (fun s => set_lives (lives s - 1) s) w in
  if lives (game w) <=? 0 then handleDemotionOrGameOver w
  else resetPositions w.

(** [handleLevelComplete]: the status changes now, the rest runs 2000 ms
    later in the scheduled callback. *)
Definition handleLevelComplete (w : World) : World :=
  scheduleLevelTimer (upd (set_status LEVEL_TRANSITION) w).

(** The callback passed to [setTimeout] by [handleLevelComplete]. *)
Definition levelCompleteTimeout (w : World) : option World :=
  let w := mkWorld (game w) (ghostsRef w) (draws w) (events w) (pred (levelTimers w)) in
  if round (game w) <? 3 then initRound (round (game w) + 1) true w
  else if saveReturns (saveCalls (events w))
  then Some (emit [SaveScore teamName (score (game w)); OnGameWin (score (game w))] w)
  else None.

End Handlers.

(** ** The game screen: one tick of [update] *)

(** *** Pause logic *)

Definition isPaused (st : InternalGameStatus) : bool :=
  match st with
  | ROUND_STARTING | RESPAWNING | LEVEL_TRANSITION => true
  | PLAYING => false
  end.

Definition pauseTick (delta : Q) (state : GameStateRef) : GameStateRef :=
  if negb (InternalGameStatus_eqb (status state) LEVEL_TRANSITION) then
    let state := set_pauseTimer (pauseTimer state - delta)%Q state in
    if Qleb (pauseTimer state) 0 then set_status PLAYING state else state
  else state.

(** *** 1. The player *)

(** A. Immediate reversal. *)
Definition reverseNow (pac : Pacman.t) : Pacman.t :=
  if Direction_eqb (getOppositeDirection (Pacman.dir pac)) (Pacman.nextDir pac)
  then Pacman.set_dir (Pacman.nextDir pac) pac
  else pac.

Definition distToNext (p : Position) (move : Move) : Q :=
  let d :=
    if 0 <? move_x move then (inject_Z (Qfloor (pos_x p) + 1) - pos_x p)%Q
    else if move_x move <? 0 then (pos_x p - inject_Z (Qceiling (pos_x p) - 1))%Q
    else if 0 <? move_y move then (inject_Z (Qfloor (pos_y p) + 1) - pos_y p)%Q
    else if move_y move <? 0 then (pos_y p - inject_Z (Qceiling (pos_y p) - 1))%Q
    else 0%Q in
  if Qleb d (1 # 10000) then 1%Q else d.

Definition advance (p : Position) (move : Move) (dist : Q) : Position :=
  mkPosition (pos_x p + inject_Z (move_x move) * dist)%Q
             (pos_y p + inject_Z (move_y move) * dist)%Q.

(** The centre handling of one iteration of the movement loop: the snap,
    the buffered turn and the wall check.  The boolean is [false] when the
    loop is left by [break] at a wall. *)
Definition atCenterStep (grid : Grid) (pac : Pacman.t) : option (Pacman.t * bool) :=
  let tX := jsRound (pos_x (Pacman.pos pac)) in
  let tY := jsRound (pos_y (Pacman.pos pac)) in
  let atCenter :=
    Qltb (Qabs (pos_x (Pacman.pos pac) - inject_Z tX)) (1 # 100)
    && Qltb (Qabs (pos_y (Pacman.pos pac) - inject_Z tY)) (1 # 100) in
  if atCenter then
    let pac := Pacman.set_pos (tilePos tX tY) pac in
    pac ← (if negb (Direction_eqb (Pacman.nextDir pac) NONE)
              && negb (Direction_eqb (Pacman.nextDir pac) (Pacman.dir pac))
           then
             ok ← isValidMove grid tX tY (Pacman.nextDir pac);
             Some (if (ok : bool) then Pacman.set_dir (Pacman.nextDir pac) pac else pac)
           else Some pac);
    ok ← isValidMove grid tX tY (Pacman.dir pac);
    Some (pac, ok)
  else Some (pac, true).

(** B, C. The movement loop, [fuel] being the iterations left of the five
    that [loops < 5] allows. *)
Fixpoint movePacman (fuel : nat) (grid : Grid) (pac : Pacman.t) (moveDist : Q)
    : option Pacman.t :=
  match fuel with
  | O => Some pac
  | S fuel' =>
      if negb (Qltb 0 moveDist) then Some pac
      else
        '(pac, goOn) ← atCenterStep grid pac;
        if negb goOn then Some pac
        else
          let dir := Pacman.dir pac in
          let move := DIRECTIONS dir in
          if Direction_eqb dir NONE then Some pac
          else
            let d := distToNext (Pacman.pos pac) move in
            if Qleb d moveDist then
              movePacman fuel' grid
                (Pacman.set_pos (advance (Pacman.pos pac) move d) pac)
                (moveDist - d)%Q
            else
              Some (Pacman.set_pos (advance (Pacman.pos pac) move moveDist) pac)
  end.

(** D. Tunnel logic, the two [if] statements on the horizontal position. *)
Definition tunnel (x : Q) : Q :=
  let x := if Qltb x (- (1 # 2)) then (inject_Z MAP_WIDTH - (1 # 2))%Q else x in
  if Qltb (inject_Z MAP_WIDTH - (1 # 2)) x then (- (1 # 2))%Q else x.

Definition pacmanTunnel (pac : Pacman.t) : Pacman.t :=
  Pacman.set_pos
    (mkPosition (tunnel (pos_x (Pacman.pos pac))) (pos_y (Pacman.pos pac))) pac.

Definition pacmanPhase (moveDist : Q) (state : GameStateRef) : option GameStateRef :=
  pac ← movePacman 5 (grid state) (reverseNow (pacman state)) moveDist;
  Some (set_pacman (pacmanTunnel pac) state).

(** *** E. Pellets *)

Definition frighten (g : GhostEntity) : GhostEntity :=
  if negb (GhostStatus_eqb (Ghost.status g) EATEN)
  then Ghost.set_status VULNERABLE g else g.

(** The [powerPelletLocations.forEach] of the respawn logic. *)
Fixpoint respawnPellets (locs : list TileIndex) (grid : Grid) (respawnCount : Z)
    : option (Grid * Z) :=
  match locs with
  | [] => Some (grid, respawnCount)
  | p :: rest =>
      tile ← readTile grid (tile_y p) (tile_x p);
      if tileIs tile TileType.EMPTY
      then respawnPellets rest
             (writeTile grid (tile_y p) (tile_x p) TileType.POWER_PELLET)
             (respawnCount + 1)
      else respawnPellets rest grid respawnCount
  end.

Definition ghostsAlive (gs : list GhostEntity) : bool :=
  existsb (fun g => negb (GhostStatus_eqb (Ghost.status g) EATEN)) gs.

(** The respawn logic, entered after a power pellet was consumed. *)
Definition respawnLogic (state : GameStateRef) : option GameStateRef :=
  if currentPowerPellets state =? 0 then
    if ghostsAlive (ghosts state) then
      '(newGrid, respawnCount) ← respawnPellets (powerPelletLocations state) (grid state) 0;
      let state := set_grid newGrid state in
      if 0 <? respawnCount then
        Some (set_pelletsRemaining (pelletsRemaining state + respawnCount)
               (set_currentPowerPellets respawnCount state))
      else Some state
    else Some state
  else Some state.

(** The consumption of the power pellet at row [pY], column [pX], up to
    the respawn logic. *)
Definition consumePowerPellet (time : Q) (pY pX : Z) (state : GameStateRef)
    : GameStateRef :=
  let state := set_score (score state + 50) state in
  let state := set_grid (writeTile (grid state) pY pX TileType.EMPTY) state in
  let state := set_pelletsRemaining (pelletsRemaining state - 1) state in
  let state := set_currentPowerPellets (currentPowerPellets state - 1) state in
  let state := set_vulnerableUntil (time + VULNERABLE_DURATION_MS)%Q state in
  let state := set_ghostsEatenStreak 0 state in
  set_ghosts (frighten <$> ghosts state) state.

Definition consumePellet (pY pX : Z) (state : GameStateRef) : GameStateRef :=
  let state := set_score (score state + 10) state in
  let state := set_grid (writeTile (grid state) pY pX TileType.EMPTY) state in
  set_pelletsRemaining (pelletsRemaining state - 1) state.

Definition eatPellets (time : Q) (state : GameStateRef) : option GameStateRef :=
  let pX := jsRound (pos_x (Pacman.pos (pacman state))) in
  let pY := jsRound (pos_y (Pacman.pos (pacman state))) in
  if (0 <=? pY) && (pY <? MAP_HEIGHT) && (0 <=? pX) && (pX <? MAP_WIDTH) then
    item ← readTile (grid state) pY pX;
    if tileIs item TileType.PELLET then Some (consumePellet pY pX state)
    else if tileIs item TileType.POWER_PELLET then
      respawnLogic (consumePowerPellet time pY pX state)
    else Some state
  else Some state.

(** *** 2. The adversaries *)

Fixpoint findIndex {A : Type} (p : A -> bool) (l : list A) : option nat :=
  match l with
  | [] => None
  | a :: rest => if p a then Some O else S <$> findIndex p rest
  end.

(** The index of [state.ghosts.find(g => g.id === 1) || state.ghosts[0]]
    in the array, [None] when the array is empty. *)
Definition blinkyIndex (gs : list GhostEntity) : option nat :=
  match findIndex (fun g => Ghost.id g =? 1) gs with
  | Some i => Some i
  | None => match gs with [] => None | _ :: _ => Some O end
  end.

(** [blinkyPos] aliases the position object of that adversary, which the
    movement loop mutates in place: a read sees its current value. *)
Definition blinkyPosOf (blinky : option nat) (gs : list GhostEntity) : Position :=
  match blinky ≫= (fun i => gs !! i) with
  | Some g => Ghost.pos g
  | None => tilePos 0 0
  end.

Definition isHorizontal (dir : Direction) : bool :=
  match dir with LEFT | RIGHT => true | _ => false end.

Definition isForward (dir : Direction) : bool :=
  match dir with RIGHT | DOWN => true | _ => false end.

Definition ghostTunnel (g : GhostEntity) : GhostEntity :=
  Ghost.set_pos (mkPosition (tunnel (pos_x (Ghost.pos g))) (pos_y (Ghost.pos g))) g.

Section Tick.

Variable teamName : string.
Variable saveReturns : nat -> bool.
Variable random : nat -> Q.

(** The [while (distRemaining > 0 && safetyCounter < 2)] loop of the
    adversary at index [i]; [fuel] is the number of iterations left. *)
Fixpoint ghostLoop (fuel : nat) (blinky : option nat) (i : nat)
    (distRemaining : Q) (w : World) : option World :=
  match fuel with
  | O => Some w
  | S fuel' =>
      if negb (Qltb 0 distRemaining) then Some w
      else
        match ghosts (game w) !! i with
        | None => Some w
        | Some ghost =>
            let p := Ghost.pos ghost in
            let horizontal := isHorizontal (Ghost.direction ghost) in
            let currentVal := if horizontal then pos_x p else pos_y p in
            let nextInteger :=
              if isForward (Ghost.direction ghost)
              then Qfloor currentVal + 1 else Qceiling currentVal - 1 in
            let distToCenter := Qabs (inject_Z nextInteger - currentVal) in
            if Qleb distToCenter distRemaining then
              let p :=
                if horizontal then mkPosition (inject_Z nextInteger) (pos_y p)
                else mkPosition (pos_x p) (inject_Z nextInteger) in
              let p := tilePos (jsRound (pos_x p)) (jsRound (pos_y p)) in
              let ghost := Ghost.set_pos p ghost in
              let w := upd (fun s => set_ghosts (<[i := ghost]> (ghosts s)) s) w in
              let state := game w in
              '(nextDir, k) ←
                 getNextGhostDirection random (draws w) ghost
                   (Pacman.pos (pacman state)) (Pacman.dir (pacman state))
                   (blinkyPosOf blinky (ghosts state)) (grid state) (round state);
              let ghost :=
                if negb (Direction_eqb nextDir NONE)
                then Ghost.set_direction nextDir ghost else ghost in
              ghostLoop fuel' blinky i (distRemaining - distToCenter)%Q
                (set_draws k (upd (fun s => set_ghosts (<[i := ghost]> (ghosts s)) s) w))
            else
              let p := advance p (DIRECTIONS (Ghost.direction ghost)) distRemaining in
              Some (upd (fun s =>
                      set_ghosts (<[i := Ghost.set_pos p ghost]> (ghosts s)) s) w)
        end
  end.

(** The callback of [state.ghosts.forEach] in the adversary logic. *)
Definition moveGhost (blinky : option nat) (ghostMoveFactor : Q) (i : nat)
    (w : World) : option World :=
  match ghosts (game w) !! i with
  | None => Some w
  | Some ghost =>
      if GhostStatus_eqb (Ghost.status ghost) EATEN then Some w
      else
        w ← ghostLoop 2 blinky i ghostMoveFactor w;
        Some (upd (fun s => set_ghosts (alter ghostTunnel i (ghosts s)) s) w)
  end.

(** [forEach] over the indices of an array. *)
Fixpoint forIndices (f : nat -> World -> option World) (idxs : list nat)
    (w : World) : option World :=
  match idxs with
  | [] => Some w
  | i :: rest => w ← f i w; forIndices f rest w
  end.

Definition ghostPhase (moveFactor : Q) (w : World) : option World :=
  let state := game w in
  let ghostSpeedMult :=
    if round state =? 1 then (85 # 100)%Q
    else if round state =? 2 then (95 # 100)%Q else (105 # 100)%Q in
  let ghostMoveFactor := (moveFactor * ghostSpeedMult)%Q in
  let blinky := blinkyIndex (ghosts state) in
  forIndices (moveGhost blinky ghostMoveFactor) (seq 0 (length (ghosts state))) w.

(** *** 3. Timers and collisions *)

Definition calm (g : GhostEntity) : GhostEntity :=
  if GhostStatus_eqb (Ghost.status g) VULNERABLE
  then Ghost.set_status NORMAL g else g.

Definition expireVulnerability (time : Q) (state : GameStateRef) : GameStateRef :=
  if Qltb 0 (vulnerableUntil state) && Qltb (vulnerableUntil state) time then
    set_ghosts (calm <$> ghosts state)
      (set_ghostsEatenStreak 0 (set_vulnerableUntil 0%Q state))
  else state.

Definition cleanPopups (time : Q) (state : GameStateRef) : GameStateRef :=
  if (0 <? length (popups state))%nat then
    set_popups
      (List.filter (fun p => Qltb (time - popup_timestamp p) (1000 # 1)) (popups state))
      state
  else state.

(** The capture of the adversary at index [i] of the iterated array
    [arr]; [live] tells whether [state.ghosts] still is that array. *)
Definition capture (time : Q) (live : bool) (i : nat) (ghost : GhostEntity)
    (arr : list GhostEntity) (w : World) : World * list GhostEntity :=
  let arr := <[i := Ghost.set_status EATEN ghost]> arr in
  let w := if live then upd (set_ghosts arr) w else w in
  let w := upd (fun s => set_ghostsEatenStreak (ghostsEatenStreak s + 1) s) w in
  let multiplier := 2 ^ (ghostsEatenStreak (game w) - 1) in
  let points := 200 * multiplier in
  let w := upd (fun s => set_score (score s + points) s) w in
  let popup :=
    mkPopup (random (draws w)) (pos_x (Ghost.pos ghost)) (pos_y (Ghost.pos ghost))
      points time in
  (set_draws (S (draws w)) (upd (fun s => set_popups (popups s ++ [popup]) s) w), arr).

(** [dist < COLLISION_DIST], with [dist = Math.sqrt(dx*dx + dy*dy)] and
    [COLLISION_DIST] one half.  The differences, the squares and their sum
    are rounded.  The square root of a double is correctly rounded, and a
    double [s] has a square root that rounds below one half exactly when
    [s] is below one quarter (the doubles next to one half are
    [1/2 - 2^-54] and [1/2] itself, and the root of the double next below
    one quarter, [1/4 - 2^-55], lies below their midpoint): so the test is
    made on the rounded sum [s]. *)
Definition collides (ghost : GhostEntity) (pac : Pacman.t) : bool :=
  let dx := fl (pos_x (Ghost.pos ghost) - pos_x (Pacman.pos pac))%Q in
  let dy := fl (pos_y (Ghost.pos ghost) - pos_y (Pacman.pos pac))%Q in
  Qltb (fl (fl (dx * dx) + fl (dy * dy))) (1 # 4).

(** The callback of the collision [forEach] at index [i].  The loop runs
    over the array that [state.ghosts] held when it started, identified by
    [arrRef]; [arr] holds its adversaries once a restart (through
    [handleDeath]) has put another array in the state. *)
Definition collideGhost (time : Q) (arrRef : nat) (i : nat)
    (st : World * list GhostEntity) : option (World * list GhostEntity) :=
  let '(w, arr) := st in
  let live := (ghostsRef w =? arrRef)%nat in
  let arr := if live then ghosts (game w) else arr in
  match arr !! i with
  | None => Some (w, arr)
  | Some ghost =>
      if GhostStatus_eqb (Ghost.status ghost) EATEN then Some (w, arr)
      else if collides ghost (pacman (game w)) then
        if GhostStatus_eqb (Ghost.status ghost) VULNERABLE
        then Some (capture time live i ghost arr w)
        else w ← handleDeath teamName saveReturns w; Some (w, arr)
      else Some (w, arr)
  end.

Fixpoint collideAll (time : Q) (arrRef : nat) (idxs : list nat)
    (st : World * list GhostEntity) : option (World * list GhostEntity) :=
  match idxs with
  | [] => Some st
  | i :: rest => st ← collideGhost time arrRef i st; collideAll time arrRef rest st
  end.

Definition collisionPhase (time : Q) (w : World) : option World :=
  let arr := ghosts (game w) in
  fst <$> collideAll time (ghostsRef w) (seq 0 (length arr)) (w, arr).

(** *** The tick *)

Definition update (time : Q) (w : World) : option World :=
  let delta := (time - lastFrameTime (game w))%Q in
  let w := upd (fun s => set_frameCount (frameCount s + 1) (set_lastFrameTime time s)) w in
  if isPaused (status (game w)) then Some (upd (pauseTick delta) w)
  else
    (* [ROUND_CONFIGS[state.round].speed] raises on an unknown round *)
    config ← ROUND_CONFIGS (round (game w));
    let pacSpeedMs := speed config in
    let moveDist := (delta / pacSpeedMs)%Q in
    state ← pacmanPhase moveDist (game w);
    state ← eatPellets time state;
    let w := upd (fun _ => state) w in
    if pelletsRemaining state =? 0 then Some (handleLevelComplete w)
    else
      let moveFactor := (delta / pacSpeedMs)%Q in
      w ← ghostPhase moveFactor w;
      let w := upd (expireVulnerability time) w in
      let w := upd (cleanPopups time) w in
      collisionPhase time w.

End Tick.


(** * Vocabulary of the properties *)

Definition cardinal (d : Direction) : Prop := d <> NONE.

(** The grid has the rows that the vertical bounds checks assume. *)
Definition tallEnough (grid : Grid) : Prop := MAP_HEIGHT <= Z.of_nat (length grid).

(** The candidate [d] passes the test of [getAvailableMoves]. *)
Definition admitted (ghost : GhostEntity) (grid : Grid) (allowReverse : bool)
    (d : Direction) : bool :=
  match admitsMove ghost grid allowReverse d with
  | Some true => true
  | _ => false
  end.

(** The Manhattan distance between the points [(x1, y1)] and [(x2, y2)],
    as a real number. *)
Definition manhattan (x1 y1 x2 y2 : Q) : Q :=
  (Qabs (x1 - x2) + Qabs (y1 - y2))%Q.

(** The Manhattan distance computed in doubles: each difference and the
    sum rounded to the nearest double. *)
Definition computedManhattan (x1 y1 x2 y2 : Q) : Q :=
  fl (Qabs (fl (x1 - x2)) + Qabs (fl (y1 - y2)))%Q.

(** The tile, column and row, that the move [d] takes the adversary to. *)
Definition tileAhead (ghost : GhostEntity) (d : Direction) : Z * Z :=
  (jsRound (pos_x (Ghost.pos ghost) + inject_Z (move_x (DIRECTIONS d)))%Q,
   jsRound (pos_y (Ghost.pos ghost) + inject_Z (move_y (DIRECTIONS d)))%Q).

(** The distance in doubles from the tile that [d] leads to, to [target]. *)
Definition distanceAhead (ghost : GhostEntity) (target : Position)
    (d : Direction) : Q :=
  computedManhattan (inject_Z (fst (tileAhead ghost d)))
    (inject_Z (snd (tileAhead ghost d))) (pos_x target) (pos_y target).

(** [b] is the reverse of the cardinal direction [a]. *)
Definition isReverse (a b : Direction) : Prop :=
  match a, b with
  | UP, DOWN | DOWN, UP | LEFT, RIGHT | RIGHT, LEFT => True
  | _, _ => False
  end.

(** [d] is the first element of [l] with the least value of [distOf]:
    strictly better than everything before it, at least as good as
    everything after it. *)
Definition firstMin (distOf : Direction -> Q) (l : list Direction)
    (d : Direction) : Prop :=
  exists pre post,
    l = pre ++ d :: post
    /\ Forall (fun d' => (distOf d < distOf d')%Q) pre
    /\ Forall (fun d' => (distOf d <= distOf d')%Q) post.

(** * Sample inputs *)

(** The sixth adversary at the junction above the house, heading RIGHT. *)
Definition junctionGhost : GhostEntity :=
  Ghost.mk 6 (tilePos 9 7) "bg-green-400" (tilePos 10 7) RIGHT NORMAL.

(** The fifth adversary left of that junction, heading LEFT. *)
Definition houseGhost : GhostEntity :=
  Ghost.mk 5 (tilePos 8 7) "bg-purple-400" (tilePos 8 7) LEFT NORMAL.



(** The first adversary in the closed end of the left tunnel pocket,
    heading RIGHT against the wall. *)
Definition deadEndGhost : GhostEntity :=
  Ghost.mk 1 (tilePos 2 8) "bg-red-500" (tilePos 9 8) RIGHT NORMAL.

(** The fourth adversary on (8, 3), and the player in column 1 on the
    double next below 2. *)
Definition pokerGhost : GhostEntity :=
  Ghost.mk 4 (tilePos 8 3) "bg-orange-400" (tilePos 9 7) UP NORMAL.

Definition pokerPlayer : Position :=
  mkPosition 1 (9007199254740991 # 4503599627370496).

(** A player and an adversary on the rim of the collision disc: their
    distance is below one half, the distance the code computes is one
    half. *)
Definition rimPlayer : Pacman.t :=
  Pacman.mk (mkPosition (1083079200561501 # 281474976710656) 10) LEFT LEFT 0%Q.

Definition rimGhost : GhostEntity :=
  Ghost.mk 1 (mkPosition 4 (5897629560447795 # 562949953421312)) "bg-red-500"
    (tilePos 9 8) UP NORMAL.

(** A store on which every call of [saveScore] returns, and one on which
    every call raises. *)
Definition alwaysSaved (k : nat) : bool := true.

Definition neverSaved (k : nat) : bool := false.

(** A random source that always answers one third. *)
Definition oneThird (k : nat) : Q := 1 # 3.

(** The component right after mounting at time 0. *)
Definition startWorld : World :=
  Eval vm_compute in default (mkWorld mountState 0 0 [] 0) (mount 0%Q).

(** A first-round world in play, on the tunnel row: the player on the
    leftmost tile heading LEFT, one adversary just past the centre of the
    rightmost tile heading RIGHT. *)
Definition edgeWorld : World :=
  upd (fun s =>
         set_status PLAYING
           (set_pacman (Pacman.mk (tilePos 0 8) LEFT LEFT 0%Q)
             (set_ghosts
                [Ghost.mk 1 (mkPosition (723 # 40) 8%Q) "bg-red-500" (tilePos 9 8)
                   RIGHT NORMAL] s)))
      startWorld.

(** * Counting tiles *)

Definition isPelletTile (cell : Z) : bool :=
  (cell =? TileType.PELLET) || (cell =? TileType.POWER_PELLET).

Definition isPowerTile (cell : Z) : bool := cell =? TileType.POWER_PELLET.

Definition b2z (b : bool) : Z := if b then 1 else 0.

Fixpoint countRow (p : Z -> bool) (row : list Z) : Z :=
  match row with
  | [] => 0
  | cell :: rest => (if p cell then 1 else 0) + countRow p rest
  end.

Fixpoint countGrid (p : Z -> bool) (grid : Grid) : Z :=
  match grid with
  | [] => 0
  | row :: rest => countRow p row + countGrid p rest
  end.

(** The number of tiles of the grid whose type is PELLET or POWER_PELLET. *)
Definition countPellets (grid : Grid) : Z := countGrid isPelletTile grid.

(** The number of POWER_PELLET tiles of the grid. *)
Definition countPower (grid : Grid) : Z := countGrid isPowerTile grid.

(** The tile that [eatPellets] inspects: the one under the player, if the
    player is inside the grid. *)
Definition tileUnderPlayer (state : GameStateRef) : option (Z * Z) :=
  let pX := jsRound (pos_x (Pacman.pos (pacman state))) in
  let pY := jsRound (pos_y (Pacman.pos (pacman state))) in
  if (0 <=? pY) && (pY <? MAP_HEIGHT) && (0 <=? pX) && (pX <? MAP_WIDTH)
  then Some (pY, pX) else None.

(** The location [(x, y)] is restored by a respawn over [locs] on [grid]. *)
Definition restoredAt (locs : list TileIndex) (grid : Grid) (y x : Z) : Prop :=
  mkTileIndex x y ∈ locs /\ readTile grid y x = Some (Some TileType.EMPTY).

(** Every recorded power-pellet location lies in a row of the grid. *)
Definition validLocs (grid : Grid) (locs : list TileIndex) : Prop :=
  Forall (fun p => 0 <= tile_y p < Z.of_nat (length grid)) locs.

(** [s'] differs from [s] at most in the grid and the two pellet counters. *)
Definition onlyPelletsChanged (s s' : GameStateRef) : Prop :=
  s' = set_pelletsRemaining (pelletsRemaining s')
         (set_currentPowerPellets (currentPowerPellets s') (set_grid (grid s') s)).

(** A first-round state in play in which the player stands on the last
    power pellet, the other three having been eaten. *)
Definition lastPowerState : GameStateRef :=
  set_status PLAYING
    (set_pacman (Pacman.mk (tilePos 1 1) LEFT LEFT 0%Q)
      (set_currentPowerPellets 1
        (set_pelletsRemaining 124
          (set_grid
             (writeTile (writeTile (writeTile INITIAL_MAP 1 17 TileType.EMPTY)
                           14 1 TileType.EMPTY) 14 17 TileType.EMPTY)
             (game startWorld))))).

(** A first-round world in play, on the last life, with two NORMAL
    adversaries on the player's tile. *)
Definition lastLifeWorld : World :=
  upd (fun s =>
         set_status PLAYING
           (set_score 10
             (set_lives 1
               (set_pacman (Pacman.mk (tilePos 4 4) LEFT LEFT 0%Q)
                 (set_ghosts
                    [Ghost.mk 1 (tilePos 4 4) "bg-red-500" (tilePos 9 8) RIGHT NORMAL;
                     Ghost.mk 2 (tilePos 4 4) "bg-pink-400" (tilePos 8 8) DOWN NORMAL]
                    s)))))
      startWorld.

(** A world in play in which the second adversary, VULNERABLE, is on the
    player's tile and two captures were already made in this window. *)
Definition thirdCaptureWorld : World :=
  upd (fun s =>
         set_status PLAYING
           (set_ghostsEatenStreak 2
             (set_vulnerableUntil (9000 # 1)
               (set_pacman (Pacman.mk (tilePos 4 4) LEFT LEFT 0%Q)
                 (set_ghosts
                    [Ghost.mk 1 (tilePos 9 8) "bg-red-500" (tilePos 9 8) UP EATEN;
                     Ghost.mk 2 (tilePos 4 4) "bg-pink-400" (tilePos 8 8) DOWN VULNERABLE;
                     Ghost.mk 3 (tilePos 10 8) "bg-cyan-400" (tilePos 10 8) UP EATEN]
                    s)))))
      startWorld.

(** * Reachable worlds *)

(** The contract of [Math.random()]: every draw lies in [0, 1). *)
Definition unitDraws (random : nat -> Q) : Prop :=
  forall k, (0 <= random k)%Q /\ (random k < 1)%Q.

(** The store accepts every save: no call of [saveScore] raises. *)
Definition storeHolds (saveReturns : nat -> bool) : Prop :=
  forall k, saveReturns k = true.

(** What every state of a running game satisfies. *)
Definition wellFormed (s : GameStateRef) : Prop :=
  pelletsRemaining s = countPellets (grid s)
  /\ tallEnough (grid s)
  /\ validLocs (grid s) (powerPelletLocations s)
  /\ 1 <= round s <= 3
  /\ (length (ghosts s) <= length INITIAL_GHOSTS)%nat.

(** [s'] has the board of [s]: same grid, counter, recorded locations and
    round, and as many adversaries. *)
Definition sameBoardS (s s' : GameStateRef) : Prop :=
  grid s' = grid s
  /\ pelletsRemaining s' = pelletsRemaining s
  /\ powerPelletLocations s' = powerPelletLocations s
  /\ round s' = round s
  /\ length (ghosts s') = length (ghosts s).

Definition sameBoard (w w' : World) : Prop :=
  sameBoardS (game w) (game w') /\ levelTimers w' = levelTimers w.

(** A well-formed world with pellets left and [n] level timers pending. *)
Definition playable (n : nat) (w : World) : Prop :=
  wellFormed (game w) /\ pelletsRemaining (game w) <> 0 /\ levelTimers w = n.

(** The worlds a component instance can be in: after mounting, and after
    any sequence of ticks, key presses and level-timer callbacks. *)
Inductive reachable (teamName : string) (saveReturns : nat -> bool)
    (random : nat -> Q) : World -> Prop :=
  | reach_mount (now : Q) (w : World) :
      mount now = Some w -> reachable teamName saveReturns random w
  | reach_tick (time : Q) (w w' : World) :
      reachable teamName saveReturns random w ->
      update teamName saveReturns random time w = Some w' ->
      reachable teamName saveReturns random w'
  | reach_key (newDir : Direction) (w : World) :
      reachable teamName saveReturns random w ->
      reachable teamName saveReturns random (handleKeyDown newDir w)
  | reach_timer (w w' : World) :
      reachable teamName saveReturns random w ->
      (0 < levelTimers w)%nat ->
      levelCompleteTimeout teamName saveReturns w = Some w' ->
      reachable teamName saveReturns random w'.

(** * utils/storage.ts *)

(** The leaderboard lives in one [localStorage] item holding the JSON text
    of an array of [HighScore] records.  [JSON.parse] of what
    [JSON.stringify] wrote gives the array back; the item is modelled by
    the array it decodes to.  The clock ([new Date().toISOString()]) is an
    argument.  [Array.prototype.sort] is stable, so with the comparator
    [(a, b) => b.score - a.score] it is the stable sort by descending
    score, written here as insertion from the right. *)
Module Storage.

Record HighScore : Set := mkHighScore {
  teamName : string;
  score : Z;
  date : string
}.

(** What [localStorage.getItem(STORAGE_KEY)] finds, for the three kinds of
    item on which [saveScore] returns.  An item that parses to something
    other than an array is returned as it is by [getLeaderboard] and makes
    the spread in [saveScore] raise, and so does a [setItem] that the
    browser refuses: those calls are not described here; in the game they
    are the calls on which [saveReturns] is [false]. *)
Inductive Item : Set :=
  | Missing                         (* [null], or the empty string *)
  | Unreadable                      (* [getItem] or [JSON.parse] throws *)
  | Stored (board : list HighScore).

Definition getLeaderboard (item : Item) : list HighScore :=
  match item with
  | Stored board => board
  | Missing | Unreadable => []
  end.

(** [a] comes before every element of [l] in the array being sorted; it
    moves behind an element [y] only when the comparator is positive on
    [(a, y)], that is when [y.score - a.score > 0]. *)
Fixpoint insertSorted (a : HighScore) (l : list HighScore) : list HighScore :=
  match l with
  | [] => [a]
  | y :: rest =>
      if score a <? score y then y :: insertSorted a rest else a :: y :: rest
  end.

Definition sortDescending (l : list HighScore) : list HighScore :=
  foldr insertSorted [] l.

Definition saveScore (teamName : string) (score : Z) (now : string) (item : Item)
    : Item * list HighScore :=
  let current := getLeaderboard item in
  let newScore := mkHighScore teamName score now in
  let updated := take 5 (sortDescending (current ++ [newScore])) in
  (Stored updated, updated).

(** Scores in non-increasing order. *)
Definition descending (l : list HighScore) : Prop :=
  forall i j a b, (i < j)%nat -> l !! i = Some a -> l !! j = Some b -> score b <= score a.

(** The number of entries of [l] with a score of at least [s]. *)
Definition countAtLeast (s : Z) (l : list HighScore) : nat :=
  length (List.filter (fun e => s <=? score e) l).

End Storage.

(** Descending order as a recursive predicate: every entry is followed
    only by entries with at most its score. *)
Fixpoint sortedDesc (l : list Storage.HighScore) : Prop :=
  match l with
  | [] => True
  | a :: rest =>
      Forall (fun b => Storage.score b <= Storage.score a) rest /\ sortedDesc rest
  end.

(** A board as [saveScore] leaves it, with a tie on 300 points. *)
Definition sampleBoard : list Storage.HighScore :=
  [ Storage.mkHighScore "ACE" 900 "2024-01-01T10:00:00.000Z";
    Storage.mkHighScore "BOB" 300 "2024-01-02T10:00:00.000Z";
    Storage.mkHighScore "CAT" 300 "2024-01-03T10:00:00.000Z";
    Storage.mkHighScore "DAN" 120 "2024-01-04T10:00:00.000Z";
    Storage.mkHighScore "EVE" 80 "2024-01-05T10:00:00.000Z" ].

(** * Vocabulary of the further properties *)

(** The number of adversaries of a round. *)
Definition rosterSize (roundNum : Z) : nat :=
  if roundNum =? 1 then 3 else if roundNum =? 2 then 4 else 6.

(** A run of ticks, one timestamp each, stopped by the first exception. *)
Section Runs.
Variable teamName : string.
Variable saveReturns : nat -> bool.
Variable random : nat -> Q.

Fixpoint runTicks (times : list Q) (w : World) : option World :=
  match times with
  | [] => Some w
  | time :: rest => w' ← update teamName saveReturns random time w; runTicks rest w'
  end.
End Runs.

(** The world after the tick at 2000 ms that ends the first countdown,
    and after one more tick of 65 ms. *)
Definition playWorld : World :=
  Eval vm_compute in default startWorld (update "TEAM" alwaysSaved oneThird (2000 # 1) startWorld).

Definition secondWorld : World :=
  Eval vm_compute in default playWorld (update "TEAM" alwaysSaved oneThird (2065 # 1) playWorld).

(** A third round that has just been completed: its level timer is
    pending. *)
Definition finalWorld : World :=
  Eval vm_compute in upd (set_round 3) (handleLevelComplete startWorld).

(** * Vocabulary of the properties of a tick *)

(** [g'] is the adversary [g] at a later moment: identity, colour and
    start tile are never assigned after the adversary is created. *)
Definition sameIdentity (g g' : GhostEntity) : Prop :=
  Ghost.id g' = Ghost.id g
  /\ Ghost.color g' = Ghost.color g
  /\ Ghost.startPos g' = Ghost.startPos g.

(** The array [gs'] holds the adversaries of [gs], index by index, and
    those that were EATEN are untouched. *)
Definition eatenKept (gs gs' : list GhostEntity) : Prop :=
  length gs' = length gs
  /\ forall i g, gs !! i = Some g ->
       exists g', gs' !! i = Some g' /\ sameIdentity g g'
                  /\ (Ghost.status g = EATEN -> g' = g).

(** What separates two worlds of one component instance when the second
    is the later one. *)
Definition later (w w' : World) : Prop :=
  (ghostsRef w <= ghostsRef w')%nat
  /\ (draws w <= draws w')%nat
  /\ (exists evs, events w' = events w ++ evs)
  /\ (ghostsRef w' = ghostsRef w -> eatenKept (ghosts (game w)) (ghosts (game w')))
  /\ (0 <= ghostsEatenStreak (game w) ->
      score (game w) <= score (game w') /\ 0 <= ghostsEatenStreak (game w')).

(** [thirdCaptureWorld] after a tick at 13 ms, in which the capture is made. *)
Definition captureWorld : World :=
  Eval vm_compute in
    default thirdCaptureWorld (update "TEAM" alwaysSaved oneThird (13 # 1) thirdCaptureWorld).

(** [playWorld] after the adversary phase of a tick of half a tile. *)
Definition chaseWorld : World :=
  Eval vm_compute in default playWorld (ghostPhase oneThird (1 # 2) playWorld).

(** The adversary [g] kills the player [pac] in the collision pass: it is
    NORMAL and within the collision distance. *)
Definition isKiller (pac : Pacman.t) (g : GhostEntity) : bool :=
  GhostStatus_eqb (Ghost.status g) NORMAL && collides g pac.

Definition killers (pac : Pacman.t) (gs : list GhostEntity) : nat :=
  length (List.filter (isKiller pac) gs).

(** The collaborator calls of [handleDemotionOrGameOver] in round 1, one
    pair per score in [scores]. *)
Definition gameOverCalls (teamName : string) (scores : list Z) : list Event :=
  flat_map (fun s => [SaveScore teamName s; OnGameOver s]) scores.

(** [g'] is [g] moved: at most position and direction differ. *)
Definition moved (g g' : GhostEntity) : Prop :=
  g' = Ghost.set_direction (Ghost.direction g') (Ghost.set_pos (Ghost.pos g') g).

(** The array [gs'] holds the adversaries of [gs] moved, index by index,
    those that are EATEN not at all. *)
Definition onlyMoved (gs gs' : list GhostEntity) : Prop :=
  length gs' = length gs
  /\ forall i g, gs !! i = Some g ->
       exists g', gs' !! i = Some g' /\ moved g g'
                  /\ (Ghost.status g = EATEN -> g' = g).

(** What the adversary phase may change: the adversaries, by moving them,
    and the number of random draws. *)
Definition ghostStep (w w' : World) : Prop :=
  game w' = set_ghosts (ghosts (game w')) (game w)
  /\ ghostsRef w' = ghostsRef w
  /\ events w' = events w
  /\ levelTimers w' = levelTimers w
  /\ onlyMoved (ghosts (game w)) (ghosts (game w'))
  /\ (draws w <= draws w')%nat.

Definition noneVulnerable (gs : list GhostEntity) : Prop :=
  forall i g, gs !! i = Some g -> Ghost.status g <> VULNERABLE.

(** The live power-pellet counter agrees with the grid. *)
Definition powerLedger (s : GameStateRef) : Prop :=
  currentPowerPellets s = countPower (grid s)
  /\ powerPelletLocations s = snd (scanGrid INITIAL_MAP).

(** [s'] has the grid and the power-pellet bookkeeping of [s]. *)
Definition samePower (s s' : GameStateRef) : Prop :=
  grid s' = grid s
  /\ currentPowerPellets s' = currentPowerPellets s
  /\ powerPelletLocations s' = powerPelletLocations s.

(** What the movement code never touches in the player record, and the
    only directions it can leave the player with. *)
Definition steered (pac pac' : Pacman.t) : Prop :=
  Pacman.nextDir pac' = Pacman.nextDir pac
  /\ Pacman.lastMoveTime pac' = Pacman.lastMoveTime pac
  /\ (Pacman.dir pac' = Pacman.dir pac \/ Pacman.dir pac' = Pacman.nextDir pac)
  /\ (Pacman.nextDir pac = Pacman.dir pac -> Pacman.dir pac' = Pacman.dir pac).

(** The lives of a game that is still being played. *)
Definition liveGame (w : World) : Prop :=
  lives (game w) <= 3
  /\ (levelTimers w <= 1)%nat
  /\ (levelTimers w = 1%nat -> status (game w) = LEVEL_TRANSITION)
  /\ (status (game w) <> LEVEL_TRANSITION \/ levelTimers w = 1%nat ->
      1 <= lives (game w)).

(** The same during the collision pass, where no timer is pending. *)
Definition colliding (w : World) : Prop :=
  lives (game w) <= 3
  /\ levelTimers w = 0%nat
  /\ (status (game w) <> LEVEL_TRANSITION -> 1 <= lives (game w)).

(** The popup [p] is less than a second old at [time]. *)
Definition freshAt (time : Q) (p : ScorePopup) : Prop :=
  (time - popup_timestamp p < 1000 # 1)%Q.

(** * Properties *)

(** ** Comparisons on rationals *)

Lemma Qltb_lt (a b : Q) : Qltb a b = true <-> (a < b)%Q.
Proof. unfold Qltb. rewrite Qlt_alt. destruct (a ?= b)%Q; intuition congruence. Qed.

Lemma Qltb_ge (a b : Q) : Qltb a b = false <-> (b <= a)%Q.
Proof.
  split; intros H.
  - apply Qnot_lt_le. intros Hlt. apply Qltb_lt in Hlt. congruence.
  - destruct (Qltb a b) eqn:E; [|reflexivity].
    apply Qltb_lt in E. exfalso. exact (Qlt_not_le _ _ E H).
Qed.

Lemma Qleb_le (a b : Q) : Qleb a b = true <-> (a <= b)%Q.
Proof. unfold Qleb. rewrite Qle_alt. destruct (a ?= b)%Q; intuition congruence. Qed.

Lemma Qleb_gt (a b : Q) : Qleb a b = false <-> (b < a)%Q.
Proof.
  split; intros H.
  - apply Qnot_le_lt. intros Hle. apply Qleb_le in Hle. congruence.
  - destruct (Qleb a b) eqn:E; [|reflexivity].
    apply Qleb_le in E. exfalso. exact (Qle_not_lt _ _ E H).
Qed.

(** ** Directions *)

Lemma Direction_eqb_eq (a b : Direction) : Direction_eqb a b = true <-> a = b.
Proof. destruct a, b; simpl; intuition congruence. Qed.

Lemma Direction_eqb_neq (a b : Direction) : Direction_eqb a b = false <-> a <> b.
Proof. destruct a, b; simpl; intuition congruence. Qed.

Lemma GhostStatus_eqb_eq (a b : GhostStatus) : GhostStatus_eqb a b = true <-> a = b.
Proof. destruct a, b; simpl; intuition congruence. Qed.

Lemma GhostStatus_eqb_neq (a b : GhostStatus) : GhostStatus_eqb a b = false <-> a <> b.
Proof. destruct a, b; simpl; intuition congruence. Qed.

Lemma opposite_cardinal (d : Direction) :
  cardinal d -> cardinal (getOppositeDirection d).
Proof. unfold cardinal. destruct d; simpl; congruence. Qed.

Lemma checkOrder_cardinal (d : Direction) : d ∈ checkOrder -> cardinal d.
Proof.
  unfold checkOrder, cardinal. intros Hin ->.
  repeat (apply elem_of_cons in Hin as [Hin|Hin]; [discriminate|]).
  by apply elem_of_nil in Hin.
Qed.

(** ** Reading the grid *)

Lemma lookupZ_Some {A : Type} (l : list A) (i : Z) :
  0 <= i < Z.of_nat (length l) -> is_Some (lookupZ l i).
Proof.
  intros [H0 H1]. unfold lookupZ.
  destruct (Z.ltb_spec i 0); [lia|].
  apply lookup_lt_is_Some. lia.
Qed.

Lemma readTile_total (grid : Grid) (y x : Z) :
  0 <= y < Z.of_nat (length grid) -> is_Some (readTile grid y x).
Proof.
  intros Hy. unfold readTile.
  destruct (lookupZ_Some grid y Hy) as [row ->]. simpl. eauto.
Qed.

(** ** The available moves *)

Lemma collectMoves_filter ghost grid allowReverse dirs acc moves :
  collectMoves ghost grid allowReverse dirs acc = Some moves ->
  moves = acc ++ List.filter (admitted ghost grid allowReverse) dirs.
Proof.
  revert acc. induction dirs as [|d dirs IH]; intros acc; simpl.
  - intros [= <-]. by rewrite app_nil_r.
  - unfold admitted at 1.
    destruct (admitsMove ghost grid allowReverse d) as [[|]|]; simpl; [| |discriminate].
    + intros H. apply IH in H. by rewrite <- app_assoc in H.
    + apply IH.
Qed.

Lemma admitsMove_total ghost grid allowReverse d :
  tallEnough grid -> is_Some (admitsMove ghost grid allowReverse d).
Proof.
  intros Htall. unfold admitsMove.
  destruct (negb allowReverse && _); [eauto|].
  match goal with |- context [if ?c then _ else _] => destruct c eqn:Hc end.
  - apply andb_prop in Hc as [Hc _]. apply andb_prop in Hc as [Hc _].
    apply andb_prop in Hc as [H0 H1].
    apply Z.leb_le in H0. apply Z.ltb_lt in H1.
    unfold tallEnough in Htall.
    edestruct readTile_total as [t ->]; [|simpl; eauto]. lia.
  - destruct (_ || _); eauto.
Qed.

Lemma collectMoves_total ghost grid allowReverse dirs acc :
  tallEnough grid -> is_Some (collectMoves ghost grid allowReverse dirs acc).
Proof.
  intros Htall. revert acc. induction dirs as [|d dirs IH]; intros acc; simpl; [eauto|].
  destruct (admitsMove_total ghost grid allowReverse d Htall) as [b ->]. simpl. apply IH.
Qed.

Lemma getAvailableMoves_filter ghost grid allowReverse moves :
  getAvailableMoves ghost grid allowReverse = Some moves ->
  moves = List.filter (admitted ghost grid allowReverse) checkOrder.
Proof. intros H. by apply collectMoves_filter in H. Qed.

Lemma getAvailableMoves_total ghost grid allowReverse :
  tallEnough grid -> is_Some (getAvailableMoves ghost grid allowReverse).
Proof. apply collectMoves_total. Qed.

Lemma getAvailableMoves_elem ghost grid allowReverse moves d :
  getAvailableMoves ghost grid allowReverse = Some moves ->
  d ∈ moves <-> d ∈ checkOrder /\ admitted ghost grid allowReverse d = true.
Proof.
  intros ->%getAvailableMoves_filter.
  rewrite !list_elem_of_In, filter_In. reflexivity.
Qed.

Lemma getAvailableMoves_cardinal ghost grid allowReverse moves d :
  getAvailableMoves ghost grid allowReverse = Some moves ->
  d ∈ moves -> cardinal d.
Proof.
  intros H Hd. apply (getAvailableMoves_elem _ _ _ _ d H) in Hd as [Hd _].
  by apply checkOrder_cardinal.
Qed.

Lemma cardinal_checkOrder (d : Direction) : cardinal d -> d ∈ checkOrder.
Proof.
  unfold cardinal, checkOrder. destruct d; intros H; try congruence;
    repeat first [apply list_elem_of_here | apply list_elem_of_further].
Qed.

(** ** Walkability (C2) *)

(** C2, counterexample.  In the initial maze the tile below (8, 7) is the
    spawn marker, which is not a WALL; the adversaries' computation admits
    the move DOWN onto it, the player's validity check rejects it. *)
Lemma spawn_marker_blocks_player :
  readTile INITIAL_MAP 8 8 = Some (Some TileType.GHOST_SPAWN)
  /\ TileType.GHOST_SPAWN <> TileType.WALL
  /\ getAvailableMoves
       houseGhost INITIAL_MAP false = Some [UP; DOWN]
  /\ isValidMove INITIAL_MAP 8 7 DOWN = Some false.
Proof. repeat split; try reflexivity. discriminate. Qed.

(** C2, amended.  For a destination inside the grid holding [tile]: the
    player's check [isValidMove] accepts it exactly when [tile] is neither
    WALL nor GHOST_SPAWN; the adversaries' [getAvailableMoves] (reversal
    excluded) lists a non-reverse cardinal direction exactly when [tile]
    is not WALL, so that the spawn marker is walkable for adversaries
    only. *)
Theorem walkability (grid : Grid) (x y : Z) (dir : Direction)
    (ghost : GhostEntity) (tile : Z) :
  0 <= y + move_y (DIRECTIONS dir) < MAP_HEIGHT ->
  0 <= x + move_x (DIRECTIONS dir) < MAP_WIDTH ->
  readTile grid (y + move_y (DIRECTIONS dir)) (x + move_x (DIRECTIONS dir))
    = Some (Some tile) ->
  isValidMove grid x y dir
    = Some (negb (tile =? TileType.WALL) && negb (tile =? TileType.GHOST_SPAWN))
  /\ (jsRound (pos_x (Ghost.pos ghost)) = x ->
      jsRound (pos_y (Ghost.pos ghost)) = y ->
      cardinal dir ->
      dir <> getOppositeDirection (Ghost.direction ghost) ->
      forall moves, getAvailableMoves ghost grid false = Some moves ->
        (dir ∈ moves <-> tile <> TileType.WALL)).
Proof.
  intros Hy Hx Hread. split.
  - unfold isValidMove.
    destruct (Z.ltb_spec (x + move_x (DIRECTIONS dir)) 0); [lia|].
    destruct (Z.leb_spec MAP_WIDTH (x + move_x (DIRECTIONS dir))); [lia|].
    destruct (Z.ltb_spec (y + move_y (DIRECTIONS dir)) 0); [lia|].
    destruct (Z.leb_spec MAP_HEIGHT (y + move_y (DIRECTIONS dir))); [lia|].
    simpl. rewrite Hread. reflexivity.
  - intros Hgx Hgy Hcard Hrev moves Hmoves.
    rewrite (getAvailableMoves_elem _ _ _ _ dir Hmoves).
    assert (Hadm : admitsMove ghost grid false dir
                   = Some (negb (tile =? TileType.WALL))).
    { unfold admitsMove. rewrite Hgx, Hgy.
      apply Direction_eqb_neq in Hrev. rewrite Hrev. simpl.
      destruct (Z.leb_spec 0 (y + move_y (DIRECTIONS dir))); [|lia].
      destruct (Z.ltb_spec (y + move_y (DIRECTIONS dir)) MAP_HEIGHT); [|lia].
      destruct (Z.leb_spec 0 (x + move_x (DIRECTIONS dir))); [|lia].
      destruct (Z.ltb_spec (x + move_x (DIRECTIONS dir)) MAP_WIDTH); [|lia].
      simpl. rewrite Hread. reflexivity. }
    unfold admitted. rewrite Hadm.
    destruct (Z.eqb_spec tile TileType.WALL) as [->|Hne]; simpl.
    + split; [intros [_ [=]] | congruence].
    + split; [done|]. intros _. split; [by apply cardinal_checkOrder | done].
Qed.

Lemma walkability_witness :
  isValidMove INITIAL_MAP 8 7 DOWN
    = Some (negb (8 =? TileType.WALL) && negb (8 =? TileType.GHOST_SPAWN))
  /\ (DOWN ∈ [UP; DOWN] <-> 8 <> TileType.WALL).
Proof.
  destruct (walkability INITIAL_MAP 8 7 DOWN houseGhost 8) as [Hplayer Hghost].
  - simpl. unfold MAP_HEIGHT. lia.
  - simpl. unfold MAP_WIDTH. lia.
  - reflexivity.
  - split; [exact Hplayer|].
    apply Hghost; [reflexivity | reflexivity | discriminate | discriminate | reflexivity].
Defined.

(** ** The decision at an intersection (C6) *)

Lemma firstMin_elem distOf l d : firstMin distOf l d -> d ∈ l.
Proof. intros (pre & post & -> & _). apply elem_of_app. right. apply list_elem_of_here. Qed.

Lemma selectBest_acc distOf moves :
  forall seen best,
    firstMin distOf seen best ->
    firstMin distOf (seen ++ moves)
      (selectBest distOf moves best (Some (distOf best))).
Proof.
  induction moves as [|dir rest IH]; intros seen best Hbest; simpl.
  - by rewrite app_nil_r.
  - replace (seen ++ dir :: rest) with ((seen ++ [dir]) ++ rest)
      by (by rewrite <- app_assoc).
    destruct (Qltb (distOf dir) (distOf best)) eqn:Hlt.
    + apply Qltb_lt in Hlt. apply IH.
      destruct Hbest as (pre & post & -> & Hpre & Hpost).
      exists (pre ++ best :: post), []. split; [done|]. split; [|constructor].
      apply Forall_app. split.
      * eapply Forall_impl; [exact Hpre|]. simpl. intros d' Hd'.
        eapply Qlt_trans; eauto.
      * constructor; [done|].
        eapply Forall_impl; [exact Hpost|]. simpl. intros d' Hd'.
        eapply Qlt_le_trans; eauto.
    + apply Qltb_ge in Hlt. apply IH.
      destruct Hbest as (pre & post & -> & Hpre & Hpost).
      exists pre, (post ++ [dir]). split; [by rewrite <- app_assoc|]. split; [done|].
      apply Forall_app. split; [done|]. by constructor.
Qed.

Lemma selectBest_firstMin distOf first rest :
  firstMin distOf (first :: rest) (selectBest distOf (first :: rest) first None).
Proof.
  simpl. apply (selectBest_acc distOf rest [first] first).
  exists [], []. repeat split; constructor.
Qed.

Lemma available_sublist ghost grid allowReverse moves :
  getAvailableMoves ghost grid allowReverse = Some moves ->
  sublist moves checkOrder.
Proof.
  intros ->%getAvailableMoves_filter.
  generalize checkOrder. intros l. induction l as [|d l IH]; simpl; [constructor|].
  destruct (admitted ghost grid allowReverse d); by constructor.
Qed.


(** The distance of the selection loop is [distanceAhead]. *)
Lemma loop_distance (ghost : GhostEntity) (target : Position) (c : Direction) :
  getDistance (getNextTile (Ghost.pos ghost) c) target = distanceAhead ghost target c.
Proof.
  unfold getDistance, getNextTile, distanceAhead, computedManhattan, tileAhead, tilePos.
  cbn [pos_x pos_y fst snd]. reflexivity.
Qed.





(** ** The decision never stalls (C10) *)

Lemma random_index (r : Q) (n : nat) :
  (0 <= r)%Q -> (r < 1)%Q -> (0 < n)%nat ->
  0 <= Qfloor (r * inject_Z (Z.of_nat n)) < Z.of_nat n.
Proof.
  intros H0 H1 Hn. split.
  - change 0 with (Qfloor 0). apply Qfloor_resp_le.
    apply Qmult_le_0_compat; [done|].
    change 0%Q with (inject_Z 0). rewrite <- Zle_Qle. lia.
  - rewrite Zlt_Qlt. eapply Qle_lt_trans; [apply Qfloor_le|].
    rewrite <- (Qmult_1_l (inject_Z (Z.of_nat n))) at 2.
    apply Qmult_lt_compat_r; [|done].
    change 0%Q with (inject_Z 0). rewrite <- Zlt_Qlt. lia.
Qed.

Lemma admitted_reverse (ghost : GhostEntity) (grid : Grid) :
  admitted ghost grid false (getOppositeDirection (Ghost.direction ghost)) = false.
Proof.
  unfold admitted, admitsMove.
  assert (Direction_eqb (getOppositeDirection (Ghost.direction ghost))
            (getOppositeDirection (Ghost.direction ghost)) = true) as ->
    by (by apply Direction_eqb_eq).
  reflexivity.
Qed.

Lemma isReverse_opposite (a b : Direction) :
  cardinal a -> (isReverse a b <-> b = getOppositeDirection a).
Proof.
  unfold cardinal. intros Ha.
  destruct a, b; simpl; split; first [done | congruence | discriminate].
Qed.

Lemma available_not_reverse ghost grid moves c :
  cardinal (Ghost.direction ghost) ->
  getAvailableMoves ghost grid false = Some moves ->
  c ∈ moves -> ~ isReverse (Ghost.direction ghost) c.
Proof.
  intros Hdir Hmoves Hin Hrev.
  apply (isReverse_opposite _ _ Hdir) in Hrev. subst c.
  apply (getAvailableMoves_elem _ _ _ _ _ Hmoves) in Hin as [_ Hadm].
  by rewrite admitted_reverse in Hadm.
Qed.

(** C10.  For an adversary heading in a cardinal direction, on a grid with
    all its rows and with a random draw in [0, 1), the decision function
    returns a cardinal direction.  The available non-reverse moves are
    cardinal and none of them is the reverse of the current direction
    (DOWN for UP, UP for DOWN, RIGHT for LEFT, LEFT for RIGHT); the
    decision is one of them or, when there is none, exactly that reverse.
    This covers VULNERABLE and normal mode alike. *)
Theorem decision_is_cardinal (random : nat -> Q) (draws : nat)
    (ghost : GhostEntity) (pacmanPos : Position) (pacmanDir : Direction)
    (blinkyPos : Position) (grid : Grid) (round : Z) :
  cardinal (Ghost.direction ghost) ->
  tallEnough grid ->
  (0 <= random draws)%Q -> (random draws < 1)%Q ->
  exists d k moves,
    getNextGhostDirection random draws ghost pacmanPos pacmanDir blinkyPos grid round
      = Some (d, k)
    /\ cardinal d
    /\ getAvailableMoves ghost grid false = Some moves
    /\ (forall c, c ∈ moves ->
          cardinal c /\ ~ isReverse (Ghost.direction ghost) c)
    /\ (d ∈ moves
        \/ (moves = [] /\ isReverse (Ghost.direction ghost) d)).
Proof.
  intros Hdir Htall Hr0 Hr1.
  destruct (getAvailableMoves_total ghost grid false Htall) as [moves Hmoves].
  assert (Hcard : forall d, d ∈ moves -> cardinal d)
    by (intros d Hd; eapply getAvailableMoves_cardinal; eauto).
  assert (Hall : forall c, c ∈ moves ->
                   cardinal c /\ ~ isReverse (Ghost.direction ghost) c).
  { intros c Hc. split; [by apply Hcard|]. by eapply available_not_reverse. }
  assert (Hrev : isReverse (Ghost.direction ghost)
                   (getOppositeDirection (Ghost.direction ghost)))
    by (by apply isReverse_opposite).
  unfold getNextGhostDirection. rewrite Hmoves.
  destruct (GhostStatus_eqb (Ghost.status ghost) VULNERABLE);
    cbn [mbind option_bind].
  - destruct (Nat.ltb_spec 0 (length moves)) as [Hlen|Hlen].
    + pose proof (random_index (random draws) (length moves) Hr0 Hr1 Hlen) as Hidx.
      destruct (lookupZ_Some moves _ Hidx) as [d Hd]. rewrite Hd.
      cbn [mbind option_bind].
      assert (d ∈ moves).
      { unfold lookupZ in Hd. destruct (_ <? 0); [discriminate|].
        by apply list_elem_of_lookup_2 in Hd. }
      exists d, (S draws), moves. repeat split; auto. by apply Hall.
    + destruct moves; [|simpl in Hlen; lia].
      do 3 eexists. split; [reflexivity|].
      split; [by apply opposite_cardinal|]. split; [reflexivity|].
      split; [exact Hall | by right].
  - destruct moves as [|first [|second rest]] eqn:Heq.
    + do 3 eexists. split; [reflexivity|].
      split; [by apply opposite_cardinal|]. split; [reflexivity|].
      split; [exact Hall | by right].
    + do 3 eexists. split; [reflexivity|].
      assert (first ∈ [first]) by apply list_elem_of_here.
      split; [by apply Hcard|]. split; [reflexivity|]. split; [exact Hall | by left].
    + rewrite <- Heq in *.
      eexists _, _, moves. split; [reflexivity|].
      match goal with |- cardinal ?d /\ _ => assert (Hin : d ∈ moves) end.
      { rewrite Heq. eapply firstMin_elem. apply selectBest_firstMin. }
      split; [by apply Hcard|]. split; [reflexivity|]. split; [exact Hall | by left].
Qed.

Lemma decision_is_cardinal_witness :
  getAvailableMoves deadEndGhost INITIAL_MAP false = Some []
  /\ getNextGhostDirection oneThird 0 deadEndGhost (tilePos 9 10) RIGHT (tilePos 9 8)
       INITIAL_MAP 1 = Some (LEFT, 0%nat)
  /\ getNextGhostDirection oneThird 0 (Ghost.set_status VULNERABLE deadEndGhost)
       (tilePos 9 10) RIGHT (tilePos 9 8) INITIAL_MAP 1 = Some (LEFT, 0%nat).
Proof.
  destruct (decision_is_cardinal oneThird 0 deadEndGhost
              (tilePos 9 10) RIGHT (tilePos 9 8) INITIAL_MAP 1)
    as (d & k & moves & Hd & _ & Hmoves & _ & Hcase).
  - discriminate.
  - unfold tallEnough, MAP_HEIGHT. simpl. lia.
  - discriminate.
  - reflexivity.
  - destruct (decision_is_cardinal oneThird 0 (Ghost.set_status VULNERABLE deadEndGhost)
                (tilePos 9 10) RIGHT (tilePos 9 8) INITIAL_MAP 1)
      as (d' & k' & moves' & Hd' & _ & Hmoves' & _ & Hcase').
    + discriminate.
    + unfold tallEnough, MAP_HEIGHT. simpl. lia.
    + discriminate.
    + reflexivity.
    + assert (Hnone : getAvailableMoves deadEndGhost INITIAL_MAP false = Some [])
        by (vm_compute; reflexivity).
      assert (Hnone' : getAvailableMoves (Ghost.set_status VULNERABLE deadEndGhost)
                         INITIAL_MAP false = Some [])
        by (vm_compute; reflexivity).
      rewrite Hnone in Hmoves. injection Hmoves as <-.
      rewrite Hnone' in Hmoves'. injection Hmoves' as <-.
      destruct Hcase as [Hin|[_ Hrev]]; [by apply elem_of_nil in Hin|].
      destruct Hcase' as [Hin|[_ Hrev']]; [by apply elem_of_nil in Hin|].
      split; [reflexivity|].
      destruct d; try (exfalso; exact Hrev).
      destruct d'; try (exfalso; exact Hrev').
      assert (k = 0%nat).
      { vm_compute in Hd. congruence. }
      assert (k' = 0%nat).
      { vm_compute in Hd'. congruence. }
      subst k k'. split; [exact Hd | exact Hd'].
Defined.

(** ** Tunnel wraparound (C3) *)

Lemma tunnel_spec (x : Q) :
  ((x < - (1 # 2))%Q -> tunnel x = (inject_Z MAP_WIDTH - (1 # 2))%Q)
  /\ ((inject_Z MAP_WIDTH - (1 # 2) < x)%Q -> tunnel x = (- (1 # 2))%Q)
  /\ ((- (1 # 2) <= x)%Q -> (x <= inject_Z MAP_WIDTH - (1 # 2))%Q -> tunnel x = x).
Proof.
  unfold tunnel. repeat split.
  - intros H. apply Qltb_lt in H. rewrite H. reflexivity.
  - intros H.
    assert (Qltb x (- (1 # 2)) = false) as ->.
    { apply Qltb_ge. eapply Qle_trans; [|apply Qlt_le_weak, H]. discriminate. }
    apply Qltb_lt in H. by rewrite H.
  - intros H1 H2. apply Qltb_ge in H1, H2. by rewrite H1, H2.
Qed.

(** C3, counterexample.  One tick of 65 ms in round 1 takes the player from
    the leftmost tile to exactly x = -0.5 and the adversary to exactly
    x = W - 0.5; the tunnel logic then leaves both where they are. *)
Lemma edge_position_not_wrapped :
  exists w',
    update "TEAM" alwaysSaved oneThird (65 # 1) edgeWorld = Some w'
    /\ (pos_x (Pacman.pos (pacman (game w'))) == - (1 # 2))%Q
    /\ ~ (pos_x (Pacman.pos (pacman (game w'))) == inject_Z MAP_WIDTH - (1 # 2))%Q
    /\ (exists g, ghosts (game w') = [g]
          /\ (pos_x (Ghost.pos g) == inject_Z MAP_WIDTH - (1 # 2))%Q
          /\ ~ (pos_x (Ghost.pos g) == - (1 # 2))%Q).
Proof.
  eexists. split; [vm_compute; reflexivity|].
  split; [reflexivity|]. split; [discriminate|].
  eexists. split; [reflexivity|]. split; [reflexivity | discriminate].
Qed.

(** C3, amended.  The tunnel logic moves a horizontal position below -0.5
    to W - 0.5 and one above W - 0.5 to -0.5, and leaves a position from
    -0.5 to W - 0.5, both ends included, unchanged; the vertical position
    is untouched; the player and the adversaries are treated alike. *)
Theorem tunnel_wraparound (pac : Pacman.t) (ghost : GhostEntity) (x : Q) :
  pos_x (Pacman.pos pac) = x ->
  pos_x (Ghost.pos ghost) = x ->
  pos_x (Pacman.pos (pacmanTunnel pac)) = pos_x (Ghost.pos (ghostTunnel ghost))
  /\ pos_y (Pacman.pos (pacmanTunnel pac)) = pos_y (Pacman.pos pac)
  /\ pos_y (Ghost.pos (ghostTunnel ghost)) = pos_y (Ghost.pos ghost)
  /\ ((x < - (1 # 2))%Q ->
      pos_x (Pacman.pos (pacmanTunnel pac)) = (inject_Z MAP_WIDTH - (1 # 2))%Q)
  /\ ((inject_Z MAP_WIDTH - (1 # 2) < x)%Q ->
      pos_x (Pacman.pos (pacmanTunnel pac)) = (- (1 # 2))%Q)
  /\ ((- (1 # 2) <= x)%Q -> (x <= inject_Z MAP_WIDTH - (1 # 2))%Q ->
      pos_x (Pacman.pos (pacmanTunnel pac)) = x).
Proof.
  intros Hp Hg. unfold pacmanTunnel, ghostTunnel.
  cbn [Pacman.pos Pacman.set_pos Ghost.pos Ghost.set_pos pos_x pos_y].
  rewrite Hp, Hg.
  destruct (tunnel_spec x) as (Hlow & Hhigh & Hmid). repeat split; auto.
Qed.

Lemma tunnel_wraparound_witness :
  pos_x (Pacman.pos (pacmanTunnel (Pacman.mk (mkPosition (- (3 # 5)) 8) LEFT LEFT 0)))
  = (inject_Z MAP_WIDTH - (1 # 2))%Q.
Proof.
  apply (tunnel_wraparound
           (Pacman.mk (mkPosition (- (3 # 5)) 8) LEFT LEFT 0)
           (Ghost.set_pos (mkPosition (- (3 # 5)) 8) houseGhost)
           (- (3 # 5))%Q eq_refl eq_refl).
  reflexivity.
Defined.

(** ** Pause phases (C8) *)



(** ** Reading, writing and counting tiles *)

Lemma lookupZ_inv {A : Type} (l : list A) (i : Z) (a : A) :
  lookupZ l i = Some a -> 0 <= i /\ l !! Z.to_nat i = Some a.
Proof. unfold lookupZ. destruct (Z.ltb_spec i 0); [discriminate|]. auto. Qed.

Lemma lookupZ_insert {A : Type} (l : list A) (i j : Z) (a : A) :
  0 <= i -> (Z.to_nat i < length l)%nat ->
  lookupZ (<[Z.to_nat i := a]> l) j = if i =? j then Some a else lookupZ l j.
Proof.
  intros Hi Hlen. unfold lookupZ.
  destruct (Z.eqb_spec i j) as [<-|Hne].
  - destruct (Z.ltb_spec i 0); [lia|]. by apply list_lookup_insert_eq.
  - destruct (Z.ltb_spec j 0); [done|]. apply list_lookup_insert_ne. lia.
Qed.

Lemma readTile_inv (grid : Grid) (y x : Z) (t : option Z) :
  readTile grid y x = Some t ->
  exists row, lookupZ grid y = Some row /\ lookupZ row x = t.
Proof.
  unfold readTile. destruct (lookupZ grid y) as [row|]; simpl; [|discriminate].
  intros [= <-]. eauto.
Qed.

Lemma writeTile_length (grid : Grid) (y x code : Z) :
  length (writeTile grid y x code) = length grid.
Proof. unfold writeTile. destruct (lookupZ grid y); [apply length_insert | done]. Qed.

Lemma readTile_writeTile (grid : Grid) (y x code : Z) (old : Z) (y' x' : Z) :
  readTile grid y x = Some (Some old) ->
  readTile (writeTile grid y x code) y' x'
  = if (y =? y') && (x =? x') then Some (Some code) else readTile grid y' x'.
Proof.
  intros (row & Hrow & Hcell)%readTile_inv.
  unfold writeTile. rewrite Hrow.
  apply lookupZ_inv in Hrow as Hrow'. destruct Hrow' as [Hy Hrow'].
  apply lookupZ_inv in Hcell as Hcell'. destruct Hcell' as [Hx Hcell'].
  apply lookup_lt_Some in Hrow' as Hylen. apply lookup_lt_Some in Hcell' as Hxlen.
  unfold readTile. rewrite lookupZ_insert by done.
  destruct (Z.eqb_spec y y') as [<-|Hne]; cbn [mbind option_bind andb].
  - rewrite lookupZ_insert by done. rewrite Hrow. cbn [mbind option_bind].
    by destruct (x =? x').
  - reflexivity.
Qed.

Lemma countRow_insert (p : Z -> bool) (row : list Z) (i : nat) (old new : Z) :
  row !! i = Some old ->
  countRow p (<[i := new]> row) = countRow p row - b2z (p old) + b2z (p new).
Proof.
  revert i. induction row as [|c row IH]; intros [|i]; simpl; try discriminate.
  - intros [= ->]. unfold b2z. lia.
  - intros H. rewrite (IH i H). lia.
Qed.

Lemma countGrid_insert (p : Z -> bool) (grid : Grid) (j : nat) (row row' : list Z) :
  grid !! j = Some row ->
  countGrid p (<[j := row']> grid) = countGrid p grid - countRow p row + countRow p row'.
Proof.
  revert j. induction grid as [|r grid IH]; intros [|j]; simpl; try discriminate.
  - intros [= ->]. lia.
  - intros H. rewrite (IH j H). lia.
Qed.

Lemma countGrid_writeTile (p : Z -> bool) (grid : Grid) (y x old new : Z) :
  readTile grid y x = Some (Some old) ->
  countGrid p (writeTile grid y x new) = countGrid p grid - b2z (p old) + b2z (p new).
Proof.
  intros (row & Hrow & Hcell)%readTile_inv.
  unfold writeTile. rewrite Hrow.
  apply lookupZ_inv in Hrow as [_ Hrow]. apply lookupZ_inv in Hcell as [_ Hcell].
  rewrite (countGrid_insert p grid _ row _ Hrow).
  rewrite (countRow_insert p row _ old new Hcell). lia.
Qed.

Lemma tileIs_eq (t : option Z) (code : Z) : tileIs t code = true <-> t = Some code.
Proof.
  unfold tileIs. destruct t as [c|]; [|intuition congruence].
  destruct (Z.eqb_spec c code); intuition congruence.
Qed.

(** The scan of [initRound] counts the pellets of the grid it is given. *)
Lemma scanRow_count (y : nat) (row : list Z) :
  forall x acc, fst (scanRow y x row acc) = fst acc + countRow isPelletTile row.
Proof.
  induction row as [|c row IH]; intros x acc; simpl; [lia|].
  rewrite IH. destruct acc as [n locs]. unfold scanCell, isPelletTile.
  destruct (_ || _); simpl; lia.
Qed.

Lemma scanRows_count (rows : Grid) :
  forall y acc, fst (scanRows y rows acc) = fst acc + countGrid isPelletTile rows.
Proof.
  induction rows as [|row rows IH]; intros y acc; simpl; [lia|].
  rewrite IH, scanRow_count. lia.
Qed.

Lemma scanGrid_count (grid : Grid) : fst (scanGrid grid) = countPellets grid.
Proof. unfold scanGrid. rewrite scanRows_count. reflexivity. Qed.

(** ** The respawn of power pellets *)

Lemma validLocs_writeTile grid locs y x code :
  validLocs grid locs -> validLocs (writeTile grid y x code) locs.
Proof. unfold validLocs. by rewrite writeTile_length. Qed.

Lemma respawnPellets_total locs :
  forall grid n, validLocs grid locs -> is_Some (respawnPellets locs grid n).
Proof.
  induction locs as [|p locs IH]; intros grid n Hv; simpl; [eauto|].
  apply Forall_cons in Hv as [Hp Hv].
  destruct (readTile_total grid (tile_y p) (tile_x p) Hp) as [t ->].
  cbn [mbind option_bind].
  destruct (tileIs t TileType.EMPTY); apply IH; [|done].
  by apply validLocs_writeTile.
Qed.

Lemma respawnPellets_count (p : Z -> bool) locs :
  forall grid n grid' n',
    respawnPellets locs grid n = Some (grid', n') ->
    n <= n'
    /\ length grid' = length grid
    /\ countGrid p grid'
       = countGrid p grid
         + (n' - n) * (b2z (p TileType.POWER_PELLET) - b2z (p TileType.EMPTY)).
Proof.
  induction locs as [|q locs IH]; intros grid n grid' n'; simpl.
  - intros [= <- <-]. repeat split; lia.
  - destruct (readTile grid (tile_y q) (tile_x q)) as [t|] eqn:Hread;
      cbn [mbind option_bind]; [|discriminate].
    destruct (tileIs t TileType.EMPTY) eqn:Ht; intros H; apply IH in H.
    + apply tileIs_eq in Ht. subst t.
      destruct H as (Hle & Hlen & Hcount).
      rewrite writeTile_length in Hlen.
      rewrite (countGrid_writeTile p grid _ _ _ TileType.POWER_PELLET Hread) in Hcount.
      repeat split; [lia | done | lia].
    + done.
Qed.

Lemma tileIndex_eq_dec (a b : TileIndex) : {a = b} + {a <> b}.
Proof.
  destruct a as [ax ay], b as [bx by_].
  destruct (Z.eq_dec ax bx) as [->|]; [|right; congruence].
  destruct (Z.eq_dec ay by_) as [->|]; [left; reflexivity | right; congruence].
Qed.

Lemma respawnPellets_tiles locs :
  forall grid n grid' n',
    respawnPellets locs grid n = Some (grid', n') ->
    forall y x,
      (restoredAt locs grid y x ->
       readTile grid' y x = Some (Some TileType.POWER_PELLET))
      /\ (~ restoredAt locs grid y x -> readTile grid' y x = readTile grid y x).
Proof.
  unfold restoredAt.
  induction locs as [|q locs IH]; intros grid n grid' n'; simpl.
  - intros [= <- <-] y x. split; [|done]. intros [Hin _]. by apply elem_of_nil in Hin.
  - destruct (readTile grid (tile_y q) (tile_x q)) as [t|] eqn:Hread;
      cbn [mbind option_bind]; [|discriminate].
    destruct (tileIs t TileType.EMPTY) eqn:Ht; intros H y x;
      destruct (IH _ _ _ _ H y x) as [IHa IHb]; clear IH.
    + apply tileIs_eq in Ht. subst t.
      pose proof (readTile_writeTile grid _ _ TileType.POWER_PELLET _ y x Hread) as Hrw.
      destruct (tileIndex_eq_dec (mkTileIndex x y) q) as [<-|Hne]; simpl in *.
      * rewrite !Z.eqb_refl in Hrw. simpl in Hrw. split.
        -- intros _. rewrite IHb; [done|]. rewrite Hrw. intros [_ [=]].
        -- intros Hn. exfalso. apply Hn. split; [apply list_elem_of_here | done].
      * assert ((tile_y q =? y) && (tile_x q =? x) = false) as Hf.
        { apply andb_false_iff.
          destruct (Z.eqb_spec (tile_y q) y), (Z.eqb_spec (tile_x q) x); auto.
          exfalso. apply Hne. destruct q; simpl in *; congruence. }
        rewrite Hf in Hrw. rewrite Hrw in IHa, IHb. split.
        -- intros [Hin Hr]. apply IHa. split; [|done].
           apply elem_of_cons in Hin as [Heq|Hin]; [congruence | done].
        -- intros Hn. apply IHb. intros [Hin Hr]. apply Hn.
           split; [by apply list_elem_of_further | done].
    + split.
      * intros [Hin Hr]. apply IHa. split; [|done].
        apply elem_of_cons in Hin as [Heq|Hin]; [|done].
        subst q. simpl in Hread. rewrite Hr in Hread.
        injection Hread as <-. discriminate.
      * intros Hn. apply IHb. intros [Hin Hr]. apply Hn.
        split; [by apply list_elem_of_further | done].
Qed.

Lemma respawnLogic_spec (state : GameStateRef) :
  validLocs (grid state) (powerPelletLocations state) ->
  exists state',
    respawnLogic state = Some state'
    /\ onlyPelletsChanged state state'
    /\ (currentPowerPellets state = 0 -> ghostsAlive (ghosts state) = true ->
        exists n,
          respawnPellets (powerPelletLocations state) (grid state) 0
            = Some (grid state', n)
          /\ currentPowerPellets state' = currentPowerPellets state + n
          /\ pelletsRemaining state' = pelletsRemaining state + n)
    /\ (currentPowerPellets state <> 0 \/ ghostsAlive (ghosts state) = false ->
        state' = state).
Proof.
  intros Hv. unfold respawnLogic.
  destruct (Z.eqb_spec (currentPowerPellets state) 0) as [Hz|Hnz].
  - destruct (ghostsAlive (ghosts state)) eqn:Halive.
    + destruct (respawnPellets_total _ _ 0 Hv) as [[newGrid n] Hres].
      rewrite Hres. cbn [mbind option_bind].
      pose proof (respawnPellets_count isPowerTile _ _ _ _ _ Hres) as (Hn & _ & _).
      destruct (Z.ltb_spec 0 n).
      * eexists. split; [reflexivity|]. split; [by destruct state|].
        split; [|intros [?|?]; congruence].
        intros _ _. exists n. cbn. rewrite Hz. repeat split; first [done | lia].
      * assert (n = 0) as -> by lia.
        eexists. split; [reflexivity|]. split; [by destruct state|].
        split; [|intros [?|?]; congruence].
        intros _ _. exists 0. cbn. repeat split; first [done | lia].
    + exists state. split; [done|]. split; [by destruct state|].
      split; [congruence | done].
  - exists state. split; [done|]. split; [by destruct state|].
    split; [congruence | done].
Qed.

Lemma ghostsAlive_frighten (gs : list GhostEntity) :
  ghostsAlive (frighten <$> gs) = ghostsAlive gs.
Proof.
  unfold ghostsAlive. induction gs as [|g gs IH]; simpl; [done|].
  f_equal; [|exact IH]. unfold frighten.
  destruct g as [? ? ? ? ? []]; reflexivity.
Qed.

Lemma tileUnderPlayer_inv state pY pX :
  tileUnderPlayer state = Some (pY, pX) ->
  pY = jsRound (pos_y (Pacman.pos (pacman state)))
  /\ pX = jsRound (pos_x (Pacman.pos (pacman state)))
  /\ 0 <= pY < MAP_HEIGHT /\ 0 <= pX < MAP_WIDTH.
Proof.
  unfold tileUnderPlayer.
  destruct (Z.leb_spec 0 (jsRound (pos_y (Pacman.pos (pacman state)))));
    [|discriminate].
  destruct (Z.ltb_spec (jsRound (pos_y (Pacman.pos (pacman state)))) MAP_HEIGHT);
    [|discriminate].
  destruct (Z.leb_spec 0 (jsRound (pos_x (Pacman.pos (pacman state)))));
    [|discriminate].
  destruct (Z.ltb_spec (jsRound (pos_x (Pacman.pos (pacman state)))) MAP_WIDTH);
    [|discriminate].
  intros [= <- <-]. repeat split; lia.
Qed.

(** [eatPellets] by cases on the tile under the player. *)
Lemma eatPellets_cases (time : Q) (state : GameStateRef) :
  eatPellets time state =
  match tileUnderPlayer state with
  | None => Some state
  | Some (pY, pX) =>
      item ← readTile (grid state) pY pX;
      if tileIs item TileType.PELLET then Some (consumePellet pY pX state)
      else if tileIs item TileType.POWER_PELLET then
        respawnLogic (consumePowerPellet time pY pX state)
      else Some state
  end.
Proof.
  unfold eatPellets, tileUnderPlayer.
  by destruct (_ && _).
Qed.

Lemma eatPellets_power (time : Q) (state : GameStateRef) (pY pX : Z) :
  tileUnderPlayer state = Some (pY, pX) ->
  readTile (grid state) pY pX = Some (Some TileType.POWER_PELLET) ->
  eatPellets time state = respawnLogic (consumePowerPellet time pY pX state).
Proof. intros Hu Hr. rewrite eatPellets_cases, Hu, Hr. reflexivity. Qed.

Lemma eatPellets_total (time : Q) (state : GameStateRef) :
  tallEnough (grid state) ->
  validLocs (grid state) (powerPelletLocations state) ->
  is_Some (eatPellets time state).
Proof.
  intros Htall Hv. rewrite eatPellets_cases.
  destruct (tileUnderPlayer state) as [[pY pX]|] eqn:Hu; [|eauto].
  apply tileUnderPlayer_inv in Hu as (_ & _ & HpY & _).
  unfold tallEnough in Htall.
  destruct (readTile_total (grid state) pY pX) as [item ->]; [lia|].
  cbn [mbind option_bind].
  destruct (tileIs item TileType.PELLET); [eauto|].
  destruct (tileIs item TileType.POWER_PELLET); [|eauto].
  destruct (respawnLogic_spec (consumePowerPellet time pY pX state)) as (s' & -> & _).
  - cbn. by apply validLocs_writeTile.
  - eauto.
Qed.

Lemma writeEmpty_no_power (grid : Grid) (pY pX old y x : Z) :
  readTile grid pY pX = Some (Some old) ->
  readTile (writeTile grid pY pX TileType.EMPTY) y x
    = Some (Some TileType.POWER_PELLET) ->
  readTile grid y x = Some (Some TileType.POWER_PELLET).
Proof.
  intros Hold. rewrite (readTile_writeTile _ _ _ _ _ y x Hold).
  destruct (_ && _); [discriminate | done].
Qed.

(** ** Power-pellet respawn (C9) *)

(** C9.  [eatPellets] always returns.  When the player consumes the last
    live power pellet while some adversary is not EATEN, the recorded
    locations that are EMPTY at that moment (the tile just consumed
    included) become POWER_PELLET again and no other tile changes; with
    [n] the number of tiles restored, the live power-pellet count goes from
    zero to [n] and the pellets-remaining counter grows by [n].  No tile
    becomes a power pellet in any other circumstance; in particular none
    does when every adversary is EATEN. *)
Theorem power_pellet_respawn (time : Q) (state : GameStateRef) :
  tallEnough (grid state) ->
  validLocs (grid state) (powerPelletLocations state) ->
  exists state',
    eatPellets time state = Some state'
    /\ (forall pY pX,
          tileUnderPlayer state = Some (pY, pX) ->
          readTile (grid state) pY pX = Some (Some TileType.POWER_PELLET) ->
          currentPowerPellets state = 1 ->
          ghostsAlive (ghosts state) = true ->
          exists n,
            0 <= n
            /\ (forall y x,
                  (restoredAt (powerPelletLocations state)
                     (writeTile (grid state) pY pX TileType.EMPTY) y x ->
                   readTile (grid state') y x = Some (Some TileType.POWER_PELLET))
                  /\ (~ restoredAt (powerPelletLocations state)
                          (writeTile (grid state) pY pX TileType.EMPTY) y x ->
                      readTile (grid state') y x
                      = readTile (writeTile (grid state) pY pX TileType.EMPTY) y x))
            /\ countPower (grid state')
               = countPower (writeTile (grid state) pY pX TileType.EMPTY) + n
            /\ currentPowerPellets state' = (currentPowerPellets state - 1) + n
            /\ pelletsRemaining state' = (pelletsRemaining state - 1) + n)
    /\ (forall y x,
          readTile (grid state') y x = Some (Some TileType.POWER_PELLET) ->
          readTile (grid state) y x <> Some (Some TileType.POWER_PELLET) ->
          exists pY pX,
            tileUnderPlayer state = Some (pY, pX)
            /\ readTile (grid state) pY pX = Some (Some TileType.POWER_PELLET)
            /\ currentPowerPellets state - 1 = 0
            /\ ghostsAlive (ghosts state) = true)
    /\ (ghostsAlive (ghosts state) = false ->
        (forall y x,
           readTile (grid state') y x = Some (Some TileType.POWER_PELLET) ->
           readTile (grid state) y x = Some (Some TileType.POWER_PELLET))
        /\ currentPowerPellets state' <= currentPowerPellets state
        /\ pelletsRemaining state' <= pelletsRemaining state).
Proof.
  intros Htall Hv. rewrite eatPellets_cases.
  destruct (tileUnderPlayer state) as [[pY pX]|] eqn:Hu.
  2:{ exists state. split; [done|]. split; [discriminate|].
      split; [congruence|]. intros _. repeat split; [done | lia | lia]. }
  apply tileUnderPlayer_inv in Hu as Hb. destruct Hb as (_ & _ & HpY & _).
  unfold tallEnough in Htall.
  destruct (readTile_total (grid state) pY pX) as [item Hitem]; [lia|].
  rewrite Hitem. cbn [mbind option_bind].
  destruct (tileIs item TileType.PELLET) eqn:Hpellet.
  { apply tileIs_eq in Hpellet. subst item.
    eexists. split; [reflexivity|]. cbn.
    split; [intros ? ? [= <- <-] Hr; rewrite Hr in Hitem; discriminate|].
    split.
    - intros y x Hnew Hold. apply (writeEmpty_no_power _ _ _ _ _ _ Hitem) in Hnew. done.
    - intros _. repeat split; [|lia|lia].
      intros y x. apply (writeEmpty_no_power _ _ _ _ _ _ Hitem). }
  destruct (tileIs item TileType.POWER_PELLET) eqn:Hpower.
  2:{ exists state. split; [done|].
      split.
      - intros ? ? [= <- <-] Hr. rewrite Hr in Hitem. injection Hitem as <-. discriminate.
      - split; [congruence|]. intros _. repeat split; [done | lia | lia]. }
  apply tileIs_eq in Hpower. subst item. clear Hpellet.
  destruct (respawnLogic_spec (consumePowerPellet time pY pX state))
    as (state' & Hres & Hframe & Hyes & Hno).
  { cbn. by apply validLocs_writeTile. }
  exists state'. split; [done|].
  cbn [consumePowerPellet grid set_ghosts set_ghostsEatenStreak set_vulnerableUntil
       set_currentPowerPellets set_pelletsRemaining set_grid set_score
       currentPowerPellets pelletsRemaining ghosts powerPelletLocations]
    in Hyes, Hno.
  rewrite ghostsAlive_frighten in Hyes, Hno.
  split; [|split].
  - intros ? ? [= <- <-] _ Hone Halive.
    destruct Hyes as (n & Hresp & Hc & Hp); [lia | done |].
    exists n.
    pose proof (respawnPellets_count isPowerTile _ _ _ _ _ Hresp) as (Hn & _ & Hcount).
    split; [lia|]. split; [apply (respawnPellets_tiles _ _ _ _ _ Hresp)|].
    split; [|split; [exact Hc | exact Hp]].
    unfold countPower. rewrite Hcount. cbn. lia.
  - intros y x Hnew Hold.
    destruct (Z.eq_dec (currentPowerPellets state - 1) 0) as [Hz|Hnz];
      [destruct (ghostsAlive (ghosts state)) eqn:Halive|].
    + exists pY, pX. done.
    + rewrite Hno in Hnew by (by right). cbn in Hnew.
      apply (writeEmpty_no_power _ _ _ _ _ _ Hitem) in Hnew. done.
    + rewrite Hno in Hnew by (by left). cbn in Hnew.
      apply (writeEmpty_no_power _ _ _ _ _ _ Hitem) in Hnew. done.
  - intros Hdead. rewrite Hno by (by right). cbn.
    repeat split; [|lia|lia].
    intros y x. apply (writeEmpty_no_power _ _ _ _ _ _ Hitem).
Qed.

Lemma power_pellet_respawn_witness :
  exists state' n,
    eatPellets 0 lastPowerState = Some state'
    /\ 0 <= n
    /\ currentPowerPellets state' = (1 - 1) + n
    /\ pelletsRemaining state' = (124 - 1) + n.
Proof.
  destruct (power_pellet_respawn 0 lastPowerState) as (state' & Heat & Hyes & _).
  - unfold tallEnough. vm_compute. discriminate.
  - unfold validLocs. vm_compute. repeat constructor; discriminate.
  - destruct (Hyes 1 1) as (n & Hn & _ & _ & Hc & Hp); try reflexivity.
    exists state', n. auto.
Defined.

(** ** Losing the last life (C7) *)

Lemma initRound_first (keepScore : bool) (w : World) :
  exists w',
    initRound 1 keepScore w = Some w'
    /\ round (game w') = 1
    /\ status (game w') = ROUND_STARTING
    /\ lives (game w') = lives (game w)
    /\ score (game w') = (if keepScore then score (game w) else 0)
    /\ events w' = events w
    /\ levelTimers w' = levelTimers w.
Proof.
  unfold initRound.
  change (ROUND_CONFIGS 1) with (Some (mkConfig (130 # 1) "EASY" 3)).
  cbn [mbind option_bind]. destruct (scanGrid INITIAL_MAP).
  eexists. split; [reflexivity|].
  cbn [game round status lives score events levelTimers]. repeat split.
Qed.

(** One run of the death handler on the last life ([lives] at most 1
    before it).  The status is set to LEVEL_TRANSITION.  In round 1
    [saveScore] is called with the current score; if the call returns,
    [onGameOver] follows and nothing else changes in the game state, the
    lives apart; if it raises, so does the handler.  In a later round the
    lives become 3 and [initRound(1, true)] runs on that state: the game is
    back in round 1, in ROUND_STARTING, with the score unchanged and
    nothing persisted. *)
Lemma last_life_lost (teamName : string) (saveReturns : nat -> bool) (w : World) :
  lives (game w) <= 1 ->
  (round (game w) = 1 ->
   (saveReturns (saveCalls (events w)) = false ->
    handleDeath teamName saveReturns w = None)
   /\ (saveReturns (saveCalls (events w)) = true ->
       exists w',
         handleDeath teamName saveReturns w = Some w'
         /\ game w'
            = set_status LEVEL_TRANSITION (set_lives (lives (game w) - 1) (game w))
         /\ status (game w') = LEVEL_TRANSITION
         /\ events w'
            = events w
              ++ [SaveScore teamName (score (game w)); OnGameOver (score (game w))]
         /\ score (game w') = score (game w)
         /\ round (game w') = 1))
  /\ (1 < round (game w) ->
      exists w',
        handleDeath teamName saveReturns w = Some w'
        /\ initRound 1 true
             (upd (set_lives 3)
                (upd (set_status LEVEL_TRANSITION)
                   (upd (fun s => set_lives (lives s - 1) s) w)))
           = Some w'
        /\ lives (game w') = 3
        /\ round (game w') = 1
        /\ status (game w') = ROUND_STARTING
        /\ score (game w') = score (game w)
        /\ events w' = events w).
Proof.
  intros Hlives. unfold handleDeath.
  cbn [upd game lives set_lives].
  destruct (Z.leb_spec (lives (game w) - 1) 0) as [_|]; [|lia].
  unfold handleDemotionOrGameOver.
  cbn [upd game round score set_status set_lives events].
  split; intros Hround.
  - rewrite Hround. cbn [Z.eqb Pos.eqb].
    split; intros Hsave; rewrite Hsave; [reflexivity|].
    eexists. split; [reflexivity|]. cbn. auto 10.
  - destruct (Z.eqb_spec (round (game w)) 1); [lia|].
    destruct (initRound_first true
                (upd (set_lives 3)
                   (upd (set_status LEVEL_TRANSITION)
                      (upd (fun s => set_lives (lives s - 1) s) w))))
      as (w' & Hinit & Hr & Hst & Hl & Hsc & Hev & _).
    exists w'. cbn [upd game events lives score set_lives set_status] in *.
    rewrite Hinit. auto 10.
Qed.

Lemma last_life_lost_witness :
  exists w',
    handleDeath "TEAM" alwaysSaved lastLifeWorld = Some w'
    /\ status (game w') = LEVEL_TRANSITION
    /\ events w' = [SaveScore "TEAM" 10; OnGameOver 10].
Proof.
  destruct (last_life_lost "TEAM" alwaysSaved lastLifeWorld) as [Hfirst _].
  - vm_compute. discriminate.
  - destruct Hfirst as [_ Hsaved]; [reflexivity|].
    destruct Hsaved as (w' & H & _ & Hst & Hev & _); [reflexivity|].
    exists w'. auto.
Defined.

(** C7, the code at the failing input.  The collision pass goes on after
    a death.  With two NORMAL adversaries on the player in the same tick
    of round 1 and one life left, the handler runs for each of them: the
    final score is persisted twice and [onGameOver] is called twice. *)
Remark two_killers_in_one_tick :
  exists w',
    update "TEAM" alwaysSaved oneThird 0 lastLifeWorld = Some w'
    /\ events w'
       = [SaveScore "TEAM" 20; OnGameOver 20; SaveScore "TEAM" 20; OnGameOver 20]
    /\ lives (game w') = -1.
Proof. eexists. split; [vm_compute; reflexivity|]. split; reflexivity. Qed.

(** ** Vulnerability and the capture streak (C4, C5) *)

Lemma respawnLogic_keeps (state state' : GameStateRef) :
  respawnLogic state = Some state' ->
  ghosts state' = ghosts state
  /\ vulnerableUntil state' = vulnerableUntil state
  /\ ghostsEatenStreak state' = ghostsEatenStreak state
  /\ score state' = score state.
Proof.
  unfold respawnLogic.
  destruct (_ =? 0); [|by intros [= <-]].
  destruct (ghostsAlive _); [|by intros [= <-]].
  destruct (respawnPellets _ _ _) as [[newGrid n]|]; [|discriminate].
  cbn [mbind option_bind]. destruct (0 <? n); by intros [= <-].
Qed.

Lemma frighten_spec (g : GhostEntity) :
  (Ghost.status g <> EATEN -> frighten g = Ghost.set_status VULNERABLE g)
  /\ (Ghost.status g = EATEN -> frighten g = g).
Proof. unfold frighten. destruct (Ghost.status g); split; simpl; congruence. Qed.

Lemma calm_spec (g : GhostEntity) :
  (Ghost.status g = VULNERABLE -> calm g = Ghost.set_status NORMAL g)
  /\ (Ghost.status g <> VULNERABLE -> calm g = g).
Proof. unfold calm. destruct (Ghost.status g); split; simpl; congruence. Qed.

(** C4.  The two transitions of [update].  Consuming a power pellet
    ([eatPellets] at the tick's time [time]) sets the threshold to
    [time + VULNERABLE_DURATION_MS] and makes every adversary that is not
    EATEN VULNERABLE, all in that step.  Once the threshold is positive
    and [time] is past it, [expireVulnerability] clears the threshold,
    resets the streak to 0 and makes every VULNERABLE adversary NORMAL.
    An EATEN adversary is left as it is by both; nothing but the status
    of an adversary changes. *)
Theorem vulnerability_synchronised (time : Q) (state : GameStateRef) :
  (forall pY pX,
     tileUnderPlayer state = Some (pY, pX) ->
     readTile (grid state) pY pX = Some (Some TileType.POWER_PELLET) ->
     validLocs (grid state) (powerPelletLocations state) ->
     exists state',
       eatPellets time state = Some state'
       /\ vulnerableUntil state' = (time + VULNERABLE_DURATION_MS)%Q
       /\ length (ghosts state') = length (ghosts state)
       /\ forall i g,
            ghosts state !! i = Some g ->
            exists g',
              ghosts state' !! i = Some g'
              /\ (Ghost.status g <> EATEN -> g' = Ghost.set_status VULNERABLE g)
              /\ (Ghost.status g = EATEN -> g' = g))
  /\ ((0 < vulnerableUntil state)%Q -> (vulnerableUntil state < time)%Q ->
      vulnerableUntil (expireVulnerability time state) = 0%Q
      /\ ghostsEatenStreak (expireVulnerability time state) = 0
      /\ length (ghosts (expireVulnerability time state)) = length (ghosts state)
      /\ forall i g,
           ghosts state !! i = Some g ->
           exists g',
             ghosts (expireVulnerability time state) !! i = Some g'
             /\ (Ghost.status g = VULNERABLE -> g' = Ghost.set_status NORMAL g)
             /\ (Ghost.status g <> VULNERABLE -> g' = g)).
Proof.
  split.
  - intros pY pX Hu Hr Hv. rewrite (eatPellets_power _ _ _ _ Hu Hr).
    destruct (respawnLogic_spec (consumePowerPellet time pY pX state))
      as (state' & Hres & _).
    { cbn. by apply validLocs_writeTile. }
    exists state'. split; [done|].
    apply respawnLogic_keeps in Hres as (Hg & Hvu & _).
    rewrite Hg, Hvu. cbn. split; [done|]. split; [apply length_fmap|].
    intros i g Hi. exists (frighten g).
    rewrite list_lookup_fmap, Hi. split; [done|]. apply frighten_spec.
  - intros H0 H1. unfold expireVulnerability.
    apply Qltb_lt in H0, H1. rewrite H0, H1. cbn.
    split; [done|]. split; [done|]. split; [apply length_fmap|].
    intros i g Hi. exists (calm g).
    rewrite list_lookup_fmap, Hi. split; [done|]. apply calm_spec.
Qed.

Lemma vulnerability_synchronised_witness :
  exists state',
    eatPellets 0 lastPowerState = Some state'
    /\ vulnerableUntil state' = (0 + VULNERABLE_DURATION_MS)%Q
    /\ Ghost.status <$> ghosts state' = [VULNERABLE; VULNERABLE; VULNERABLE].
Proof.
  destruct (vulnerability_synchronised 0 lastPowerState) as [Hfrighten _].
  destruct (Hfrighten 1 1) as (state' & Heat & Hvu & Hlen & Hgs).
  - reflexivity.
  - reflexivity.
  - unfold validLocs. vm_compute. repeat constructor; discriminate.
  - exists state'. split; [exact Heat|]. split; [exact Hvu|].
    change (length (ghosts lastPowerState)) with 3%nat in Hlen.
    destruct (ghosts state') as [|a0 [|a1 [|a2 [|a3 rest]]]] eqn:Hgs';
      try discriminate Hlen.
    destruct (Hgs 0%nat _ eq_refl) as (x0 & E0 & V0 & _).
    destruct (Hgs 1%nat _ eq_refl) as (x1 & E1 & V1 & _).
    destruct (Hgs 2%nat _ eq_refl) as (x2 & E2 & V2 & _).
    assert (a0 = x0) as -> by (cbv in E0; congruence).
    assert (a1 = x1) as -> by (cbv in E1; congruence).
    assert (a2 = x2) as -> by (cbv in E2; congruence).
    rewrite V0, V1, V2 by discriminate. reflexivity.
Defined.

(** C5.  In the collision pass, the capture of a VULNERABLE adversary when
    [n - 1] captures were counted in the current window ([n] at least 1,
    without upper limit) makes the adversary EATEN, raises the streak to
    [n] and adds exactly [200 * 2 ^ (n - 1)] to the score, the value also
    shown in the popup.  The streak is 0 after the consumption of a power
    pellet and after the expiry of the vulnerability timer. *)
Theorem capture_streak_award (teamName : string) (saveReturns : nat -> bool)
    (random : nat -> Q) (time : Q)
    (arrRef i : nat) (w : World) (arr : list GhostEntity) (ghost : GhostEntity)
    (n : Z) :
  1 <= n ->
  ghostsEatenStreak (game w) = n - 1 ->
  (if (ghostsRef w =? arrRef)%nat then ghosts (game w) else arr) !! i = Some ghost ->
  Ghost.status ghost = VULNERABLE ->
  collides ghost (pacman (game w)) = true ->
  (exists w' arr',
      collideGhost teamName saveReturns random time arrRef i (w, arr) = Some (w', arr')
      /\ score (game w') = score (game w) + 200 * 2 ^ (n - 1)
      /\ ghostsEatenStreak (game w') = n
      /\ arr' !! i = Some (Ghost.set_status EATEN ghost)
      /\ (exists popup, last (popups (game w')) = Some popup
                        /\ popup_score popup = 200 * 2 ^ (n - 1)))
  /\ (forall t state pY pX,
        tileUnderPlayer state = Some (pY, pX) ->
        readTile (grid state) pY pX = Some (Some TileType.POWER_PELLET) ->
        validLocs (grid state) (powerPelletLocations state) ->
        exists state',
          eatPellets t state = Some state' /\ ghostsEatenStreak state' = 0)
  /\ (forall t state,
        (0 < vulnerableUntil state)%Q -> (vulnerableUntil state < t)%Q ->
        ghostsEatenStreak (expireVulnerability t state) = 0).
Proof.
  intros Hn Hstreak Hi Hvuln Hhit. split; [|split].
  - unfold collideGhost. rewrite Hi.
    rewrite Hvuln. cbn [GhostStatus_eqb]. rewrite Hhit.
    eexists _, _. split; [reflexivity|].
    unfold capture.
    destruct (ghostsRef w =? arrRef)%nat;
      cbn [upd game set_draws score set_score ghostsEatenStreak set_ghostsEatenStreak
           set_ghosts set_popups popups fst snd];
      rewrite Hstreak;
      replace (n - 1 + 1 - 1) with (n - 1) by lia;
      (split; [reflexivity|]); (split; [lia|]);
      (split; [apply list_lookup_insert_eq; by eapply lookup_lt_Some|]);
      eexists; rewrite last_snoc; split; reflexivity.
  - intros t state pY pX Hu Hr Hv. rewrite (eatPellets_power _ _ _ _ Hu Hr).
    destruct (respawnLogic_spec (consumePowerPellet t pY pX state))
      as (state' & Hres & _).
    { cbn. by apply validLocs_writeTile. }
    exists state'. split; [done|].
    apply respawnLogic_keeps in Hres as (_ & _ & -> & _). reflexivity.
  - intros t state H0 H1. unfold expireVulnerability.
    apply Qltb_lt in H0, H1. rewrite H0, H1. reflexivity.
Qed.

Lemma capture_streak_award_witness :
  exists w' arr',
    collideGhost "TEAM" alwaysSaved oneThird (1000 # 1) (ghostsRef thirdCaptureWorld) 1
      (thirdCaptureWorld, []) = Some (w', arr')
    /\ score (game w') = score (game thirdCaptureWorld) + 200 * 2 ^ (3 - 1)
    /\ ghostsEatenStreak (game w') = 3.
Proof.
  destruct (capture_streak_award "TEAM" alwaysSaved oneThird (1000 # 1)
              (ghostsRef thirdCaptureWorld) 1 thirdCaptureWorld []
              (Ghost.mk 2 (tilePos 4 4) "bg-pink-400" (tilePos 8 8) DOWN VULNERABLE) 3)
    as [(w' & arr' & H & Hscore & Hstreak & _) _].
  - lia.
  - reflexivity.
  - reflexivity.
  - reflexivity.
  - reflexivity.
  - exists w', arr'. auto.
Defined.

(** ** Frames of the phases of a tick *)

Lemma sameBoardS_refl (s : GameStateRef) : sameBoardS s s.
Proof. by repeat split. Qed.

Lemma sameBoardS_trans (s1 s2 s3 : GameStateRef) :
  sameBoardS s1 s2 -> sameBoardS s2 s3 -> sameBoardS s1 s3.
Proof. unfold sameBoardS. intros (?&?&?&?&?) (?&?&?&?&?). repeat split; congruence. Qed.

Lemma sameBoard_refl (w : World) : sameBoard w w.
Proof. split; [apply sameBoardS_refl | done]. Qed.

Lemma sameBoard_trans (w1 w2 w3 : World) :
  sameBoard w1 w2 -> sameBoard w2 w3 -> sameBoard w1 w3.
Proof.
  intros [H1 T1] [H2 T2]. split; [by eapply sameBoardS_trans | congruence].
Qed.

Lemma wellFormed_sameBoardS (s s' : GameStateRef) :
  wellFormed s -> sameBoardS s s' -> wellFormed s'.
Proof.
  unfold wellFormed, sameBoardS.
  intros (?&?&?&?&?) (Hg&Hp&Hl&Hr&Hn). rewrite Hg, Hp, Hl, Hr, Hn. auto.
Qed.

Lemma playable_sameBoard (n : nat) (w w' : World) :
  playable n w -> sameBoard w w' -> playable n w'.
Proof.
  intros (Hwf & Hnz & Ht) [Hs Hs']. split; [by eapply wellFormed_sameBoardS|].
  destruct Hs as (_ & -> & _). split; [done | congruence].
Qed.

(** [initRound] builds a well-formed state with all the pellets of the
    maze, for the three rounds that exist. *)
Lemma initRound_spec (roundNum : Z) (keepScore : bool) (w w' : World) :
  initRound roundNum keepScore w = Some w' ->
  wellFormed (game w')
  /\ pelletsRemaining (game w') = countPellets INITIAL_MAP
  /\ grid (game w') = INITIAL_MAP
  /\ levelTimers w' = levelTimers w
  /\ round (game w') = roundNum.
Proof.
  unfold initRound.
  destruct (ROUND_CONFIGS roundNum) as [config|] eqn:Hcfg;
    cbn [mbind option_bind]; [|discriminate].
  assert (Hround : 1 <= roundNum <= 3).
  { clear - Hcfg. unfold ROUND_CONFIGS in Hcfg.
    destruct (Z.eqb_spec roundNum 1); [lia|].
    destruct (Z.eqb_spec roundNum 2); [lia|].
    destruct (Z.eqb_spec roundNum 3); [lia|discriminate Hcfg]. }
  assert (Hlocs : validLocs INITIAL_MAP (snd (scanGrid INITIAL_MAP))).
  { unfold validLocs. vm_compute. repeat constructor; discriminate. }
  assert (Htall : tallEnough INITIAL_MAP).
  { unfold tallEnough. vm_compute. discriminate. }
  pose proof (scanGrid_count INITIAL_MAP) as Hcount.
  destruct (scanGrid INITIAL_MAP) as [pelletCount powerPelletLocs].
  cbn [fst snd] in Hcount, Hlocs.
  intros [= <-].
  cbn [game grid pelletsRemaining powerPelletLocations round ghosts levelTimers].
  split; [|by rewrite Hcount].
  unfold wellFormed.
  cbn [game grid pelletsRemaining powerPelletLocations round ghosts].
  split; [exact Hcount|]. split; [exact Htall|]. split; [exact Hlocs|].
  split; [exact Hround|].
  rewrite length_fmap, length_take. lia.
Qed.

Lemma initRound_total (roundNum : Z) (keepScore : bool) (w : World) :
  1 <= roundNum <= 3 -> is_Some (initRound roundNum keepScore w).
Proof.
  intros Hr. unfold initRound.
  assert (is_Some (ROUND_CONFIGS roundNum)) as [config ->].
  { unfold ROUND_CONFIGS.
    destruct (Z.eqb_spec roundNum 1); [eauto|].
    destruct (Z.eqb_spec roundNum 2); [eauto|].
    destruct (Z.eqb_spec roundNum 3); [eauto|lia]. }
  cbn [mbind option_bind]. destruct (scanGrid INITIAL_MAP). eauto.
Qed.

Lemma countPellets_initial : countPellets INITIAL_MAP = 127.
Proof. reflexivity. Qed.

(** *** The player *)

Lemma isValidMove_total (grid : Grid) (x y : Z) (dir : Direction) :
  tallEnough grid -> is_Some (isValidMove grid x y dir).
Proof.
  intros Htall. unfold isValidMove, tallEnough in *.
  destruct (Z.ltb_spec (y + move_y (DIRECTIONS dir)) 0); [simpl; eauto|].
  destruct (Z.leb_spec MAP_HEIGHT (y + move_y (DIRECTIONS dir))); [simpl; eauto|].
  cbn [orb].
  edestruct readTile_total as [t ->]; [|cbn [mbind option_bind]; eauto]. lia.
Qed.

Lemma atCenterStep_total (grid : Grid) (pac : Pacman.t) :
  tallEnough grid -> is_Some (atCenterStep grid pac).
Proof.
  intros Htall. unfold atCenterStep.
  destruct (_ && _); [|eauto].
  match goal with
  | |- is_Some ((if ?c then _ else _) ≫= _) => destruct c
  end.
  - edestruct isValidMove_total as [ok ->]; [done|]. cbn [mbind option_bind].
    edestruct isValidMove_total as [ok' ->]; [done|]. cbn [mbind option_bind]. eauto.
  - cbn [mbind option_bind].
    edestruct isValidMove_total as [ok' ->]; [done|]. cbn [mbind option_bind]. eauto.
Qed.

Lemma movePacman_total (fuel : nat) (grid : Grid) :
  tallEnough grid ->
  forall pac moveDist, is_Some (movePacman fuel grid pac moveDist).
Proof.
  intros Htall. induction fuel as [|fuel IH]; intros pac moveDist; simpl; [eauto|].
  destruct (negb (Qltb 0 moveDist)); [eauto|].
  destruct (atCenterStep_total grid pac Htall) as [[pac' goOn] ->].
  cbn [mbind option_bind].
  destruct (negb goOn); [eauto|].
  destruct (Direction_eqb (Pacman.dir pac') NONE); [eauto|].
  destruct (Qleb _ moveDist); [apply IH | eauto].
Qed.

Lemma pacmanPhase_total (moveDist : Q) (state : GameStateRef) :
  tallEnough (grid state) -> is_Some (pacmanPhase moveDist state).
Proof.
  intros Htall. unfold pacmanPhase.
  destruct (movePacman_total 5 (grid state) Htall (reverseNow (pacman state)) moveDist)
    as [pac ->].
  cbn [mbind option_bind]. eauto.
Qed.

Lemma pacmanPhase_frame (moveDist : Q) (state state' : GameStateRef) :
  pacmanPhase moveDist state = Some state' ->
  state' = set_pacman (pacman state') state.
Proof.
  unfold pacmanPhase. destruct (movePacman _ _ _ _); [|discriminate].
  cbn [mbind option_bind]. by intros [= <-].
Qed.

(** *** Pellets *)

Lemma eatPellets_wellFormed (time : Q) (state state' : GameStateRef) :
  wellFormed state ->
  eatPellets time state = Some state' ->
  wellFormed state'.
Proof.
  intros Hwf. pose proof Hwf as (Hcount & Htall & Hv & Hround & Hlen).
  rewrite eatPellets_cases.
  destruct (tileUnderPlayer state) as [[pY pX]|] eqn:Hu;
    [|intros [= <-]; exact Hwf].
  destruct (readTile (grid state) pY pX) as [item|] eqn:Hitem;
    cbn [mbind option_bind]; [|discriminate].
  destruct (tileIs item TileType.PELLET) eqn:Hpellet.
  { apply tileIs_eq in Hpellet. subst item. intros [= <-].
    unfold wellFormed, tallEnough, countPellets. cbn.
    rewrite (countGrid_writeTile _ _ _ _ _ TileType.EMPTY Hitem), writeTile_length.
    repeat split; try done; try lia.
    - rewrite Hcount. unfold countPellets. cbn. lia.
    - by apply validLocs_writeTile. }
  destruct (tileIs item TileType.POWER_PELLET) eqn:Hpower;
    [|intros [= <-]; exact Hwf].
  apply tileIs_eq in Hpower. subst item. intros Hres.
  destruct (respawnLogic_spec (consumePowerPellet time pY pX state))
    as (s' & Hres' & Hframe & Hyes & Hno).
  { cbn. by apply validLocs_writeTile. }
  rewrite Hres in Hres'. injection Hres' as <-.
  assert (Hone : wellFormed (consumePowerPellet time pY pX state)).
  { unfold wellFormed, tallEnough, countPellets. cbn.
    rewrite (countGrid_writeTile _ _ _ _ _ TileType.EMPTY Hitem), writeTile_length.
    rewrite length_fmap.
    repeat split; try done; try lia.
    - rewrite Hcount. unfold countPellets. cbn. lia.
    - by apply validLocs_writeTile. }
  destruct (Z.eq_dec (currentPowerPellets (consumePowerPellet time pY pX state)) 0)
    as [Hz|Hnz];
    [destruct (ghostsAlive (ghosts (consumePowerPellet time pY pX state))) eqn:Halive|].
  - destruct (Hyes Hz eq_refl) as (n & Hresp & _ & Hp).
    pose proof (respawnPellets_count isPelletTile _ _ _ _ _ Hresp) as (_ & Hlen' & Hc).
    destruct Hone as (Hcount1 & Htall1 & Hv1 & Hround1 & Hlen1).
    rewrite Hframe. unfold wellFormed, tallEnough, validLocs in *.
    cbn [grid pelletsRemaining powerPelletLocations round ghosts set_grid
         set_pelletsRemaining set_currentPowerPellets].
    rewrite Hlen'. repeat split; try done; try lia.
    rewrite Hp, Hcount1. unfold countPellets. rewrite Hc. cbn. lia.
  - rewrite Hno by (by right). done.
  - rewrite Hno by (by left). done.
Qed.

(** *** The adversaries *)

Lemma getNextGhostDirection_total (random : nat -> Q) (draws : nat)
    (ghost : GhostEntity) (pacmanPos : Position) (pacmanDir : Direction)
    (blinkyPos : Position) (grid : Grid) (round : Z) :
  tallEnough grid -> unitDraws random ->
  is_Some (getNextGhostDirection random draws ghost pacmanPos pacmanDir
             blinkyPos grid round).
Proof.
  intros Htall Hrnd. unfold getNextGhostDirection.
  destruct (getAvailableMoves_total ghost grid false Htall) as [moves ->].
  cbn [mbind option_bind].
  destruct (GhostStatus_eqb _ _).
  - destruct (Nat.ltb_spec 0 (length moves)) as [Hlen|]; [|eauto].
    destruct (Hrnd draws) as [H0 H1].
    destruct (lookupZ_Some moves _ (random_index _ _ H0 H1 Hlen)) as [d ->].
    cbn [mbind option_bind]. eauto.
  - destruct moves as [|first [|second rest]]; eauto.
Qed.

Lemma setGhost_sameBoard (w : World) (i : nat) (g : GhostEntity) :
  sameBoard w (upd (fun s => set_ghosts (<[i := g]> (ghosts s)) s) w).
Proof. repeat split. cbn. apply length_insert. Qed.

Lemma set_draws_sameBoard (w : World) (k : nat) : sameBoard w (set_draws k w).
Proof. by repeat split. Qed.

Lemma ghostLoop_sameBoard (random : nat -> Q) (fuel : nat) (blinky : option nat)
    (i : nat) :
  forall distRemaining w w',
    ghostLoop random fuel blinky i distRemaining w = Some w' -> sameBoard w w'.
Proof.
  induction fuel as [|fuel IH]; intros distRemaining w w'; simpl.
  - intros [= <-]. apply sameBoard_refl.
  - destruct (negb (Qltb 0 distRemaining)); [intros [= <-]; apply sameBoard_refl|].
    destruct (ghosts (game w) !! i) as [ghost|]; [|intros [= <-]; apply sameBoard_refl].
    destruct (Qleb _ distRemaining).
    + destruct (getNextGhostDirection _ _ _ _ _ _ _ _) as [[nextDir k]|];
        cbn [mbind option_bind]; [|discriminate].
      intros H. apply IH in H.
      eapply sameBoard_trans; [|exact H].
      eapply sameBoard_trans; [apply setGhost_sameBoard|].
      eapply sameBoard_trans; [apply setGhost_sameBoard|].
      apply set_draws_sameBoard.
    + intros [= <-]. apply setGhost_sameBoard.
Qed.

Lemma ghostLoop_total (random : nat -> Q) (fuel : nat) (blinky : option nat)
    (i : nat) :
  unitDraws random ->
  forall distRemaining w,
    tallEnough (grid (game w)) ->
    is_Some (ghostLoop random fuel blinky i distRemaining w).
Proof.
  intros Hrnd. induction fuel as [|fuel IH]; intros distRemaining w Htall; simpl; [eauto|].
  destruct (negb (Qltb 0 distRemaining)); [eauto|].
  destruct (ghosts (game w) !! i) as [ghost|]; [|eauto].
  destruct (Qleb _ distRemaining); [|eauto].
  match goal with
  | |- is_Some (?e ≫= _) => assert (is_Some e) as [[nextDir k] ->]
  end.
  { apply getNextGhostDirection_total; [exact Htall | exact Hrnd]. }
  cbn [mbind option_bind]. apply IH. exact Htall.
Qed.

Lemma moveGhost_sameBoard (random : nat -> Q) (blinky : option nat)
    (ghostMoveFactor : Q) (i : nat) (w w' : World) :
  moveGhost random blinky ghostMoveFactor i w = Some w' -> sameBoard w w'.
Proof.
  unfold moveGhost.
  destruct (ghosts (game w) !! i) as [ghost|]; [|intros [= <-]; apply sameBoard_refl].
  destruct (GhostStatus_eqb _ _); [intros [= <-]; apply sameBoard_refl|].
  destruct (ghostLoop _ _ _ _ _ _) as [w1|] eqn:Hloop;
    cbn [mbind option_bind]; [|discriminate].
  intros [= <-]. apply ghostLoop_sameBoard in Hloop.
  eapply sameBoard_trans; [exact Hloop|].
  repeat split. cbn. apply length_alter.
Qed.

Lemma moveGhost_total (random : nat -> Q) (blinky : option nat)
    (ghostMoveFactor : Q) (i : nat) (w : World) :
  unitDraws random -> tallEnough (grid (game w)) ->
  is_Some (moveGhost random blinky ghostMoveFactor i w).
Proof.
  intros Hrnd Htall. unfold moveGhost.
  destruct (ghosts (game w) !! i) as [ghost|]; [|eauto].
  destruct (GhostStatus_eqb _ _); [eauto|].
  destruct (ghostLoop_total random 2 blinky i Hrnd ghostMoveFactor w Htall) as [w1 ->].
  cbn [mbind option_bind]. eauto.
Qed.

Lemma ghostPhase_sameBoard (random : nat -> Q) (moveFactor : Q) (w w' : World) :
  ghostPhase random moveFactor w = Some w' -> sameBoard w w'.
Proof.
  unfold ghostPhase.
  generalize (blinkyIndex (ghosts (game w))) as blinky.
  generalize (seq 0 (length (ghosts (game w)))) as idxs.
  intros idxs blinky.
  match goal with
  | |- forIndices (moveGhost random blinky ?f) idxs w = _ -> _ => generalize f as factor
  end.
  intros factor. revert w.
  induction idxs as [|i idxs IH]; intros w; simpl.
  - intros [= <-]. apply sameBoard_refl.
  - destruct (moveGhost random blinky factor i w) as [w1|] eqn:Hmove;
      cbn [mbind option_bind]; [|discriminate].
    intros H. apply IH in H. apply moveGhost_sameBoard in Hmove.
    by eapply sameBoard_trans.
Qed.

Lemma ghostPhase_total (random : nat -> Q) (moveFactor : Q) (w : World) :
  unitDraws random -> tallEnough (grid (game w)) ->
  is_Some (ghostPhase random moveFactor w).
Proof.
  intros Hrnd. unfold ghostPhase.
  generalize (blinkyIndex (ghosts (game w))) as blinky.
  generalize (seq 0 (length (ghosts (game w)))) as idxs.
  intros idxs blinky.
  match goal with
  | |- _ -> is_Some (forIndices (moveGhost random blinky ?f) idxs w) =>
      generalize f as factor
  end.
  intros factor. revert w.
  induction idxs as [|i idxs IH]; intros w Htall; simpl; [eauto|].
  destruct (moveGhost_total random blinky factor i w Hrnd Htall) as [w1 Hmove].
  rewrite Hmove. cbn [mbind option_bind]. apply IH.
  apply moveGhost_sameBoard in Hmove as [(Hg & _) _]. by rewrite Hg.
Qed.

(** *** Deaths and collisions *)

Lemma resetGhosts_length (gs : list GhostEntity) :
  forall idx gs', resetGhosts idx gs = Some gs' -> length gs' = length gs.
Proof.
  induction gs as [|g gs IH]; intros idx gs'; simpl.
  - by intros [= <-].
  - destruct (if GhostStatus_eqb (Ghost.status g) EATEN then _ else _) as [g'|];
      cbn [mbind option_bind]; [|discriminate].
    destruct (resetGhosts (S idx) gs) as [rest|] eqn:Hrest;
      cbn [mbind option_bind]; [|discriminate].
    intros [= <-]. simpl. f_equal. by eapply IH.
Qed.

Lemma resetGhosts_total (gs : list GhostEntity) :
  forall idx,
    (idx + length gs <= length INITIAL_GHOSTS)%nat -> is_Some (resetGhosts idx gs).
Proof.
  induction gs as [|g gs IH]; intros idx Hlen; simpl in *; [eauto|].
  assert (is_Some (INITIAL_GHOSTS !! idx)) as [seed Hseed]
    by (apply lookup_lt_is_Some; simpl; lia).
  destruct (IH (S idx)) as [rest ->]; [lia|].
  destruct (GhostStatus_eqb (Ghost.status g) EATEN); [|rewrite Hseed];
    cbn [mbind option_bind]; eauto.
Qed.

Lemma resetPositions_sameBoard (w w' : World) :
  resetPositions w = Some w' -> sameBoard w w'.
Proof.
  unfold resetPositions.
  destruct (resetGhosts 0 (ghosts (game w))) as [gs|] eqn:Hgs;
    cbn [mbind option_bind]; [|discriminate].
  intros [= <-]. apply resetGhosts_length in Hgs. by repeat split.
Qed.

(** A death leaves the board as it is or restarts the game with a fresh
    first round; it never touches the level timers. *)
Lemma handleDeath_spec (teamName : string) (saveReturns : nat -> bool)
    (n : nat) (w w' : World) :
  handleDeath teamName saveReturns w = Some w' ->
  wellFormed (game w) -> levelTimers w = n ->
  wellFormed (game w')
  /\ levelTimers w' = n
  /\ (pelletsRemaining (game w') = pelletsRemaining (game w)
      \/ pelletsRemaining (game w') = countPellets INITIAL_MAP).
Proof.
  unfold handleDeath. intros H Hwf Ht.
  destruct (_ <=? 0).
  - unfold handleDemotionOrGameOver in H.
    cbn [upd game round set_status set_lives] in H.
    destruct (round (game w) =? 1).
    + destruct (saveReturns _); [|discriminate]. 
      injection H as <-. split; [exact Hwf|]. split; [exact Ht|]. by left.
    + apply initRound_spec in H as (Hwf' & Hp & _ & Ht' & _).
      cbn in Ht'. split; [done|]. split; [congruence | by right].
  - apply resetPositions_sameBoard in H as [Hs Ht'].
    cbn in Hs, Ht'.
    split; [eapply wellFormed_sameBoardS; [|exact Hs]; exact Hwf|].
    split; [congruence|]. left. by destruct Hs as (_ & -> & _).
Qed.

Lemma handleDeath_total (teamName : string) (saveReturns : nat -> bool) (w : World) :
  storeHolds saveReturns ->
  wellFormed (game w) -> is_Some (handleDeath teamName saveReturns w).
Proof.
  intros Hstore (_ & _ & _ & _ & Hlen). unfold handleDeath.
  destruct (_ <=? 0).
  - unfold handleDemotionOrGameOver. destruct (_ =? 1); [rewrite Hstore; eauto|].
    apply initRound_total. lia.
  - unfold resetPositions. cbn [upd game ghosts set_lives].
    destruct (resetGhosts_total (ghosts (game w)) 0) as [gs ->]; [lia|].
    cbn [mbind option_bind]. eauto.
Qed.

Lemma capture_frame (random : nat -> Q) (time : Q) (live : bool) (i : nat)
    (ghost : GhostEntity) (arr : list GhostEntity) (w : World) :
  (live = true -> arr = ghosts (game w)) ->
  sameBoard w (fst (capture random time live i ghost arr w)).
Proof.
  intros Harr. unfold capture.
  destruct live; repeat split. cbn. rewrite length_insert. by rewrite Harr.
Qed.

Lemma collideGhost_spec (teamName : string) (saveReturns : nat -> bool)
    (random : nat -> Q) (time : Q)
    (arrRef i n : nat) (w w' : World) (arr arr' : list GhostEntity) :
  collideGhost teamName saveReturns random time arrRef i (w, arr) = Some (w', arr') ->
  playable n w -> playable n w'.
Proof.
  unfold collideGhost. intros H Hplay.
  set (live := (ghostsRef w =? arrRef)%nat) in *.
  set (cur := if live then ghosts (game w) else arr) in *.
  destruct (cur !! i) as [ghost|]; [|by injection H as <- <-].
  destruct (GhostStatus_eqb (Ghost.status ghost) EATEN); [by injection H as <- <-|].
  destruct (collides ghost (pacman (game w))); [|by injection H as <- <-].
  destruct (GhostStatus_eqb (Ghost.status ghost) VULNERABLE).
  - assert (Hframe : sameBoard w (fst (capture random time live i ghost cur w))).
    { apply capture_frame. intros Hl. unfold cur. by rewrite Hl. }
    destruct (capture random time live i ghost cur w) as [w1 arr1].
    injection H as <- <-. by eapply playable_sameBoard.
  - destruct (handleDeath teamName saveReturns w) as [w1|] eqn:Hdeath;
      cbn [mbind option_bind] in H; [|discriminate].
    injection H as <- <-.
    destruct Hplay as (Hwf & Hnz & Ht).
    destruct (handleDeath_spec _ _ _ _ _ Hdeath Hwf Ht) as (Hwf' & Ht' & [Hp|Hp]).
    + split; [done|]. split; [congruence | done].
    + split; [done|]. split; [|done]. rewrite Hp. discriminate.
Qed.

Lemma collideGhost_total (teamName : string) (saveReturns : nat -> bool)
    (random : nat -> Q) (time : Q)
    (arrRef i : nat) (w : World) (arr : list GhostEntity) :
  storeHolds saveReturns ->
  wellFormed (game w) ->
  is_Some (collideGhost teamName saveReturns random time arrRef i (w, arr)).
Proof.
  intros Hstore Hwf. unfold collideGhost.
  destruct ((if (ghostsRef w =? arrRef)%nat then ghosts (game w) else arr) !! i)
    as [ghost|]; [|eauto].
  destruct (GhostStatus_eqb (Ghost.status ghost) EATEN); [eauto|].
  destruct (collides ghost (pacman (game w))); [|eauto].
  destruct (GhostStatus_eqb (Ghost.status ghost) VULNERABLE); [eauto|].
  destruct (handleDeath_total teamName saveReturns w Hstore Hwf) as [w1 ->].
  cbn [mbind option_bind]. eauto.
Qed.

Lemma collideAll_spec (teamName : string) (saveReturns : nat -> bool)
    (random : nat -> Q) (time : Q)
    (arrRef n : nat) (idxs : list nat) :
  forall w arr w' arr',
    collideAll teamName saveReturns random time arrRef idxs (w, arr) = Some (w', arr') ->
    playable n w -> playable n w'.
Proof.
  induction idxs as [|i idxs IH]; intros w arr w' arr'; cbn [collideAll].
  - by intros [= <- <-].
  - destruct (collideGhost teamName saveReturns random time arrRef i (w, arr)) as [[w1 arr1]|]
      eqn:Hstep; cbn [mbind option_bind]; [|intros [=]].
    intros H Hplay. apply (IH w1 arr1 w' arr' H). by eapply collideGhost_spec.
Qed.

Lemma collideAll_total (teamName : string) (saveReturns : nat -> bool)
    (random : nat -> Q) (time : Q)
    (arrRef n : nat) (idxs : list nat) :
  storeHolds saveReturns ->
  forall w arr,
    playable n w ->
    is_Some (collideAll teamName saveReturns random time arrRef idxs (w, arr)).
Proof.
  intros Hstore.
  induction idxs as [|i idxs IH]; intros w arr Hplay; cbn [collideAll]; [eauto|].
  destruct (collideGhost_total teamName saveReturns random time arrRef i w arr Hstore)
    as [[w1 arr1] Hstep]; [by destruct Hplay|].
  rewrite Hstep. cbn [mbind option_bind]. apply IH.
  by eapply collideGhost_spec.
Qed.

(** ** The leaderboard (utils/storage.ts) *)

Lemma insertSorted_perm (a : Storage.HighScore) (l : list Storage.HighScore) :
  Storage.insertSorted a l ≡ₚ a :: l.
Proof.
  induction l as [|y l IH]; simpl; [done|].
  destruct (Storage.score a <? Storage.score y); [|done].
  rewrite IH. apply Permutation_swap.
Qed.

Lemma sortDescending_perm (l : list Storage.HighScore) :
  Storage.sortDescending l ≡ₚ l.
Proof.
  induction l as [|a l IH]; simpl; [done|].
  rewrite insertSorted_perm. by rewrite IH.
Qed.

Lemma insertSorted_sorted a l : sortedDesc l -> sortedDesc (Storage.insertSorted a l).
Proof.
  induction l as [|y l IH]; simpl; [by split|].
  intros [Hy Hl]. destruct (Z.ltb_spec (Storage.score a) (Storage.score y)); simpl.
  - split; [|by apply IH].
    rewrite insertSorted_perm. constructor; [lia | done].
  - split; [|by split]. constructor; [lia|].
    eapply Forall_impl; [exact Hy|]. simpl. intros; lia.
Qed.

Lemma sortDescending_sorted l : sortedDesc (Storage.sortDescending l).
Proof. induction l as [|a l IH]; simpl; [done|]. by apply insertSorted_sorted. Qed.

Lemma sortedDesc_descending l : sortedDesc l -> Storage.descending l.
Proof.
  unfold Storage.descending. induction l as [|x l IH]; intros Hs i j a b Hij Hi Hj.
  - by rewrite lookup_nil in Hi.
  - destruct Hs as [Hx Hl]. destruct j as [|j]; [lia|]. simpl in Hj.
    destruct i as [|i]; simpl in Hi.
    + injection Hi as <-. eapply Forall_lookup_1 in Hx; eauto.
    + eapply (IH Hl i j); eauto. lia.
Qed.

Lemma sortedDesc_take n l : sortedDesc l -> sortedDesc (take n l).
Proof.
  revert n. induction l as [|x l IH]; intros [|n]; simpl; try done.
  intros [Hx Hl]. split; [|by apply IH].
  apply Forall_take. done.
Qed.

Lemma insertSorted_app_l a l1 l2 :
  (forall y, head l2 = Some y -> Storage.score y <= Storage.score a) ->
  Storage.insertSorted a (l1 ++ l2) = Storage.insertSorted a l1 ++ l2.
Proof.
  intros Hhead. induction l1 as [|x l1 IH]; simpl.
  - destruct l2 as [|y l2]; [done|]. simpl.
    destruct (Z.ltb_spec (Storage.score a) (Storage.score y)); [|done].
    specialize (Hhead y eq_refl). lia.
  - destruct (_ <? _); [|done]. by rewrite IH.
Qed.

Lemma insertSorted_app_r a l1 l2 :
  Forall (fun y => Storage.score a < Storage.score y) l1 ->
  Storage.insertSorted a (l1 ++ l2) = l1 ++ Storage.insertSorted a l2.
Proof.
  induction 1 as [|x l1 Hx _ IH]; simpl; [done|].
  destruct (Z.ltb_spec (Storage.score a) (Storage.score x)); [|lia]. by rewrite IH.
Qed.

Lemma sort_snoc (x : Storage.HighScore) (l : list Storage.HighScore) :
  exists G L,
    Storage.sortDescending l = G ++ L
    /\ Forall (fun e => Storage.score x <= Storage.score e) G
    /\ Forall (fun e => Storage.score e < Storage.score x) L
    /\ Storage.sortDescending (l ++ [x]) = G ++ x :: L.
Proof.
  induction l as [|a l (G & L & HS & HG & HL & HX)]; simpl.
  - exists [], []. done.
  - rewrite HS, HX.
    destruct (Z.le_gt_cases (Storage.score x) (Storage.score a)) as [Hge|Hlt].
    + exists (Storage.insertSorted a G), L. split; [|split; [|split]].
      * apply insertSorted_app_l. intros y Hy. destruct L as [|z L]; [done|].
        injection Hy as <-. apply Forall_cons in HL as [? _]. lia.
      * rewrite insertSorted_perm. by constructor.
      * done.
      * apply insertSorted_app_l. intros y [= <-]. done.
    + exists G, (Storage.insertSorted a L).
      assert (HGa : Forall (fun y => Storage.score a < Storage.score y) G).
      { eapply Forall_impl; [exact HG|]. simpl. intros; lia. }
      split; [|split; [|split]].
      * by apply insertSorted_app_r.
      * done.
      * rewrite insertSorted_perm. constructor; [lia | done].
      * rewrite (insertSorted_app_r a G (x :: L) HGa). simpl.
        destruct (Z.ltb_spec (Storage.score a) (Storage.score x)); [done | lia].
Qed.

Lemma countAtLeast_perm (s : Z) (l l' : list Storage.HighScore) :
  l ≡ₚ l' -> Storage.countAtLeast s l = Storage.countAtLeast s l'.
Proof.
  unfold Storage.countAtLeast.
  induction 1 as [|x l l' _ IH|x y l|l1 l2 l3 _ IH1 _ IH2]; simpl.
  - done.
  - destruct (_ <=? _); simpl; by rewrite IH.
  - destruct (s <=? Storage.score x), (s <=? Storage.score y); done.
  - by rewrite IH1.
Qed.

Lemma countAtLeast_split (s : Z) (G L : list Storage.HighScore) :
  Forall (fun e => s <= Storage.score e) G ->
  Forall (fun e => Storage.score e < s) L ->
  Storage.countAtLeast s (G ++ L) = length G.
Proof.
  unfold Storage.countAtLeast. intros HG HL.
  induction HG as [|x G Hx _ IH]; simpl.
  - induction HL as [|y L Hy _ IH]; simpl; [done|].
    destruct (Z.leb_spec s (Storage.score y)); [lia | done].
  - destruct (Z.leb_spec s (Storage.score x)); [|lia]. simpl. by rewrite IH.
Qed.

Lemma sortedDesc_fixed (l : list Storage.HighScore) :
  sortedDesc l -> Storage.sortDescending l = l.
Proof.
  induction l as [|a l IH]; simpl; [done|].
  intros [Ha Hl]. rewrite (IH Hl).
  destruct l as [|y l]; simpl; [done|].
  apply Forall_cons in Ha as [Hy _].
  destruct (Z.ltb_spec (Storage.score a) (Storage.score y)); [lia | done].
Qed.

(** X1.  Whether the storage item is missing, unreadable or holds an
    array of score records in any order, the board that [saveScore] returns
    holds the old entries and the new one cut to five: as many as there
    were plus one, but at most five; it is in descending order of score,
    and every entry on it is the new one or an old one. *)
Theorem leaderboard_shape (teamName : string) (s : Z) (now : string)
    (item : Storage.Item) :
  let current := Storage.getLeaderboard item in
  let updated := snd (Storage.saveScore teamName s now item) in
  length updated = Nat.min 5 (S (length current))
  /\ Storage.descending updated
  /\ (forall e, e ∈ updated -> e = Storage.mkHighScore teamName s now \/ e ∈ current).
Proof.
  intros current updated. unfold updated, Storage.saveScore. cbn [snd].
  fold current. split; [|split].
  - rewrite length_take, sortDescending_perm, length_app. cbn [length]. lia.
  - apply sortedDesc_descending, sortedDesc_take, sortDescending_sorted.
  - intros e He. apply elem_of_take in He as (i & He & _).
    apply list_elem_of_lookup_2 in He. rewrite sortDescending_perm in He.
    apply elem_of_app in He as [He|He]; [by right|left].
    by apply list_elem_of_singleton in He.
Qed.

(** X2.  With [k] the number of stored entries whose score is at least the
    new score: if [k] is below five the new entry is on the board at
    index [k], behind every entry that scores as much or more (an older
    entry wins a tie) and ahead of every lower one; if [k] is five or more
    the board is the top five of the stored entries and the new entry is
    not added. *)
Theorem leaderboard_rank (teamName : string) (s : Z) (now : string)
    (item : Storage.Item) :
  let current := Storage.getLeaderboard item in
  let new := Storage.mkHighScore teamName s now in
  let k := Storage.countAtLeast s current in
  let updated := snd (Storage.saveScore teamName s now item) in
  ((k < 5)%nat ->
     updated !! k = Some new
     /\ (forall i e, (i < k)%nat -> updated !! i = Some e -> s <= Storage.score e)
     /\ (forall i e, (k < i)%nat -> updated !! i = Some e -> Storage.score e < s))
  /\ ((5 <= k)%nat ->
      updated = take 5 (Storage.sortDescending current)
      /\ Forall (fun e => s <= Storage.score e) updated).
Proof.
  intros current new k updated.
  destruct (sort_snoc new current) as (G & L & HS & HG & HL & HX).
  assert (Hk : k = length G).
  { unfold k. rewrite <- (countAtLeast_perm s _ _ (sortDescending_perm current)), HS.
    by apply countAtLeast_split. }
  unfold updated, Storage.saveScore. cbn [snd]. fold current new. rewrite HX.
  split; intros Hlt.
  - rewrite Hk in *. split; [|split].
    + rewrite lookup_take_lt by done. by rewrite list_lookup_middle.
    + intros i e Hi He. apply lookup_take_Some in He as [He _].
      rewrite lookup_app_l in He by done.
      eapply Forall_lookup_1 in HG; eauto.
    + intros i e Hi He. apply lookup_take_Some in He as [He _].
      rewrite lookup_app_r in He by lia.
      destruct (i - length G)%nat as [|m] eqn:Hm; [lia|]. simpl in He.
      eapply Forall_lookup_1 in HL; eauto.
  - rewrite Hk in *. rewrite HS.
    rewrite !take_app_le by done. split; [done|].
    by apply Forall_take.
Qed.

Lemma descending_sortedDesc (l : list Storage.HighScore) :
  Storage.descending l -> sortedDesc l.
Proof.
  unfold Storage.descending. induction l as [|x l IH]; intros Hd; simpl; [done|].
  split.
  - apply Forall_lookup_2. intros j b Hj.
    apply (Hd 0%nat (S j) x b); [lia | done | done].
  - apply IH. intros i j a b Hij Hi Hj.
    apply (Hd (S i) (S j) a b); [lia | done | done].
Qed.

(** X3.  On a stored board in descending order a save keeps the stored
    entries in their order and puts the new entry behind the last one that
    scores as much or more, before cutting to five; when the item is
    missing or cannot be read the board becomes the new entry alone. *)
Theorem leaderboard_insertion (teamName : string) (s : Z) (now : string)
    (board : list Storage.HighScore) :
  Storage.descending board ->
  exists G L,
    board = G ++ L
    /\ Forall (fun e => s <= Storage.score e) G
    /\ Forall (fun e => Storage.score e < s) L
    /\ snd (Storage.saveScore teamName s now (Storage.Stored board))
       = take 5 (G ++ Storage.mkHighScore teamName s now :: L)
    /\ snd (Storage.saveScore teamName s now Storage.Missing)
       = [Storage.mkHighScore teamName s now]
    /\ snd (Storage.saveScore teamName s now Storage.Unreadable)
       = [Storage.mkHighScore teamName s now].
Proof.
  intros Hd%descending_sortedDesc.
  destruct (sort_snoc (Storage.mkHighScore teamName s now) board)
    as (G & L & HS & HG & HL & HX).
  rewrite (sortedDesc_fixed board Hd) in HS.
  exists G, L. split; [done|]. split; [done|]. split; [done|].
  unfold Storage.saveScore. cbn [snd Storage.getLeaderboard]. rewrite HX. done.
Qed.

Lemma leaderboard_insertion_witness :
  snd (Storage.saveScore "ZED" 300 "2024-02-01T10:00:00.000Z" (Storage.Stored sampleBoard))
  = [ Storage.mkHighScore "ACE" 900 "2024-01-01T10:00:00.000Z";
      Storage.mkHighScore "BOB" 300 "2024-01-02T10:00:00.000Z";
      Storage.mkHighScore "CAT" 300 "2024-01-03T10:00:00.000Z";
      Storage.mkHighScore "ZED" 300 "2024-02-01T10:00:00.000Z";
      Storage.mkHighScore "DAN" 120 "2024-01-04T10:00:00.000Z" ].
Proof.
  destruct (leaderboard_insertion "ZED" 300 "2024-02-01T10:00:00.000Z" sampleBoard)
    as (G & L & _ & _ & _ & H & _).
  - intros i j a b Hij Hi Hj.
    do 5 (destruct i as [|i]; [ do 6 (destruct j as [|j]; [try lia; try (injection Hi as <-; injection Hj as <-; simpl; lia) |]); try discriminate Hj |]).
    discriminate Hi.
  - reflexivity.
Defined.

(** ** Targeting and decisions (utils/ghostAI.ts) *)

(** X5.  The target is the player's own position in round 1 whatever the
    adversary, and in every round for adversary 1, for adversary 3 below
    round 3 and for an identity outside 1 to 6. *)
Theorem direct_chasers (ghost : GhostEntity) (pacmanPos : Position)
    (pacmanDir : Direction) (blinkyPos : Position) (round : Z) :
  round = 1
  \/ Ghost.id ghost = 1
  \/ (Ghost.id ghost = 3 /\ round < 3)
  \/ Ghost.id ghost < 1
  \/ 6 < Ghost.id ghost ->
  getTargetPosition ghost pacmanPos pacmanDir blinkyPos round = pacmanPos.
Proof.
  unfold getTargetPosition. intros H.
  destruct (Z.eqb_spec round 1); [done|].
  destruct (Z.eqb_spec (Ghost.id ghost) 1); [done|].
  destruct (Z.eqb_spec (Ghost.id ghost) 2); [lia|].
  destruct (Z.eqb_spec (Ghost.id ghost) 3).
  { destruct (Z.ltb_spec round 3); [done | lia]. }
  destruct (Z.eqb_spec (Ghost.id ghost) 4); [lia|].
  destruct (Z.eqb_spec (Ghost.id ghost) 5); [lia|].
  destruct (Z.eqb_spec (Ghost.id ghost) 6); [lia|].
  done.
Qed.

Lemma direct_chasers_witness :
  getTargetPosition junctionGhost (tilePos 3 4) LEFT (tilePos 9 8) 1 = tilePos 3 4.
Proof. apply direct_chasers. left. reflexivity. Defined.

(** X6.  From round 2 on, adversary 4 targets the player when its
    Manhattan distance to the player, as the code computes it (both
    differences and the sum rounded to the nearest double), is above 8,
    and the bottom-left corner (0, MAP_HEIGHT - 1) otherwise, a computed
    distance of exactly 8 included.  The rounding counts: an adversary
    whose real distance is just above 8 can compute 8 and retreat. *)
Theorem poker_threshold (ghost : GhostEntity) (pacmanPos : Position)
    (pacmanDir : Direction) (blinkyPos : Position) (round : Z) :
  Ghost.id ghost = 4 -> round <> 1 ->
  let dist :=
    fl (Qabs (fl (pos_x (Ghost.pos ghost) - pos_x pacmanPos))
        + Qabs (fl (pos_y (Ghost.pos ghost) - pos_y pacmanPos)))%Q in
  ((8 < dist)%Q ->
   getTargetPosition ghost pacmanPos pacmanDir blinkyPos round = pacmanPos)
  /\ ((dist <= 8)%Q ->
      getTargetPosition ghost pacmanPos pacmanDir blinkyPos round
      = tilePos 0 (MAP_HEIGHT - 1)).
Proof.
  intros Hid Hround dist. unfold getTargetPosition. rewrite Hid.
  destruct (Z.eqb_spec round 1); [done|]. cbn [Z.eqb Pos.eqb].
  change (getDistance (Ghost.pos ghost) pacmanPos) with dist.
  split; intros H.
  - apply Qltb_lt in H. by rewrite H.
  - apply Qltb_ge in H. by rewrite H.
Qed.

Lemma poker_threshold_witness :
  (8 < manhattan 8 3 (pos_x pokerPlayer) (pos_y pokerPlayer))%Q
  /\ getTargetPosition pokerGhost pokerPlayer LEFT (tilePos 9 8) 2 = tilePos 0 15.
Proof.
  split; [vm_compute; reflexivity|].
  destruct (poker_threshold pokerGhost pokerPlayer LEFT (tilePos 9 8) 2) as [_ Hnear].
  - reflexivity.
  - discriminate.
  - apply Hnear. vm_compute. discriminate.
Defined.



(** X8.  With reversal disallowed, the available moves never contain the
    reverse of the current direction and list no direction twice; an
    adversary heading in a cardinal direction has at most three. *)
Theorem no_reverse_moves (ghost : GhostEntity) (grid : Grid)
    (moves : list Direction) :
  getAvailableMoves ghost grid false = Some moves ->
  (getOppositeDirection (Ghost.direction ghost) ∉ moves)
  /\ NoDup moves
  /\ (cardinal (Ghost.direction ghost) -> (length moves <= 3)%nat).
Proof.
  intros Hmoves. split; [|split].
  - intros Hin. apply (getAvailableMoves_elem _ _ _ _ _ Hmoves) in Hin as [_ Hadm].
    by rewrite admitted_reverse in Hadm.
  - apply available_sublist in Hmoves.
    eapply sublist_NoDup; [|exact Hmoves].
    unfold checkOrder.
    repeat (apply NoDup_cons; split;
            [intros H; repeat (apply elem_of_cons in H as [H|H]; [discriminate|]);
             by apply elem_of_nil in H|]).
    apply NoDup_nil_2.
  - intros Hcard. apply getAvailableMoves_filter in Hmoves. subst moves.
    pose proof (admitted_reverse ghost grid) as Hrev.
    unfold checkOrder, cardinal in *.
    destruct (Ghost.direction ghost); try congruence; simpl in Hrev; simpl;
      rewrite Hrev;
      repeat match goal with
             | |- context [admitted ?g ?r ?b ?d] => destruct (admitted g r b d)
             end; simpl; lia.
Qed.

Lemma no_reverse_moves_witness :
  getOppositeDirection (Ghost.direction junctionGhost) ∉ [DOWN; RIGHT].
Proof.
  apply (no_reverse_moves junctionGhost INITIAL_MAP [DOWN; RIGHT]).
  reflexivity.
Defined.

Lemma unit_floor (r : Q) : (0 <= r)%Q -> (r < 1)%Q -> Qfloor (r * inject_Z 1) = 0.
Proof.
  intros H0 H1.
  pose proof (random_index r 1 H0 H1 ltac:(lia)) as H.
  change (Z.of_nat 1) with 1 in H. lia.
Qed.

(** X9.  With a random draw in [0, 1): when exactly one move is available
    the decision is that move, whatever the target, the round and the mode
    (a VULNERABLE adversary still uses up one draw); when none is
    available the decision is the reverse of the current direction and no
    draw is used. *)
Theorem forced_decisions (random : nat -> Q) (draws : nat)
    (ghost : GhostEntity) (pacmanPos : Position) (pacmanDir : Direction)
    (blinkyPos : Position) (grid : Grid) (round : Z) :
  (0 <= random draws)%Q -> (random draws < 1)%Q ->
  (forall d,
     getAvailableMoves ghost grid false = Some [d] ->
     getNextGhostDirection random draws ghost pacmanPos pacmanDir blinkyPos grid round
     = Some (d, if GhostStatus_eqb (Ghost.status ghost) VULNERABLE
                then S draws else draws))
  /\ (getAvailableMoves ghost grid false = Some [] ->
      getNextGhostDirection random draws ghost pacmanPos pacmanDir blinkyPos grid round
      = Some (getOppositeDirection (Ghost.direction ghost), draws)).
Proof.
  intros H0 H1. split.
  - intros d Hmoves. unfold getNextGhostDirection. rewrite Hmoves.
    cbn [mbind option_bind length Nat.ltb Nat.leb].
    destruct (GhostStatus_eqb _ _); [|reflexivity].
    change (Z.of_nat 1) with 1. rewrite (unit_floor _ H0 H1). reflexivity.
  - intros Hmoves. unfold getNextGhostDirection. rewrite Hmoves.
    cbn [mbind option_bind length Nat.ltb Nat.leb].
    by destruct (GhostStatus_eqb _ _).
Qed.

Lemma forced_decisions_witness :
  getNextGhostDirection oneThird 7
    (Ghost.mk 1 (tilePos 1 2) "bg-red-500" (tilePos 9 8) UP VULNERABLE)
    (tilePos 9 10) RIGHT (tilePos 1 2) INITIAL_MAP 1
  = Some (UP, 8%nat).
Proof.
  destruct (forced_decisions oneThird 7
              (Ghost.mk 1 (tilePos 1 2) "bg-red-500" (tilePos 9 8) UP VULNERABLE)
              (tilePos 9 10) RIGHT (tilePos 1 2) INITIAL_MAP 1) as [Hone _].
  - discriminate.
  - reflexivity.
  - apply (Hone UP). reflexivity.
Defined.

(** ** The maze edges, round start and respawn *)

(** X10.  At the edges of the maze.  The player's check never accepts a move
    to a row outside the grid; a move off the left edge is judged by the
    tile in the last column of the destination row and a move off the
    right edge by the tile in column 0.  An adversary is always allowed a
    non-reverse move off either side edge, whatever the tiles, and never a
    move to a row outside the grid within the columns. *)
Theorem tunnel_entry (grid : Grid) (x y : Z) (dir : Direction)
    (ghost : GhostEntity) (tile : Z) :
  (y + move_y (DIRECTIONS dir) < 0 \/ MAP_HEIGHT <= y + move_y (DIRECTIONS dir) ->
   isValidMove grid x y dir = Some false)
  /\ (0 <= y + move_y (DIRECTIONS dir) < MAP_HEIGHT ->
      x + move_x (DIRECTIONS dir) < 0 ->
      readTile grid (y + move_y (DIRECTIONS dir)) (MAP_WIDTH - 1) = Some (Some tile) ->
      isValidMove grid x y dir
      = Some (negb (tile =? TileType.WALL) && negb (tile =? TileType.GHOST_SPAWN)))
  /\ (0 <= y + move_y (DIRECTIONS dir) < MAP_HEIGHT ->
      MAP_WIDTH <= x + move_x (DIRECTIONS dir) ->
      readTile grid (y + move_y (DIRECTIONS dir)) 0 = Some (Some tile) ->
      isValidMove grid x y dir
      = Some (negb (tile =? TileType.WALL) && negb (tile =? TileType.GHOST_SPAWN)))
  /\ (jsRound (pos_x (Ghost.pos ghost)) = x ->
      jsRound (pos_y (Ghost.pos ghost)) = y ->
      dir <> getOppositeDirection (Ghost.direction ghost) ->
      (x + move_x (DIRECTIONS dir) < 0 \/ MAP_WIDTH <= x + move_x (DIRECTIONS dir) ->
       admitsMove ghost grid false dir = Some true)
      /\ (0 <= x + move_x (DIRECTIONS dir) < MAP_WIDTH ->
          y + move_y (DIRECTIONS dir) < 0 \/ MAP_HEIGHT <= y + move_y (DIRECTIONS dir) ->
          admitsMove ghost grid false dir = Some false)).
Proof.
  split; [|split; [|split]].
  - intros Hy. unfold isValidMove.
    destruct (Z.ltb_spec (y + move_y (DIRECTIONS dir)) 0); [done|].
    destruct (Z.leb_spec MAP_HEIGHT (y + move_y (DIRECTIONS dir))); [done|]. lia.
  - intros Hy Hx Hread. unfold isValidMove.
    destruct (Z.ltb_spec (x + move_x (DIRECTIONS dir)) 0); [|lia].
    destruct (Z.leb_spec MAP_WIDTH (MAP_WIDTH - 1)); [lia|].
    destruct (Z.ltb_spec (y + move_y (DIRECTIONS dir)) 0); [lia|].
    destruct (Z.leb_spec MAP_HEIGHT (y + move_y (DIRECTIONS dir))); [lia|].
    cbn [orb]. rewrite Hread. reflexivity.
  - intros Hy Hx Hread. unfold isValidMove.
    assert (0 < MAP_WIDTH) by reflexivity.
    destruct (Z.ltb_spec (x + move_x (DIRECTIONS dir)) 0); [lia|].
    destruct (Z.leb_spec MAP_WIDTH (x + move_x (DIRECTIONS dir))); [|lia].
    destruct (Z.ltb_spec (y + move_y (DIRECTIONS dir)) 0); [lia|].
    destruct (Z.leb_spec MAP_HEIGHT (y + move_y (DIRECTIONS dir))); [lia|].
    cbn [orb]. rewrite Hread. reflexivity.
  - intros Hgx Hgy Hrev. apply Direction_eqb_neq in Hrev.
    split.
    + intros Hx. unfold admitsMove. rewrite Hgx, Hgy, Hrev. cbn [negb andb].
      destruct (Z.leb_spec 0 (y + move_y (DIRECTIONS dir)));
        destruct (Z.ltb_spec (y + move_y (DIRECTIONS dir)) MAP_HEIGHT);
        destruct (Z.leb_spec 0 (x + move_x (DIRECTIONS dir)));
        destruct (Z.ltb_spec (x + move_x (DIRECTIONS dir)) MAP_WIDTH);
        cbn [andb]; try lia;
        destruct (Z.ltb_spec (x + move_x (DIRECTIONS dir)) 0);
        destruct (Z.leb_spec MAP_WIDTH (x + move_x (DIRECTIONS dir)));
        cbn [orb]; first [reflexivity | lia].
    + intros Hx Hy. unfold admitsMove. rewrite Hgx, Hgy, Hrev. cbn [negb andb].
      destruct (Z.leb_spec 0 (y + move_y (DIRECTIONS dir)));
        destruct (Z.ltb_spec (y + move_y (DIRECTIONS dir)) MAP_HEIGHT);
        destruct (Z.leb_spec 0 (x + move_x (DIRECTIONS dir)));
        destruct (Z.ltb_spec (x + move_x (DIRECTIONS dir)) MAP_WIDTH);
        cbn [andb]; try lia;
        destruct (Z.ltb_spec (x + move_x (DIRECTIONS dir)) 0);
        destruct (Z.leb_spec MAP_WIDTH (x + move_x (DIRECTIONS dir)));
        cbn [orb]; first [reflexivity | lia].
Qed.

Lemma tunnel_entry_witness :
  isValidMove INITIAL_MAP 0 8 LEFT
  = Some (negb (2 =? TileType.WALL) && negb (2 =? TileType.GHOST_SPAWN)).
Proof.
  destruct (tunnel_entry INITIAL_MAP 0 8 LEFT houseGhost 2) as (_ & Hleft & _).
  apply Hleft; [cbn [DIRECTIONS move_y]; unfold MAP_HEIGHT; lia | reflexivity | reflexivity].
Defined.

Lemma spawned_ghosts (n : nat) (i : nat) (g : GhostEntity) :
  (spawnGhost <$> take n INITIAL_GHOSTS) !! i = Some g ->
  Ghost.status g = NORMAL /\ Ghost.direction g = UP
  /\ Ghost.pos g = Ghost.startPos g /\ Ghost.id g = Z.of_nat (S i).
Proof.
  rewrite list_lookup_fmap. intros H.
  destruct (take n INITIAL_GHOSTS !! i) as [seed|] eqn:Hseed; [|discriminate].
  injection H as <-. apply lookup_take_Some in Hseed as [Hseed _].
  do 6 (destruct i as [|i]; [injection Hseed as <-; by repeat split|]).
  discriminate.
Qed.

(** X11.  [initRound] raises for a round outside 1 to 3.  For rounds 1, 2, 3
    it installs a fresh array of 3, 4, 6 adversaries, numbered from 1, all
    NORMAL, heading UP, on their start tiles; the player on (9, 10) heading
    RIGHT; the initial maze with 127 pellets, 4 of them power pellets; no
    vulnerability, streak or popup; the countdown at its full duration in
    ROUND_STARTING.  The lives are kept; the score is kept or zeroed as
    asked. *)
Theorem round_start (roundNum : Z) (keepScore : bool) (w : World) :
  (roundNum < 1 \/ 3 < roundNum -> initRound roundNum keepScore w = None)
  /\ (1 <= roundNum <= 3 ->
      exists w',
        initRound roundNum keepScore w = Some w'
        /\ round (game w') = roundNum
        /\ status (game w') = ROUND_STARTING
        /\ length (ghosts (game w')) = rosterSize roundNum
        /\ (forall i g, ghosts (game w') !! i = Some g ->
              Ghost.status g = NORMAL /\ Ghost.direction g = UP
              /\ Ghost.pos g = Ghost.startPos g /\ Ghost.id g = Z.of_nat (S i))
        /\ pacman (game w') = Pacman.mk (tilePos 9 10) RIGHT RIGHT 0%Q
        /\ grid (game w') = INITIAL_MAP
        /\ pelletsRemaining (game w') = 127
        /\ currentPowerPellets (game w') = 4
        /\ vulnerableUntil (game w') = 0%Q
        /\ ghostsEatenStreak (game w') = 0
        /\ popups (game w') = []
        /\ pauseTimer (game w') = pauseDuration (game w')
        /\ score (game w') = (if keepScore then score (game w) else 0)
        /\ lives (game w') = lives (game w)
        /\ events w' = events w
        /\ levelTimers w' = levelTimers w
        /\ ghostsRef w' <> ghostsRef w).
Proof.
  split.
  - intros Hr. unfold initRound, ROUND_CONFIGS.
    destruct (Z.eqb_spec roundNum 1); [lia|].
    destruct (Z.eqb_spec roundNum 2); [lia|].
    destruct (Z.eqb_spec roundNum 3); [lia|]. reflexivity.
  - intros Hr. unfold initRound.
    assert (exists config, ROUND_CONFIGS roundNum = Some config
                           /\ ghostCount config = rosterSize roundNum)
      as (config & -> & Hcount).
    { unfold ROUND_CONFIGS, rosterSize.
      destruct (Z.eqb_spec roundNum 1); [eauto|].
      destruct (Z.eqb_spec roundNum 2); [eauto|].
      destruct (Z.eqb_spec roundNum 3); [eauto|lia]. }
    cbn [mbind option_bind].
    change (scanGrid INITIAL_MAP)
      with (127, [mkTileIndex 1 1; mkTileIndex 17 1; mkTileIndex 1 14; mkTileIndex 17 14]).
    eexists. split; [reflexivity|].
    cbn [game round status ghosts pacman grid pelletsRemaining currentPowerPellets
         vulnerableUntil ghostsEatenStreak popups pauseTimer pauseDuration score lives
         events levelTimers ghostsRef length Z.of_nat Pos.of_succ_nat Pos.succ].
    repeat split; try reflexivity.
    + rewrite length_fmap, length_take, Hcount. unfold rosterSize.
      destruct (roundNum =? 1); [reflexivity|]. destruct (roundNum =? 2); reflexivity.
    + eapply spawned_ghosts; eauto.
    + eapply spawned_ghosts; eauto.
    + eapply spawned_ghosts; eauto.
    + eapply spawned_ghosts; eauto.
    + lia.
Qed.

Lemma round_start_witness :
  exists w',
    initRound 2 true lastLifeWorld = Some w'
    /\ length (ghosts (game w')) = 4%nat
    /\ score (game w') = 10.
Proof.
  destruct (round_start 2 true lastLifeWorld) as [_ H].
  destruct H as (w' & H & _ & _ & Hlen & _ & _ & _ & _ & _ & _ & _ & _ & _ & Hs & _);
    [lia|].
  exists w'. split; [exact H|]. split; [exact Hlen | exact Hs].
Defined.

Lemma resetGhosts_lookup (gs : list GhostEntity) :
  forall idx gs' i g,
    resetGhosts idx gs = Some gs' ->
    gs !! i = Some g ->
    exists g',
      gs' !! i = Some g'
      /\ (Ghost.status g = EATEN -> g' = g)
      /\ (Ghost.status g <> EATEN ->
          exists seed, INITIAL_GHOSTS !! (idx + i)%nat = Some seed
                       /\ g' = Ghost.set_direction UP
                                 (Ghost.set_pos (seed_startPos seed) g)).
Proof.
  induction gs as [|g0 gs IH]; intros idx gs' i g; cbn [resetGhosts].
  - intros _ Hi. by rewrite lookup_nil in Hi.
  - destruct (GhostStatus_eqb (Ghost.status g0) EATEN) eqn:He.
    + cbn [mbind option_bind].
      destruct (resetGhosts (S idx) gs) as [rest|] eqn:Hrest;
        cbn [mbind option_bind]; [|discriminate].
      intros [= <-] Hi. destruct i as [|i]; cbn in Hi |- *.
      * injection Hi as <-. exists g0. split; [done|].
        apply GhostStatus_eqb_eq in He. split; [done|congruence].
      * destruct (IH (S idx) rest i g Hrest Hi) as (g' & Hg' & He' & Hn').
        exists g'. split; [done|]. split; [done|].
        intros Hne. destruct (Hn' Hne) as (seed & Hseed & ->).
        exists seed. split; [|done]. by rewrite Nat.add_succ_r.
    + destruct (INITIAL_GHOSTS !! idx) as [seed0|] eqn:Hseed0;
        cbn [mbind option_bind]; [|discriminate].
      destruct (resetGhosts (S idx) gs) as [rest|] eqn:Hrest;
        cbn [mbind option_bind]; [|discriminate].
      intros [= <-] Hi. destruct i as [|i]; cbn in Hi |- *.
      * injection Hi as <-. eexists. split; [done|].
        apply GhostStatus_eqb_neq in He. split; [congruence|].
        intros _. exists seed0. by rewrite Nat.add_0_r.
      * destruct (IH (S idx) rest i g Hrest Hi) as (g' & Hg' & He' & Hn').
        exists g'. split; [done|]. split; [done|].
        intros Hne. destruct (Hn' Hne) as (seed & Hseed & ->).
        exists seed. split; [|done]. by rewrite Nat.add_succ_r.
Qed.

(** X12.  A death that leaves a life (more than one before it, at most six
    adversaries) takes one life and enters RESPAWNING with a 1500 ms
    countdown: the player is back on (9, 10) heading RIGHT; every adversary
    that is not EATEN is on the start tile of its index, heading UP, its
    status unchanged; an EATEN adversary is untouched; the grid, the
    pellet counter, the score, the round, the vulnerability timer and the
    streak are unchanged, and nothing is persisted. *)
Theorem respawn_after_death (teamName : string) (saveReturns : nat -> bool) (w : World) :
  1 < lives (game w) ->
  (length (ghosts (game w)) <= length INITIAL_GHOSTS)%nat ->
  exists w',
    handleDeath teamName saveReturns w = Some w'
    /\ lives (game w') = lives (game w) - 1
    /\ status (game w') = RESPAWNING
    /\ pauseTimer (game w') = (1500 # 1)%Q
    /\ Pacman.pos (pacman (game w')) = tilePos 9 10
    /\ Pacman.dir (pacman (game w')) = RIGHT
    /\ Pacman.nextDir (pacman (game w')) = RIGHT
    /\ length (ghosts (game w')) = length (ghosts (game w))
    /\ (forall i g,
          ghosts (game w) !! i = Some g ->
          exists g',
            ghosts (game w') !! i = Some g'
            /\ (Ghost.status g = EATEN -> g' = g)
            /\ (Ghost.status g <> EATEN ->
                exists seed,
                  INITIAL_GHOSTS !! i = Some seed
                  /\ g' = Ghost.set_direction UP (Ghost.set_pos (seed_startPos seed) g)))
    /\ grid (game w') = grid (game w)
    /\ pelletsRemaining (game w') = pelletsRemaining (game w)
    /\ score (game w') = score (game w)
    /\ round (game w') = round (game w)
    /\ vulnerableUntil (game w') = vulnerableUntil (game w)
    /\ ghostsEatenStreak (game w') = ghostsEatenStreak (game w)
    /\ events w' = events w
    /\ ghostsRef w' = ghostsRef w.
Proof.
  intros Hlives Hlen. unfold handleDeath.
  cbn [upd game lives set_lives].
  destruct (Z.leb_spec (lives (game w) - 1) 0); [lia|].
  unfold resetPositions. cbn [upd game ghosts set_lives].
  destruct (resetGhosts_total (ghosts (game w)) 0) as [gs Hgs]; [lia|].
  rewrite Hgs. cbn [mbind option_bind].
  eexists. split; [reflexivity|].
  cbn [upd game lives status pauseTimer pacman ghosts grid pelletsRemaining score round
       vulnerableUntil ghostsEatenStreak events ghostsRef
       set_pauseMessage set_pauseDuration set_pauseTimer set_status set_ghosts
       set_pacman set_lives Pacman.pos Pacman.dir Pacman.nextDir
       Pacman.set_pos Pacman.set_dir Pacman.set_nextDir].
  repeat split; try reflexivity.
  - by eapply resetGhosts_length.
  - intros i g Hi. exact (resetGhosts_lookup _ _ _ _ _ Hgs Hi).
Qed.

Lemma respawn_after_death_witness :
  exists w',
    handleDeath "TEAM" alwaysSaved (upd (set_lives 3) lastLifeWorld) = Some w'
    /\ lives (game w') = 3 - 1
    /\ status (game w') = RESPAWNING.
Proof.
  destruct (respawn_after_death "TEAM" alwaysSaved (upd (set_lives 3) lastLifeWorld))
    as (w' & H & Hl & Hs & _).
  - reflexivity.
  - cbn. lia.
  - exists w'. auto.
Defined.

(** ** Pause phases over several ticks *)

(** One tick in a countdown phase, as an equation. *)
Lemma pause_step (teamName : string) (saveReturns : nat -> bool)
    (random : nat -> Q) (time : Q) (w : World) :
  status (game w) = ROUND_STARTING \/ status (game w) = RESPAWNING ->
  update teamName saveReturns random time w
  = Some (upd (fun s =>
            let t := (pauseTimer s - (time - lastFrameTime s))%Q in
            set_status (if Qleb t 0 then PLAYING else status s)
              (set_pauseTimer t
                 (set_frameCount (frameCount s + 1) (set_lastFrameTime time s)))) w).
Proof.
  intros Hst. unfold update. cbn [upd game status set_frameCount set_lastFrameTime].
  assert (isPaused (status (game w)) = true) as ->
    by (destruct Hst as [-> | ->]; reflexivity).
  assert (InternalGameStatus_eqb (status (game w)) LEVEL_TRANSITION = false) as Hlt
    by (destruct Hst as [-> | ->]; reflexivity).
  f_equal. unfold upd, pauseTick.
  cbn [game status set_frameCount set_lastFrameTime lastFrameTime pauseTimer
       set_pauseTimer].
  rewrite Hlt. cbn [negb]. f_equal.
  destruct (Qleb _ 0); destruct (game w); reflexivity.
Qed.

(** X13.  A countdown is a pure wait.  Started in ROUND_STARTING or
    RESPAWNING, a run of ticks returns at least up to and including the
    first tick that sets PLAYING (or to its end when no tick does).  Up to
    there the player, the adversaries, the grid, the score, the lives and
    the round are as they were, no collaborator is called, no random number
    is drawn and no timer is scheduled; the frame count has grown by the
    number of ticks.  The tick that sets PLAYING is the one that leaves the
    pause timer at or below zero; while the status persists the timer it
    leaves is positive. *)
Theorem countdown_is_pure_wait (teamName : string) (saveReturns : nat -> bool)
    (random : nat -> Q) (times : list Q) (w : World) :
  status (game w) = ROUND_STARTING \/ status (game w) = RESPAWNING ->
  exists (k : nat) (w' : World),
    (k <= length times)%nat
    /\ runTicks teamName saveReturns random (take k times) w = Some w'
    /\ pacman (game w') = pacman (game w)
    /\ ghosts (game w') = ghosts (game w)
    /\ grid (game w') = grid (game w)
    /\ score (game w') = score (game w)
    /\ lives (game w') = lives (game w)
    /\ round (game w') = round (game w)
    /\ events w' = events w
    /\ draws w' = draws w
    /\ levelTimers w' = levelTimers w
    /\ frameCount (game w') = frameCount (game w) + Z.of_nat k
    /\ ((k = length times
         /\ status (game w') = status (game w)
         /\ ((0 < k)%nat -> (0 < pauseTimer (game w'))%Q))
        \/ ((0 < k)%nat
            /\ status (game w') = PLAYING
            /\ (pauseTimer (game w') <= 0)%Q)).
Proof.
  revert w. induction times as [|time times IH]; intros w Hst.
  - exists 0%nat, w. cbn [take runTicks length Z.of_nat].
    rewrite Z.add_0_r. repeat split; try reflexivity.
    left. repeat split. intros H. exfalso. revert H. apply Nat.lt_irrefl.
  - pose proof (pause_step teamName saveReturns random time w Hst) as Hstep.
    set (t := (pauseTimer (game w) - (time - lastFrameTime (game w)))%Q).
    destruct (Qleb t 0) eqn:Hlate.
    + exists 1%nat. eexists. cbn [take runTicks length]. rewrite Hstep.
      cbn [mbind option_bind].
      split; [lia|]. split; [reflexivity|].
      cbn [upd game events draws levelTimers pacman ghosts grid score lives round
           frameCount status pauseTimer set_status set_pauseTimer set_frameCount
           set_lastFrameTime].
      fold t. rewrite Hlate.
      repeat (split; [reflexivity|]).
      right. split; [lia|]. split; [reflexivity|]. by apply Qleb_le.
    + set (w1 := upd (fun s =>
                   let t := (pauseTimer s - (time - lastFrameTime s))%Q in
                   set_status (if Qleb t 0 then PLAYING else status s)
                     (set_pauseTimer t
                        (set_frameCount (frameCount s + 1) (set_lastFrameTime time s)))) w)
        in Hstep.
      assert (Hst1 : status (game w1) = status (game w)).
      { unfold w1. cbn [upd game status set_status pauseTimer lastFrameTime].
        fold t. by rewrite Hlate. }
      assert (Ht1 : pauseTimer (game w1) = t) by reflexivity.
      assert (Hfc : frameCount (game w1) = frameCount (game w) + 1) by reflexivity.
      destruct (IH w1) as (k & w' & Hk & Hrun & Hp & Hg & Hgr & Hsc & Hli & Hro & Hev
                           & Hdr & Hlt & Hfr & Hend); [by rewrite Hst1|].
      exists (S k), w'. cbn [take runTicks length]. rewrite Hstep.
      cbn [mbind option_bind].
      split; [lia|]. split; [exact Hrun|].
      split; [by rewrite Hp|]. split; [by rewrite Hg|]. split; [by rewrite Hgr|].
      split; [by rewrite Hsc|]. split; [by rewrite Hli|]. split; [by rewrite Hro|].
      split; [by rewrite Hev|]. split; [by rewrite Hdr|]. split; [by rewrite Hlt|].
      split; [rewrite Hfr, Hfc; lia|].
      destruct Hend as [(Hall & Hsame & Hpos) | (Hpos & Hplay & Hzero)].
      * left. split; [by rewrite Hall|]. split; [by rewrite Hsame|].
        intros _. destruct k as [|k]; [|apply Hpos; lia].
        cbn [take runTicks] in Hrun. injection Hrun as <-.
        rewrite Ht1. by apply Qleb_gt.
      * right. split; [lia|]. by split.
Qed.

Lemma countdown_is_pure_wait_witness :
  exists (k : nat) (w' : World),
    runTicks "TEAM" alwaysSaved oneThird
      (take k [(500 # 1)%Q; (1999 # 1)%Q; (2000 # 1)%Q; (2016 # 1)%Q]) startWorld
    = Some w'
    /\ ghosts (game w') = ghosts (game startWorld)
    /\ frameCount (game w') = frameCount (game startWorld) + Z.of_nat k.
Proof.
  destruct (countdown_is_pure_wait "TEAM" alwaysSaved oneThird
              [(500 # 1)%Q; (1999 # 1)%Q; (2000 # 1)%Q; (2016 # 1)%Q] startWorld)
    as (k & w' & _ & Hrun & _ & Hg & _ & _ & _ & _ & _ & _ & _ & Hfr & _).
  - left. reflexivity.
  - exists k, w'. split; [exact Hrun|]. split; [exact Hg | exact Hfr].
Defined.

Lemma last_default {A : Type} (l : list A) :
  forall a d d', List.last (a :: l) d = List.last (a :: l) d'.
Proof.
  induction l as [|b l IH]; intros a d d'; [reflexivity|].
  change (List.last (b :: l) d = List.last (b :: l) d'). apply IH.
Qed.

Lemma transition_step (teamName : string) (saveReturns : nat -> bool)
    (random : nat -> Q) (time : Q) (w : World) :
  status (game w) = LEVEL_TRANSITION ->
  update teamName saveReturns random time w
  = Some (upd (fun s => set_frameCount (frameCount s + 1) (set_lastFrameTime time s)) w).
Proof.
  intros Hst. unfold update. cbn [upd game status set_frameCount set_lastFrameTime].
  rewrite Hst. cbn [isPaused]. f_equal. unfold upd, pauseTick.
  cbn [game status set_frameCount set_lastFrameTime].
  rewrite Hst. reflexivity.
Qed.

(** X14.  LEVEL_TRANSITION is inert: a run of ticks in that status never
    raises and changes nothing but the frame count, raised by the number
    of ticks, and the last frame time; the pause timer too stands still. *)
Theorem transition_is_inert (teamName : string) (saveReturns : nat -> bool) (random : nat -> Q)
    (times : list Q) (w : World) :
  status (game w) = LEVEL_TRANSITION ->
  runTicks teamName saveReturns random times w
  = Some (upd (fun s =>
            set_frameCount (frameCount s + Z.of_nat (length times))
              (set_lastFrameTime (List.last times (lastFrameTime s)) s)) w).
Proof.
  revert w. induction times as [|time times IH]; intros w Hst.
  - cbn [runTicks length List.last Z.of_nat]. f_equal.
    destruct w as [s ? ? ? ?]. unfold upd. cbn [game]. f_equal.
    destruct s as [g p gh sc li ro vu st stt pr po lo cp pt pd pm fc lf].
    cbn [frameCount lastFrameTime set_frameCount set_lastFrameTime].
    by rewrite Z.add_0_r.
  - cbn [runTicks]. rewrite (transition_step _ _ _ _ _ Hst). cbn [mbind option_bind].
    rewrite IH by exact Hst. f_equal.
    destruct w as [s ? ? ? ?]. unfold upd. cbn [game]. f_equal.
    destruct s as [g p gh sc li ro vu st stt pr po lo cp pt pd pm fc lf].
    cbn [frameCount lastFrameTime set_frameCount set_lastFrameTime].
    replace (fc + 1 + Z.of_nat (length times))
      with (fc + Z.of_nat (length (time :: times)))
      by (cbn [length]; lia).
    replace (List.last times time) with (List.last (time :: times) lf)
      by (destruct times as [|q' ts]; [reflexivity | exact (last_default ts q' lf time)]).
    reflexivity.
Qed.

Lemma transition_is_inert_witness :
  runTicks "TEAM" alwaysSaved oneThird [(16 # 1)%Q; (32 # 1)%Q]
    (upd (set_status LEVEL_TRANSITION) startWorld)
  = Some (upd (fun s => set_frameCount (frameCount s + 2) (set_lastFrameTime (32 # 1) s))
            (upd (set_status LEVEL_TRANSITION) startWorld)).
Proof.
  apply (transition_is_inert "TEAM" alwaysSaved oneThird [(16 # 1)%Q; (32 # 1)%Q]
           (upd (set_status LEVEL_TRANSITION) startWorld)).
  reflexivity.
Defined.

(** ** End of round, and the running game *)

Lemma initRound_keeps (roundNum : Z) (keepScore : bool) (w w' : World) :
  initRound roundNum keepScore w = Some w' ->
  status (game w') = ROUND_STARTING
  /\ score (game w') = (if keepScore then score (game w) else 0)
  /\ lives (game w') = lives (game w)
  /\ events w' = events w
  /\ draws w' = draws w.
Proof.
  unfold initRound.
  destruct (ROUND_CONFIGS roundNum); cbn [mbind option_bind]; [|discriminate].
  destruct (scanGrid INITIAL_MAP). by intros [= <-].
Qed.

(** X15.  The callback scheduled at the end of a round.  In rounds 1 and 2
    it starts the next round: fresh maze with all 127 pellets,
    ROUND_STARTING, score and lives carried over, nothing persisted.  From
    round 3 on it calls [saveScore] with the score: when that call returns,
    the game state stays as it is and [onGameWin] follows; when it raises,
    the callback raises and [onGameWin] is never called.  A callback that
    returns has used up one pending timer. *)
Theorem round_complete_flow (teamName : string) (saveReturns : nat -> bool) (w : World) :
  (1 <= round (game w) < 3 ->
   exists w',
     levelCompleteTimeout teamName saveReturns w = Some w'
     /\ round (game w') = round (game w) + 1
     /\ status (game w') = ROUND_STARTING
     /\ grid (game w') = INITIAL_MAP
     /\ pelletsRemaining (game w') = 127
     /\ score (game w') = score (game w)
     /\ lives (game w') = lives (game w)
     /\ events w' = events w
     /\ levelTimers w' = pred (levelTimers w))
  /\ (3 <= round (game w) ->
      (saveReturns (saveCalls (events w)) = true ->
       exists w',
         levelCompleteTimeout teamName saveReturns w = Some w'
         /\ game w' = game w
         /\ events w'
            = events w ++ [SaveScore teamName (score (game w)); OnGameWin (score (game w))]
         /\ levelTimers w' = pred (levelTimers w))
      /\ (saveReturns (saveCalls (events w)) = false ->
          levelCompleteTimeout teamName saveReturns w = None)).
Proof.
  unfold levelCompleteTimeout. cbn [game events]. split; intros Hr.
  - destruct (Z.ltb_spec (round (game w)) 3); [|lia].
    destruct (initRound_total (round (game w) + 1) true
                (mkWorld (game w) (ghostsRef w) (draws w) (events w) (pred (levelTimers w))))
      as [w' Hinit]; [lia|].
    exists w'. split; [exact Hinit|].
    destruct (initRound_spec _ _ _ _ Hinit) as (_ & Hp & Hg & Ht & Hround).
    destruct (initRound_keeps _ _ _ _ Hinit) as (Hst & Hsc & Hl & He & _).
    rewrite countPellets_initial in Hp. auto 10.
  - destruct (Z.ltb_spec (round (game w)) 3); [lia|].
    split; intros ->; [|reflexivity].
    eexists. split; [reflexivity|]. auto.
Qed.

Lemma round_complete_flow_witness :
  (exists w',
     levelCompleteTimeout "TEAM" alwaysSaved (handleLevelComplete startWorld) = Some w'
     /\ round (game w') = 1 + 1
     /\ levelTimers w' = 0%nat)
  /\ (exists w',
        levelCompleteTimeout "TEAM" alwaysSaved finalWorld = Some w'
        /\ game w' = game finalWorld
        /\ events w' = events finalWorld ++ [SaveScore "TEAM" 0; OnGameWin 0])
  /\ levelCompleteTimeout "TEAM" neverSaved finalWorld = None.
Proof.
  split; [|split].
  - destruct (round_complete_flow "TEAM" alwaysSaved (handleLevelComplete startWorld))
      as [Hnext _].
    destruct Hnext as (w' & H & Hr & _ & _ & _ & _ & _ & _ & Ht); [cbn; lia|].
    exists w'. split; [exact H|]. split; [exact Hr | exact Ht].
  - destruct (round_complete_flow "TEAM" alwaysSaved finalWorld) as [_ Hlast].
    destruct Hlast as [(w' & H & Hg & He & _) _]; [cbn; lia | reflexivity|].
    exists w'. split; [exact H|]. split; [exact Hg | exact He].
  - destruct (round_complete_flow "TEAM" neverSaved finalWorld) as [_ Hlast].
    destruct Hlast as [_ Hnone]; [cbn; lia|]. apply Hnone. reflexivity.
Defined.

(** Frames of the remaining steps of a tick. *)

Lemma pauseTick_sameBoardS (delta : Q) (s : GameStateRef) :
  sameBoardS s (pauseTick delta s).
Proof.
  unfold pauseTick. destruct (negb _); [|apply sameBoardS_refl].
  cbn [pauseTimer set_pauseTimer]. destruct (Qleb _ 0); by repeat split.
Qed.

Lemma expire_sameBoardS (time : Q) (s : GameStateRef) :
  sameBoardS s (expireVulnerability time s).
Proof.
  unfold expireVulnerability. destruct (_ && _); [|apply sameBoardS_refl].
  repeat split. cbn. apply length_fmap.
Qed.

Lemma cleanPopups_sameBoardS (time : Q) (s : GameStateRef) :
  sameBoardS s (cleanPopups time s).
Proof. unfold cleanPopups. destruct (_ <? _)%nat; by repeat split. Qed.

Lemma collisionPhase_spec (teamName : string) (saveReturns : nat -> bool)
    (random : nat -> Q) (time : Q)
    (n : nat) (w w' : World) :
  collisionPhase teamName saveReturns random time w = Some w' ->
  playable n w -> playable n w'.
Proof.
  unfold collisionPhase.
  destruct (collideAll _ _ _ _ _ _) as [[w1 arr1]|] eqn:Hall; [|discriminate].
  intros [= <-]. by eapply collideAll_spec.
Qed.

Lemma collisionPhase_total (teamName : string) (saveReturns : nat -> bool)
    (random : nat -> Q) (time : Q)
    (n : nat) (w : World) :
  storeHolds saveReturns ->
  playable n w -> is_Some (collisionPhase teamName saveReturns random time w).
Proof.
  intros Hstore Hplay. unfold collisionPhase.
  destruct (collideAll_total teamName saveReturns random time (ghostsRef w) n
              (seq 0 (length (ghosts (game w)))) Hstore w (ghosts (game w)) Hplay)
    as [[w1 arr1] ->].
  cbn. eauto.
Qed.

(** What one tick does to a well-formed world. *)
Lemma tick_cases (teamName : string) (saveReturns : nat -> bool)
    (random : nat -> Q) (time : Q) (w w' : World) :
  wellFormed (game w) ->
  update teamName saveReturns random time w = Some w' ->
  wellFormed (game w')
  /\ (isPaused (status (game w)) = true -> levelTimers w' = levelTimers w)
  /\ (status (game w) = PLAYING ->
      (levelTimers w' = S (levelTimers w)
       /\ status (game w') = LEVEL_TRANSITION
       /\ pelletsRemaining (game w') = 0)
      \/ (levelTimers w' = levelTimers w /\ pelletsRemaining (game w') <> 0)).
Proof.
  intros Hwf. unfold update.
  set (w0 := upd (fun s => set_frameCount (frameCount s + 1) (set_lastFrameTime time s)) w).
  assert (Hwf0 : wellFormed (game w0)) by exact Hwf.
  change (status (game w0)) with (status (game w)).
  destruct (status (game w)) eqn:Hst; cbn [isPaused].
  1,3,4: intros [= <-];
    (split; [eapply wellFormed_sameBoardS; [exact Hwf0 | apply pauseTick_sameBoardS]|]);
    (split; [reflexivity | discriminate]).
  destruct (ROUND_CONFIGS (round (game w0))) as [config|];
    cbn [mbind option_bind]; [|discriminate].
  destruct (pacmanPhase _ (game w0)) as [s1|] eqn:Hp;
    cbn [mbind option_bind]; [|discriminate].
  apply pacmanPhase_frame in Hp.
  assert (Hwf1 : wellFormed s1) by (rewrite Hp; exact Hwf0).
  destruct (eatPellets time s1) as [s2|] eqn:He;
    cbn [mbind option_bind]; [|discriminate].
  pose proof (eatPellets_wellFormed _ _ _ Hwf1 He) as Hwf2.
  destruct (Z.eqb_spec (pelletsRemaining s2) 0) as [Hz|Hnz].
  - intros [= <-]. split; [exact Hwf2|]. split; [discriminate|].
    intros _. left. repeat split. exact Hz.
  - destruct (ghostPhase _ _ _) as [w2|] eqn:Hg;
      cbn [mbind option_bind]; [|discriminate].
    apply ghostPhase_sameBoard in Hg.
    intros Hc.
    assert (Hplay : playable (levelTimers w)
                      (upd (cleanPopups time) (upd (expireVulnerability time) w2))).
    { eapply playable_sameBoard.
      - eapply playable_sameBoard; [|exact Hg].
      split; [exact Hwf2 | split; [exact Hnz | reflexivity]].
      - split; [|reflexivity]. cbn [upd game].
        eapply sameBoardS_trans; [apply expire_sameBoardS | apply cleanPopups_sameBoardS]. }
    destruct (collisionPhase_spec _ _ _ _ _ _ _ Hc Hplay) as (Hwf' & Hnz' & Ht').
    split; [exact Hwf'|]. split; [discriminate|]. intros _. right. by split.
Qed.

Lemma update_total (teamName : string) (saveReturns : nat -> bool)
    (random : nat -> Q) (time : Q) (w : World) :
  wellFormed (game w) -> unitDraws random -> storeHolds saveReturns ->
  is_Some (update teamName saveReturns random time w).
Proof.
  intros Hwf Hrnd Hstore. unfold update.
  set (w0 := upd (fun s => set_frameCount (frameCount s + 1) (set_lastFrameTime time s)) w).
  assert (Hwf0 : wellFormed (game w0)) by exact Hwf.
  destruct (isPaused (status (game w0))); [eauto|].
  assert (is_Some (ROUND_CONFIGS (round (game w0)))) as [config ->].
  { destruct Hwf0 as (_ & _ & _ & Hr & _). unfold ROUND_CONFIGS.
    destruct (Z.eqb_spec (round (game w0)) 1); [eauto|].
    destruct (Z.eqb_spec (round (game w0)) 2); [eauto|].
    destruct (Z.eqb_spec (round (game w0)) 3); [eauto|lia]. }
  cbn [mbind option_bind].
  match goal with
  | |- context [pacmanPhase ?d (game w0)] =>
      destruct (pacmanPhase_total d (game w0)) as [s1 Hp];
        [by destruct Hwf0 as (_ & ? & _)|]
  end.
  rewrite Hp. cbn [mbind option_bind].
  apply pacmanPhase_frame in Hp.
  assert (Hwf1 : wellFormed s1) by (rewrite Hp; exact Hwf0).
  destruct (eatPellets_total time s1) as [s2 He];
    [by destruct Hwf1 as (_ & ? & _) | by destruct Hwf1 as (_ & _ & ? & _)|].
  rewrite He. cbn [mbind option_bind].
  pose proof (eatPellets_wellFormed _ _ _ Hwf1 He) as Hwf2.
  destruct (Z.eqb_spec (pelletsRemaining s2) 0) as [Hz|Hnz]; [eauto|].
  match goal with
  | |- context [ghostPhase random ?d ?w1] =>
      destruct (ghostPhase_total random d w1 Hrnd) as [w2 Hg];
        [by destruct Hwf2 as (_ & ? & _)|]
  end.
  rewrite Hg. cbn [mbind option_bind].
  apply ghostPhase_sameBoard in Hg.
  eapply (collisionPhase_total _ _ _ _ (levelTimers w)); [exact Hstore|].
  eapply playable_sameBoard.
  - eapply playable_sameBoard; [|exact Hg].
      split; [exact Hwf2 | split; [exact Hnz | reflexivity]].
  - split; [|reflexivity]. cbn [upd game].
    eapply sameBoardS_trans; [apply expire_sameBoardS | apply cleanPopups_sameBoardS].
Qed.

Lemma mount_wellFormed (now : Q) (w : World) :
  mount now = Some w -> wellFormed (game w).
Proof.
  unfold mount. intros Hmount.
  destruct (initRound 1 false _) as [w0|] eqn:Hinit;
    cbn [mbind option_bind] in Hmount; [|discriminate].
  injection Hmount as <-. apply initRound_spec in Hinit as [Hwf _]. exact Hwf.
Qed.

Lemma handleKeyDown_wellFormed (newDir : Direction) (w : World) :
  wellFormed (game w) -> wellFormed (game (handleKeyDown newDir w)).
Proof. intros Hwf. unfold handleKeyDown. destruct (negb _); exact Hwf. Qed.

Lemma levelCompleteTimeout_wellFormed (teamName : string) (saveReturns : nat -> bool)
    (w w' : World) :
  wellFormed (game w) ->
  levelCompleteTimeout teamName saveReturns w = Some w' ->
  wellFormed (game w').
Proof.
  intros Hwf Htimer.
  unfold levelCompleteTimeout in Htimer. cbn [game] in Htimer.
  destruct (round (game w) <? 3).
  - by apply initRound_spec in Htimer as [Hwf' _].
  - destruct (saveReturns _); [|discriminate]. injection Htimer as <-. exact Hwf.
Qed.

Lemma reachable_wellFormed (teamName : string) (saveReturns : nat -> bool)
    (random : nat -> Q) (w : World) :
  reachable teamName saveReturns random w -> wellFormed (game w).
Proof.
  induction 1 as [now w Hmount | time w w' _ IH Htick | newDir w _ IH
                 | w w' _ IH _ Htimer].
  - exact (mount_wellFormed now w Hmount).
  - exact (proj1 (tick_cases _ _ _ _ _ _ IH Htick)).
  - exact (handleKeyDown_wellFormed newDir w IH).
  - exact (levelCompleteTimeout_wellFormed _ _ _ _ IH Htimer).
Qed.

(** X16.  In every world the component can reach (mounting, ticks, key
    presses, level timers): the pellet counter is the number of PELLET and
    POWER_PELLET tiles of the grid, the round is 1, 2 or 3, there are at
    most six adversaries, the grid has all its rows and every recorded
    power-pellet location lies in one of them.  As long as no call of
    [saveScore] raises, a tick returns whenever the random draws lie in
    [0, 1), and so does the level-timer callback; in rounds 1 and 2 the
    callback returns whatever the store does. *)
Theorem running_game_is_sound (teamName : string) (saveReturns : nat -> bool)
    (random : nat -> Q) (w : World) :
  reachable teamName saveReturns random w ->
  pelletsRemaining (game w) = countPellets (grid (game w))
  /\ 1 <= round (game w) <= 3
  /\ (length (ghosts (game w)) <= 6)%nat
  /\ MAP_HEIGHT <= Z.of_nat (length (grid (game w)))
  /\ Forall (fun p => 0 <= tile_y p < Z.of_nat (length (grid (game w))))
       (powerPelletLocations (game w))
  /\ (storeHolds saveReturns -> unitDraws random ->
      forall time, is_Some (update teamName saveReturns random time w))
  /\ (storeHolds saveReturns \/ round (game w) < 3 ->
      is_Some (levelCompleteTimeout teamName saveReturns w)).
Proof.
  intros Hreach. pose proof (reachable_wellFormed _ _ _ _ Hreach) as Hwf.
  pose proof Hwf as (Hc & Ht & Hv & Hr & Hn).
  split; [exact Hc|]. split; [exact Hr|]. split; [exact Hn|].
  split; [exact Ht|]. split; [exact Hv|]. split.
  - intros Hstore Hrnd time. by apply update_total.
  - intros Hok. unfold levelCompleteTimeout. cbn [game events].
    destruct (Z.ltb_spec (round (game w)) 3) as [Hlt|Hge].
    + apply initRound_total. lia.
    + destruct Hok as [Hstore|Hlt]; [|lia]. rewrite Hstore. eauto.
Qed.

Lemma running_game_is_sound_witness :
  pelletsRemaining (game playWorld) = countPellets (grid (game playWorld))
  /\ is_Some (update "TEAM" alwaysSaved oneThird (2065 # 1) playWorld)
  /\ is_Some (levelCompleteTimeout "TEAM" alwaysSaved playWorld).
Proof.
  destruct (running_game_is_sound "TEAM" alwaysSaved oneThird playWorld)
    as (Hc & _ & _ & _ & _ & Hu & Ht).
  - apply (reach_tick "TEAM" alwaysSaved oneThird (2000 # 1) startWorld playWorld).
    + apply (reach_mount "TEAM" alwaysSaved oneThird 0%Q). vm_compute. reflexivity.
    + vm_compute. reflexivity.
  - split; [exact Hc|]. split.
    + apply Hu; [intros k; reflexivity | intros k; split; vm_compute; congruence].
    + apply Ht. left. intros k. reflexivity.
Defined.

(** X17.  In a running game a tick in PLAYING schedules the level timer
    exactly when it leaves the pellet counter at 0, the status is then
    LEVEL_TRANSITION, and a tick schedules at most one timer. *)
Theorem round_completes_at_zero (teamName : string) (saveReturns : nat -> bool)
    (random : nat -> Q)
    (time : Q) (w w' : World) :
  reachable teamName saveReturns random w ->
  status (game w) = PLAYING ->
  update teamName saveReturns random time w = Some w' ->
  (levelTimers w' = S (levelTimers w) <-> pelletsRemaining (game w') = 0)
  /\ (levelTimers w' = S (levelTimers w) -> status (game w') = LEVEL_TRANSITION)
  /\ (levelTimers w' = levelTimers w \/ levelTimers w' = S (levelTimers w)).
Proof.
  intros Hreach Hst Htick.
  pose proof (reachable_wellFormed _ _ _ _ Hreach) as Hwf.
  destruct (tick_cases _ _ _ _ _ _ Hwf Htick) as (_ & _ & Hplay).
  destruct (Hplay Hst) as [(Ht & Hs & Hz) | (Ht & Hnz)].
  - split; [by split|]. split; [done | by right].
  - split; [split; intros; [lia | done]|]. split; [intros; lia | by left].
Qed.

Lemma round_completes_at_zero_witness :
  levelTimers secondWorld = S (levelTimers playWorld)
  <-> pelletsRemaining (game secondWorld) = 0.
Proof.
  apply (round_completes_at_zero "TEAM" alwaysSaved oneThird (2065 # 1) playWorld secondWorld).
  - apply (reach_tick "TEAM" alwaysSaved oneThird (2000 # 1) startWorld playWorld).
    + apply (reach_mount "TEAM" alwaysSaved oneThird 0%Q). vm_compute. reflexivity.
    + vm_compute. reflexivity.
  - reflexivity.
  - vm_compute. reflexivity.
Defined.

(** ** What a tick keeps *)

Lemma sameIdentity_refl g : sameIdentity g g.
Proof. by repeat split. Qed.

Lemma eatenKept_refl gs : eatenKept gs gs.
Proof. split; [done|]. intros i g H. exists g. split; [done|]. split; [apply sameIdentity_refl | done]. Qed.

Lemma eatenKept_trans gs1 gs2 gs3 :
  eatenKept gs1 gs2 -> eatenKept gs2 gs3 -> eatenKept gs1 gs3.
Proof.
  intros [L1 H1] [L2 H2]. split; [congruence|].
  intros i g Hg. destruct (H1 i g Hg) as (g' & Hg' & (I1 & I2 & I3) & E1).
  destruct (H2 i g' Hg') as (g'' & Hg'' & (J1 & J2 & J3) & E2).
  exists g''. split; [done|]. split; [repeat split; congruence|].
  intros He. rewrite <- (E1 He). apply E2. by rewrite (E1 He).
Qed.

Lemma later_refl w : later w w.
Proof.
  split; [lia|]. split; [lia|]. split; [exists []; by rewrite app_nil_r|].
  split; [intros _; apply eatenKept_refl|]. intros H. split; [lia | done].
Qed.

Lemma later_trans w1 w2 w3 : later w1 w2 -> later w2 w3 -> later w1 w3.
Proof.
  intros (R1 & D1 & [e1 E1] & K1 & S1) (R2 & D2 & [e2 E2] & K2 & S2).
  split; [lia|]. split; [lia|].
  split; [exists (e1 ++ e2); by rewrite E2, E1, app_assoc|].
  split.
  - intros Href. eapply eatenKept_trans; [apply K1 | apply K2]; lia.
  - intros H. destruct (S1 H) as [A B]. destruct (S2 B) as [C D].
    split; [lia | done].
Qed.

(** A change of the state that leaves the adversaries' array as it is. *)
Lemma later_upd (f : GameStateRef -> GameStateRef) (w : World) :
  eatenKept (ghosts (game w)) (ghosts (f (game w))) ->
  score (game w) <= score (f (game w)) ->
  (0 <= ghostsEatenStreak (game w) -> 0 <= ghostsEatenStreak (f (game w))) ->
  later w (upd f w).
Proof.
  intros H Hs Hk. split; [cbn; lia|]. split; [cbn; lia|].
  split; [exists []; cbn; by rewrite app_nil_r|].
  split; [intros _; exact H|]. intros H0. split; [exact Hs | by apply Hk].
Qed.

Lemma eatenKept_insert gs i g g' :
  gs !! i = Some g -> sameIdentity g g' -> (Ghost.status g = EATEN -> g' = g) ->
  eatenKept gs (<[i := g']> gs).
Proof.
  intros Hi Hid He. split; [apply length_insert|].
  intros j h Hj. destruct (decide (i = j)) as [<-|Hne].
  - exists g'. rewrite list_lookup_insert_eq by (by eapply lookup_lt_Some).
    assert (h = g) as -> by congruence. done.
  - exists h. rewrite list_lookup_insert_ne by done.
    split; [done|]. split; [apply sameIdentity_refl | done].
Qed.

Lemma getNextGhostDirection_draws random draws ghost pacmanPos pacmanDir blinkyPos
    grid round d k :
  getNextGhostDirection random draws ghost pacmanPos pacmanDir blinkyPos grid round
    = Some (d, k) ->
  (draws <= k)%nat.
Proof.
  unfold getNextGhostDirection.
  destruct (getAvailableMoves ghost grid false) as [moves|];
    [|by destruct (GhostStatus_eqb _ _)].
  cbn [mbind option_bind].
  destruct (GhostStatus_eqb _ _).
  - destruct (0 <? length moves)%nat.
    + destruct (lookupZ moves _); cbn [mbind option_bind]; [|discriminate].
      intros [= _ <-]. lia.
    + intros [= _ <-]. lia.
  - destruct moves as [|first [|second rest]];
      (match goal with |- Some (?e, _) = _ -> _ => generalize e end);
      intros e [= _ <-]; lia.
Qed.

Lemma ghostLoop_later (random : nat -> Q) (fuel : nat) (blinky : option nat)
    (i : nat) :
  forall distRemaining w w',
    ghostLoop random fuel blinky i distRemaining w = Some w' ->
    (forall g, ghosts (game w) !! i = Some g -> Ghost.status g <> EATEN) ->
    later w w' /\ ghostsRef w' = ghostsRef w
    /\ (forall g, ghosts (game w') !! i = Some g -> Ghost.status g <> EATEN).
Proof.
  induction fuel as [|fuel IH]; intros distRemaining w w'; simpl.
  - intros [= <-] Hne. split; [apply later_refl | split; [done | exact Hne]].
  - destruct (negb (Qltb 0 distRemaining));
      [intros [= <-] Hne; split; [apply later_refl | split; [done | exact Hne]]|].
    destruct (ghosts (game w) !! i) as [ghost|] eqn:Hi;
      [|intros [= <-] Hne; split; [apply later_refl | split; [done | by rewrite Hi]]].
    intros H Hne. specialize (Hne ghost eq_refl).
    destruct (Qleb _ distRemaining).
    + destruct (getNextGhostDirection _ _ _ _ _ _ _ _) as [[nextDir k]|] eqn:Hdir;
        cbn [mbind option_bind] in H; [|discriminate].
      apply getNextGhostDirection_draws in Hdir. cbn in Hdir.
      apply IH in H as (H & Href & Hst).
      * split; [|split; [exact Href | exact Hst]].
        eapply later_trans; [|exact H].
        split; [cbn; lia|]. split; [cbn; lia|].
        split; [exists []; cbn; by rewrite app_nil_r|].
        split; [|cbn; intros ?; split; [lia | done]]. intros _.
        cbn. rewrite list_insert_insert_eq.
        eapply eatenKept_insert; [exact Hi| |done].
        destruct (negb _); by repeat split.
      * cbn. intros g. rewrite list_insert_insert_eq.
        rewrite list_lookup_insert_eq by (by eapply lookup_lt_Some).
        intros [= <-]. by destruct (negb _).
    + injection H as <-. split; [|split; [done|]].
      * apply later_upd; [|cbn; lia|done].
        eapply eatenKept_insert; [exact Hi| |done].
        by repeat split.
      * cbn. intros g.
        rewrite list_lookup_insert_eq by (by eapply lookup_lt_Some).
        by intros [= <-].
Qed.

Lemma moveGhost_later (random : nat -> Q) (blinky : option nat)
    (ghostMoveFactor : Q) (i : nat) (w w' : World) :
  moveGhost random blinky ghostMoveFactor i w = Some w' ->
  later w w' /\ ghostsRef w' = ghostsRef w.
Proof.
  unfold moveGhost.
  destruct (ghosts (game w) !! i) as [ghost|] eqn:Hi;
    [|intros [= <-]; split; [apply later_refl | done]].
  destruct (GhostStatus_eqb _ _) eqn:He;
    [intros [= <-]; split; [apply later_refl | done]|].
  apply GhostStatus_eqb_neq in He.
  destruct (ghostLoop _ _ _ _ _ _) as [w1|] eqn:Hloop;
    cbn [mbind option_bind]; [|discriminate].
  intros [= <-]. apply ghostLoop_later in Hloop as (Hl & Href & Hst).
  2: { intros g Hg. congruence. }
  split; [|exact Href].
  eapply later_trans; [exact Hl|].
  apply later_upd; [|cbn; lia|done]. cbn.
  split; [apply length_alter|]. intros j g Hj.
  destruct (decide (i = j)) as [<-|Hne].
  - exists (ghostTunnel g). rewrite list_lookup_alter_eq, Hj. cbn.
    split; [done|]. split; [by repeat split|].
    intros Heat. by destruct (Hst g Hj).
  - exists g. rewrite list_lookup_alter_ne by done.
    split; [done|]. split; [apply sameIdentity_refl | done].
Qed.

Lemma ghostPhase_later (random : nat -> Q) (moveFactor : Q) (w w' : World) :
  ghostPhase random moveFactor w = Some w' ->
  later w w' /\ ghostsRef w' = ghostsRef w.
Proof.
  unfold ghostPhase.
  generalize (blinkyIndex (ghosts (game w))) as blinky.
  generalize (seq 0 (length (ghosts (game w)))) as idxs.
  intros idxs blinky.
  match goal with
  | |- forIndices (moveGhost random blinky ?f) idxs w = _ -> _ => generalize f as factor
  end.
  intros factor. revert w.
  induction idxs as [|i idxs IH]; intros w; simpl.
  - intros [= <-]. split; [apply later_refl | done].
  - destruct (moveGhost random blinky factor i w) as [w1|] eqn:Hmove;
      cbn [mbind option_bind]; [|discriminate].
    intros H. apply IH in H as [H Href]. apply moveGhost_later in Hmove as [Hm Href1].
    split; [by eapply later_trans | congruence].
Qed.

Lemma eatenKept_fmap (f : GhostEntity -> GhostEntity) (gs : list GhostEntity) :
  (forall g, sameIdentity g (f g) /\ (Ghost.status g = EATEN -> f g = g)) ->
  eatenKept gs (f <$> gs).
Proof.
  intros Hf. split; [apply length_fmap|]. intros i g Hi.
  exists (f g). rewrite list_lookup_fmap, Hi. split; [done|]. apply Hf.
Qed.

Lemma frighten_kept (gs : list GhostEntity) : eatenKept gs (frighten <$> gs).
Proof.
  apply eatenKept_fmap. intros g. unfold frighten.
  destruct (Ghost.status g) eqn:E; cbn; by repeat split.
Qed.

Lemma calm_kept (gs : list GhostEntity) : eatenKept gs (calm <$> gs).
Proof.
  apply eatenKept_fmap. intros g. unfold calm.
  destruct (Ghost.status g) eqn:E; cbn; by repeat split.
Qed.

(** The pellet logic as a step of the state alone. *)
Lemma eatPellets_later (time : Q) (state state' : GameStateRef) :
  eatPellets time state = Some state' ->
  eatenKept (ghosts state) (ghosts state')
  /\ score state <= score state'
  /\ (0 <= ghostsEatenStreak state -> 0 <= ghostsEatenStreak state').
Proof.
  rewrite eatPellets_cases.
  destruct (tileUnderPlayer state) as [[pY pX]|];
    [|intros [= <-]; split; [apply eatenKept_refl | split; [lia | done]]].
  destruct (readTile (grid state) pY pX) as [item|];
    cbn [mbind option_bind]; [|discriminate].
  destruct (tileIs item TileType.PELLET).
  { intros [= <-]. cbn. split; [apply eatenKept_refl | split; [lia | done]]. }
  destruct (tileIs item TileType.POWER_PELLET);
    [|intros [= <-]; split; [apply eatenKept_refl | split; [lia | done]]].
  intros H. apply respawnLogic_keeps in H as (Hg & _ & Hk & Hs).
  rewrite Hg, Hk, Hs. cbn.
  split; [apply frighten_kept | split; [lia | done]].
Qed.

Lemma expire_later (time : Q) (w : World) : later w (upd (expireVulnerability time) w).
Proof.
  apply later_upd; unfold expireVulnerability; destruct (_ && _); cbn;
    first [apply calm_kept | apply eatenKept_refl | lia | done].
Qed.

Lemma cleanPopups_later (time : Q) (w : World) : later w (upd (cleanPopups time) w).
Proof.
  apply later_upd; unfold cleanPopups; destruct (_ <? _)%nat; cbn;
    first [apply eatenKept_refl | lia | done].
Qed.

Lemma resetGhosts_kept (gs gs' : list GhostEntity) (idx : nat) :
  resetGhosts idx gs = Some gs' -> eatenKept gs gs'.
Proof.
  intros H. split; [by eapply resetGhosts_length|].
  intros i g Hi.
  destruct (resetGhosts_lookup gs idx gs' i g H Hi) as (g' & Hg' & He & Hn).
  exists g'. split; [done|]. split; [|done].
  destruct (GhostStatus_eqb (Ghost.status g) EATEN) eqn:E.
  - apply GhostStatus_eqb_eq in E. rewrite (He E). apply sameIdentity_refl.
  - apply GhostStatus_eqb_neq in E. destruct (Hn E) as (seed & _ & ->).
    by repeat split.
Qed.

Lemma handleDeath_later (teamName : string) (saveReturns : nat -> bool) (w w' : World) :
  handleDeath teamName saveReturns w = Some w' -> later w w'.
Proof.
  unfold handleDeath. cbn [upd game lives set_lives].
  destruct (_ <=? 0).
  - unfold handleDemotionOrGameOver. cbn [upd game round set_status set_lives].
    destruct (_ =? 1).
    + destruct (saveReturns _); [|discriminate]. 
      intros [= <-]. split; [cbn; lia|]. split; [cbn; lia|].
      split; [eexists; reflexivity|].
      split; [intros _; apply eatenKept_refl|]. cbn. intros ?. split; [lia | done].
    + unfold initRound.
      destruct (ROUND_CONFIGS 1); cbn [mbind option_bind]; [|discriminate].
      destruct (scanGrid INITIAL_MAP). intros [= <-].
      split; [cbn; lia|]. split; [cbn; lia|].
      split; [exists []; cbn; by rewrite app_nil_r|].
      split; [cbn; lia|]. cbn. intros ?. split; lia.
  - unfold resetPositions. cbn [upd game ghosts set_lives].
    destruct (resetGhosts 0 (ghosts (game w))) as [gs|] eqn:Hgs;
      cbn [mbind option_bind]; [|discriminate].
    intros [= <-]. split; [cbn; lia|]. split; [cbn; lia|].
    split; [exists []; cbn; by rewrite app_nil_r|].
    split; [intros _; cbn; by eapply resetGhosts_kept|].
    cbn. intros ?. split; [lia | done].
Qed.

Lemma capture_later (random : nat -> Q) (time : Q) (live : bool) (i : nat)
    (ghost : GhostEntity) (arr : list GhostEntity) (w : World) :
  (live = true -> arr = ghosts (game w)) ->
  arr !! i = Some ghost -> Ghost.status ghost <> EATEN ->
  later w (fst (capture random time live i ghost arr w)).
Proof.
  intros Harr Hi Hne. unfold capture. cbn [fst].
  split; [destruct live; cbn; lia|]. split; [destruct live; cbn; lia|].
  split; [exists []; destruct live; cbn; by rewrite app_nil_r|].
  split.
  - intros _. destruct live; cbn; [|apply eatenKept_refl].
    rewrite <- (Harr eq_refl).
    eapply eatenKept_insert; [exact Hi | by repeat split | done].
  - intros H0.
    assert (Hk : ghostsEatenStreak (game (if live then upd (set_ghosts (<[i:=Ghost.set_status EATEN ghost]> arr)) w else w)) = ghostsEatenStreak (game w)) by (by destruct live).
    assert (Hs : score (game (if live then upd (set_ghosts (<[i:=Ghost.set_status EATEN ghost]> arr)) w else w)) = score (game w)) by (by destruct live).
    cbn. rewrite Hk, Hs.
    assert (0 <= 2 ^ (ghostsEatenStreak (game w) + 1 - 1)) by (apply Z.pow_nonneg; lia).
    split; lia.
Qed.

Lemma collideGhost_later (teamName : string) (saveReturns : nat -> bool)
    (random : nat -> Q) (time : Q)
    (arrRef i : nat) (w w' : World) (arr arr' : list GhostEntity) :
  collideGhost teamName saveReturns random time arrRef i (w, arr) = Some (w', arr') ->
  later w w'.
Proof.
  unfold collideGhost. intros H.
  set (live := (ghostsRef w =? arrRef)%nat) in *.
  set (cur := if live then ghosts (game w) else arr) in *.
  destruct (cur !! i) as [ghost|] eqn:Hi; [|injection H as <- <-; apply later_refl].
  destruct (GhostStatus_eqb (Ghost.status ghost) EATEN) eqn:He;
    [injection H as <- <-; apply later_refl|].
  apply GhostStatus_eqb_neq in He.
  destruct (collides ghost (pacman (game w))); [|injection H as <- <-; apply later_refl].
  destruct (GhostStatus_eqb (Ghost.status ghost) VULNERABLE).
  - assert (Hl : later w (fst (capture random time live i ghost cur w))).
    { apply capture_later; [|done|done]. intros Hlive. unfold cur. by rewrite Hlive. }
    destruct (capture random time live i ghost cur w) as [w1 arr1].
    by injection H as <- <-.
  - destruct (handleDeath teamName saveReturns w) as [w1|] eqn:Hdeath;
      cbn [mbind option_bind] in H; [|discriminate].
    injection H as <- <-. by eapply handleDeath_later.
Qed.

Lemma collideAll_later (teamName : string) (saveReturns : nat -> bool)
    (random : nat -> Q) (time : Q)
    (arrRef : nat) (idxs : list nat) :
  forall w arr w' arr',
    collideAll teamName saveReturns random time arrRef idxs (w, arr) = Some (w', arr') ->
    later w w'.
Proof.
  induction idxs as [|i idxs IH]; intros w arr w' arr'; cbn [collideAll].
  - intros [= <- <-]. apply later_refl.
  - destruct (collideGhost teamName saveReturns random time arrRef i (w, arr)) as [[w1 arr1]|]
      eqn:Hstep; cbn [mbind option_bind]; [|intros [=]].
    intros H. eapply later_trans; [by eapply collideGhost_later | by eapply IH].
Qed.

Lemma update_later (teamName : string) (saveReturns : nat -> bool)
    (random : nat -> Q) (time : Q) (w w' : World) :
  update teamName saveReturns random time w = Some w' -> later w w'.
Proof.
  unfold update.
  set (w0 := upd (fun s => set_frameCount (frameCount s + 1) (set_lastFrameTime time s)) w).
  assert (H0 : later w w0).
  { apply later_upd; cbn; [apply eatenKept_refl | lia | done]. }
  destruct (isPaused (status (game w0))).
  { intros [= <-]. eapply later_trans; [exact H0|].
    apply later_upd.
    - unfold pauseTick. destruct (negb _); [|apply eatenKept_refl].
      cbn [pauseTimer set_pauseTimer]. destruct (Qleb _ 0); apply eatenKept_refl.
    - unfold pauseTick. destruct (negb _); [|lia].
      cbn [pauseTimer set_pauseTimer]. destruct (Qleb _ 0); cbn; lia.
    - unfold pauseTick. destruct (negb _); [|done].
      cbn [pauseTimer set_pauseTimer]. by destruct (Qleb _ 0). }
  destruct (ROUND_CONFIGS (round (game w0))) as [config|];
    cbn [mbind option_bind]; [|discriminate].
  destruct (pacmanPhase _ (game w0)) as [s1|] eqn:Hp;
    cbn [mbind option_bind]; [|discriminate].
  apply pacmanPhase_frame in Hp.
  destruct (eatPellets time s1) as [s2|] eqn:He;
    cbn [mbind option_bind]; [|discriminate].
  apply eatPellets_later in He as (Hk & Hs & Hstreak).
  assert (H2 : later w0 (upd (fun _ => s2) w0)).
  { apply later_upd; rewrite Hp in Hk, Hs, Hstreak; done. }
  destruct (pelletsRemaining s2 =? 0).
  - intros [= <-]. eapply later_trans; [exact H0|].
    eapply later_trans; [exact H2|].
    unfold handleLevelComplete.
    split; [cbn; lia|]. split; [cbn; lia|].
    split; [exists []; cbn; by rewrite app_nil_r|].
    split; [intros _; apply eatenKept_refl|]. cbn. intros ?. split; [lia | done].
  - destruct (ghostPhase _ _ _) as [w2|] eqn:Hg;
      cbn [mbind option_bind]; [|discriminate].
    apply ghostPhase_later in Hg as [Hg _].
    unfold collisionPhase.
    destruct (collideAll _ _ _ _ _ _) as [[w3 arr3]|] eqn:Hall; [|discriminate].
    intros [= <-]. apply collideAll_later in Hall.
    eapply later_trans; [exact H0|].
    eapply later_trans; [exact H2|].
    eapply later_trans; [exact Hg|].
    eapply later_trans; [apply expire_later|].
    eapply later_trans; [apply cleanPopups_later|].
    exact Hall.
Qed.

Lemma initRound_streak (roundNum : Z) (keepScore : bool) (w w' : World) :
  initRound roundNum keepScore w = Some w' ->
  ghostsEatenStreak (game w') = 0.
Proof.
  unfold initRound.
  destruct (ROUND_CONFIGS roundNum); cbn [mbind option_bind]; [|discriminate].
  destruct (scanGrid INITIAL_MAP). by intros [= <-].
Qed.

Lemma mount_inv (now : Q) (w : World) :
  mount now = Some w ->
  exists w0,
    initRound 1 false (mkWorld mountState 0 0 [] 0) = Some w0
    /\ w = upd (set_lastFrameTime now) w0.
Proof.
  unfold mount. intros Hmount.
  destruct (initRound 1 false _) as [w0|] eqn:Hinit;
    cbn [mbind option_bind] in Hmount; [|discriminate].
  injection Hmount as <-. exists w0. split; reflexivity.
Qed.

(** Streak and score of a running game are never negative. *)
Lemma reachable_streak (teamName : string) (saveReturns : nat -> bool)
    (random : nat -> Q) (w : World) :
  reachable teamName saveReturns random w ->
  0 <= ghostsEatenStreak (game w) /\ 0 <= score (game w).
Proof.
  induction 1 as [now w Hmount | time w w' _ IH Htick | newDir w _ IH
                 | w w' _ IH _ Htimer].
  - apply mount_inv in Hmount as (w0 & Hinit & ->).
    pose proof (initRound_streak _ _ _ _ Hinit) as Hk.
    apply initRound_keeps in Hinit as (_ & Hs & _).
    change (0 <= ghostsEatenStreak (game w0) /\ 0 <= score (game w0)).
    rewrite Hk, Hs. lia.
  - destruct (update_later _ _ _ _ _ _ Htick) as (_ & _ & _ & _ & Hs).
    destruct IH as [Hk H0]. destruct (Hs Hk). lia.
  - unfold handleKeyDown. destruct (negb _); exact IH.
  - unfold levelCompleteTimeout in Htimer. cbn [game] in Htimer.
    destruct (round (game w) <? 3).
    + pose proof (initRound_streak _ _ _ _ Htimer) as Hk.
      apply initRound_keeps in Htimer as (_ & Hs & _).
      rewrite Hk, Hs. cbn [game score]. lia.
    + destruct (saveReturns _); [|discriminate]. injection Htimer as <-. exact IH.
Qed.

(** X18.  An adversary that is EATEN stays out for the rest of the round.
    In a tick that leaves the adversaries' array in place (no restart
    from round 1), the array keeps its length, every adversary keeps its
    identity, colour and start tile, and an adversary that was EATEN
    before the tick is exactly the same after it: it is not moved, not
    frightened, not calmed, not captured and not sent back to its start
    tile by a death. *)
Theorem eaten_stay_out (teamName : string) (saveReturns : nat -> bool)
    (random : nat -> Q) (time : Q)
    (w w' : World) :
  update teamName saveReturns random time w = Some w' ->
  ghostsRef w' = ghostsRef w ->
  length (ghosts (game w')) = length (ghosts (game w))
  /\ forall i g,
       ghosts (game w) !! i = Some g ->
       exists g',
         ghosts (game w') !! i = Some g'
         /\ Ghost.id g' = Ghost.id g
         /\ Ghost.color g' = Ghost.color g
         /\ Ghost.startPos g' = Ghost.startPos g
         /\ (Ghost.status g = EATEN -> g' = g).
Proof.
  intros Htick Href.
  destruct (update_later _ _ _ _ _ _ Htick) as (_ & _ & _ & Hk & _).
  destruct (Hk Href) as [Hlen Hall]. split; [exact Hlen|].
  intros i g Hi. destruct (Hall i g Hi) as (g' & Hg' & (I1 & I2 & I3) & He).
  exists g'. auto.
Qed.

Lemma eaten_stay_out_witness :
  exists g',
    ghosts (game captureWorld) !! 2%nat = Some g'
    /\ g' = Ghost.mk 3 (tilePos 10 8) "bg-cyan-400" (tilePos 10 8) UP EATEN.
Proof.
  destruct (eaten_stay_out "TEAM" alwaysSaved oneThird (13 # 1) thirdCaptureWorld captureWorld)
    as [_ H].
  - vm_compute. reflexivity.
  - reflexivity.
  - destruct (H 2%nat (Ghost.mk 3 (tilePos 10 8) "bg-cyan-400" (tilePos 10 8) UP EATEN))
      as (g' & Hg' & _ & _ & _ & He).
    + reflexivity.
    + exists g'. split; [exact Hg' | apply He; reflexivity].
Defined.

(** X19.  The score of a running game never drops.  In every world the
    component can reach, score and capture streak are not negative; a tick
    leaves the score as it is or raises it, also when the player dies, is
    sent back to round 1 or completes the round; a key press and the
    level-timer callback leave it as it is.  Only mounting resets it. *)
Theorem score_never_drops (teamName : string) (saveReturns : nat -> bool)
    (random : nat -> Q) (w : World) :
  reachable teamName saveReturns random w ->
  0 <= score (game w)
  /\ 0 <= ghostsEatenStreak (game w)
  /\ (forall time w',
        update teamName saveReturns random time w = Some w' ->
        score (game w) <= score (game w'))
  /\ (forall newDir, score (game (handleKeyDown newDir w)) = score (game w))
  /\ (forall w',
        levelCompleteTimeout teamName saveReturns w = Some w' ->
        score (game w') = score (game w)).
Proof.
  intros Hreach. destruct (reachable_streak _ _ _ _ Hreach) as [Hk Hs].
  split; [exact Hs|]. split; [exact Hk|]. split; [|split].
  - intros time w' Htick.
    destruct (update_later _ _ _ _ _ _ Htick) as (_ & _ & _ & _ & H).
    by destruct (H Hk).
  - intros newDir. unfold handleKeyDown. by destruct (negb _).
  - intros w'. unfold levelCompleteTimeout. cbn [game].
    destruct (round (game w) <? 3).
    + intros H. by apply initRound_keeps in H as (_ & -> & _).
    + destruct (saveReturns _); [|discriminate]. by intros [= <-].
Qed.

Lemma score_never_drops_witness :
  score (game playWorld) <= score (game secondWorld).
Proof.
  destruct (score_never_drops "TEAM" alwaysSaved oneThird playWorld) as (_ & _ & H & _).
  - apply (reach_tick "TEAM" alwaysSaved oneThird (2000 # 1) startWorld playWorld).
    + apply (reach_mount "TEAM" alwaysSaved oneThird 0%Q). vm_compute. reflexivity.
    + vm_compute. reflexivity.
  - apply (H (2065 # 1)). vm_compute. reflexivity.
Defined.

Lemma collideAll_killers (teamName : string) (saveReturns : nat -> bool)
    (random : nat -> Q) (time : Q)
    (arrRef : nat) (m : nat) :
  storeHolds saveReturns ->
  forall j w arr,
    ghostsRef w = arrRef -> round (game w) = 1 -> lives (game w) <= 1 ->
    exists w' arr' scores,
      collideAll teamName saveReturns random time arrRef (seq j m) (w, arr) = Some (w', arr')
      /\ length scores
         = killers (pacman (game w)) (take m (drop j (ghosts (game w))))
      /\ events w' = events w ++ gameOverCalls teamName scores
      /\ lives (game w') = lives (game w) - Z.of_nat (length scores)
      /\ status (game w')
         = match scores with [] => status (game w) | _ :: _ => LEVEL_TRANSITION end.
Proof.
  intros Hstore.
  induction m as [|m IH]; intros j w arr Href Hround Hlives.
  - exists w, arr, []. cbn. rewrite app_nil_r. repeat split; lia.
  - cbn [seq collideAll]. unfold collideGhost.
    rewrite Href, Nat.eqb_refl.
    destruct (ghosts (game w) !! j) as [ghost|] eqn:Hj.
    2: { cbn [mbind option_bind].
         destruct (IH (S j) w (ghosts (game w)) Href Hround Hlives)
           as (w' & arr' & scores & Hrun & Hlen & Hev & Hli & Hst).
         exists w', arr', scores. split; [exact Hrun|].
         split; [|done].
         rewrite Hlen. apply lookup_ge_None in Hj.
         rewrite !drop_ge by lia. by rewrite !take_nil. }
    rewrite (drop_S _ _ _ Hj). cbn [take]. unfold killers. cbn [List.filter].
    unfold isKiller at 1.
    destruct (Ghost.status ghost) eqn:Hstatus; cbn [GhostStatus_eqb andb].
    + (* NORMAL *)
      destruct (collides ghost (pacman (game w))) eqn:Hc.
      * unfold handleDeath, handleDemotionOrGameOver.
        cbn [upd game lives set_lives round set_status score events].
        destruct (Z.leb_spec (lives (game w) - 1) 0) as [_|]; [|lia].
        rewrite Hround, Hstore. cbn [Z.eqb Pos.eqb mbind option_bind].
        match goal with
        | |- context [collideAll _ _ _ _ _ _ (?w1, _)] =>
            destruct (IH (S j) w1 (ghosts (game w))) as
              (w' & arr' & scores & Hrun & Hlen & Hev & Hli & Hst)
        end; [done | done | cbn; lia |].
        exists w', arr', (score (game w) :: scores).
        split; [exact Hrun|]. cbn in Hlen, Hev, Hli, Hst |- *.
        split; [by rewrite Hlen|]. split; [by rewrite Hev, <- app_assoc|].
        split; [lia|]. by destruct scores.
      * cbn [mbind option_bind].
        destruct (IH (S j) w (ghosts (game w)) Href Hround Hlives)
          as (w' & arr' & scores & Hrun & Hlen & Hev & Hli & Hst).
        exists w', arr', scores. done.
    + (* VULNERABLE *)
      destruct (collides ghost (pacman (game w))) eqn:Hc.
      * cbn [mbind option_bind]. unfold capture.
        match goal with
        | |- context [collideAll _ _ _ _ _ _ (?w1, ?a1)] =>
            destruct (IH (S j) w1 a1) as
              (w' & arr' & scores & Hrun & Hlen & Hev & Hli & Hst)
        end; [done | done | cbn; lia |].
        exists w', arr', scores. split; [exact Hrun|].
        cbn in Hlen, Hev, Hli, Hst |- *.
        rewrite drop_insert_lt in Hlen by lia. done.
      * cbn [mbind option_bind].
        destruct (IH (S j) w (ghosts (game w)) Href Hround Hlives)
          as (w' & arr' & scores & Hrun & Hlen & Hev & Hli & Hst).
        exists w', arr', scores. done.
    + (* EATEN *)
      cbn [mbind option_bind].
      destruct (IH (S j) w (ghosts (game w)) Href Hround Hlives)
        as (w' & arr' & scores & Hrun & Hlen & Hev & Hli & Hst).
      exists w', arr', scores. done.
Qed.

(** The collision test is made on the computed distance: on the rim of
    the disc an adversary closer than one half does not collide. *)
Lemma rim_is_no_collision :
  let dx := (pos_x (Ghost.pos rimGhost) - pos_x (Pacman.pos rimPlayer))%Q in
  let dy := (pos_y (Ghost.pos rimGhost) - pos_y (Pacman.pos rimPlayer))%Q in
  (dx * dx + dy * dy < 1 # 4)%Q
  /\ collides rimGhost rimPlayer = false
  /\ killers rimPlayer [rimGhost] = 0%nat.
Proof. repeat split; vm_compute; reflexivity. Qed.

Lemma killers_cons (p : Pacman.t) (g : GhostEntity) (gs : list GhostEntity) :
  killers p (g :: gs)
  = if isKiller p g then S (killers p gs) else killers p gs.
Proof. unfold killers. cbn [List.filter]. by destruct (isKiller p g). Qed.

(** The pass ends at the first killer when the save raises there. *)
Lemma collideAll_raises (teamName : string) (saveReturns : nat -> bool)
    (random : nat -> Q) (time : Q)
    (arrRef : nat) (m : nat) :
  forall j w arr,
    ghostsRef w = arrRef -> round (game w) = 1 -> lives (game w) <= 1 ->
    saveReturns (saveCalls (events w)) = false ->
    (0 < killers (pacman (game w)) (take m (drop j (ghosts (game w)))))%nat ->
    collideAll teamName saveReturns random time arrRef (seq j m) (w, arr) = None.
Proof.
  induction m as [|m IH]; intros j w arr Href Hround Hlives Hsave Hk.
  - rewrite take_0 in Hk. exfalso. revert Hk. apply Nat.lt_irrefl.
  - cbn [seq collideAll]. unfold collideGhost.
    rewrite Href, Nat.eqb_refl.
    destruct (ghosts (game w) !! j) as [ghost|] eqn:Hj.
    2: { apply lookup_ge_None in Hj. rewrite drop_ge in Hk by lia.
         rewrite take_nil in Hk. exfalso. revert Hk. apply Nat.lt_irrefl. }
    rewrite (drop_S _ _ _ Hj), firstn_cons, killers_cons in Hk.
    unfold isKiller in Hk.
    destruct (Ghost.status ghost) eqn:Hstatus.
    + (* NORMAL *)
      destruct (collides ghost (pacman (game w))) eqn:Hc.
      * unfold handleDeath, handleDemotionOrGameOver.
        cbn [upd game lives set_lives round set_status score events].
        destruct (Z.leb_spec (lives (game w) - 1) 0) as [_|]; [|lia].
        rewrite Hround, Hsave. reflexivity.
      * cbn [mbind option_bind]. by apply IH.
    + (* VULNERABLE *)
      destruct (collides ghost (pacman (game w))) eqn:Hc.
      * cbn [mbind option_bind]. unfold capture.
        apply IH; [done | done | exact Hlives | exact Hsave |].
        cbn -[killers]. rewrite drop_insert_lt by lia. exact Hk.
      * cbn [mbind option_bind]. by apply IH.
    + (* EATEN *)
      cbn [mbind option_bind]. by apply IH.
Qed.

(** X20.  The collision pass does not stop at a death.  An adversary is
    within the collision distance when the distance the code computes in
    double precision is below 0.5.  In round 1 on the last life (at most
    one life left), whatever the adversaries, with [k] the number of NORMAL
    adversaries within the collision distance of the player when the pass
    starts: as long as no call of [saveScore] raises, the pass returns and
    [handleDeath] runs [k] times, so [k] lives are taken and [k] pairs of
    [saveScore] and [onGameOver] calls are issued, nothing else; with
    [k = 0] the status is unchanged, otherwise it is LEVEL_TRANSITION.  Two
    killers on the player thus persist the score twice.  When [k] is not 0
    and the next call of [saveScore] raises, the pass raises. *)
Theorem every_killer_counts (teamName : string) (saveReturns : nat -> bool)
    (random : nat -> Q) (time : Q)
    (w : World) :
  round (game w) = 1 -> lives (game w) <= 1 ->
  (storeHolds saveReturns ->
   exists w' scores,
     collisionPhase teamName saveReturns random time w = Some w'
     /\ length scores = killers (pacman (game w)) (ghosts (game w))
     /\ events w' = events w ++ gameOverCalls teamName scores
     /\ lives (game w') = lives (game w) - Z.of_nat (length scores)
     /\ status (game w')
        = match scores with [] => status (game w) | _ :: _ => LEVEL_TRANSITION end)
  /\ (saveReturns (saveCalls (events w)) = false ->
      (0 < killers (pacman (game w)) (ghosts (game w)))%nat ->
      collisionPhase teamName saveReturns random time w = None).
Proof.
  intros Hround Hlives. unfold collisionPhase. split.
  - intros Hstore.
    destruct (collideAll_killers teamName saveReturns random time (ghostsRef w)
                (length (ghosts (game w))) Hstore 0 w (ghosts (game w))
                eq_refl Hround Hlives)
      as (w' & arr' & scores & Hrun & Hlen & Hev & Hli & Hst).
    exists w', scores. rewrite Hrun. split; [reflexivity|].
    rewrite drop_0, firstn_all in Hlen. done.
  - intros Hsave Hk.
    rewrite (collideAll_raises teamName saveReturns random time (ghostsRef w)
               (length (ghosts (game w))) 0 w (ghosts (game w))
               eq_refl Hround Hlives Hsave); [reflexivity|].
    by rewrite drop_0, firstn_all.
Qed.

Lemma every_killer_counts_witness :
  (exists w',
     collisionPhase "TEAM" alwaysSaved oneThird (2016 # 1) lastLifeWorld = Some w'
     /\ events w'
        = [SaveScore "TEAM" 10; OnGameOver 10; SaveScore "TEAM" 10; OnGameOver 10]
     /\ lives (game w') = -1)
  /\ collisionPhase "TEAM" neverSaved oneThird (2016 # 1) lastLifeWorld = None.
Proof.
  split.
  - destruct (every_killer_counts "TEAM" alwaysSaved oneThird (2016 # 1) lastLifeWorld)
      as [Hall _].
    + reflexivity.
    + vm_compute. discriminate.
    + destruct Hall as (w' & scores & Hrun & Hlen & Hev & Hli & _).
      * intros k. reflexivity.
      * exists w'. split; [exact Hrun|].
        vm_compute in Hrun. injection Hrun as <-. split; reflexivity.
  - destruct (every_killer_counts "TEAM" neverSaved oneThird (2016 # 1) lastLifeWorld)
      as [_ Hnone].
    + reflexivity.
    + vm_compute. discriminate.
    + apply Hnone; [reflexivity | vm_compute; lia].
Defined.

Lemma moved_refl g : moved g g.
Proof. by destruct g. Qed.

Lemma moved_status g g' : moved g g' -> Ghost.status g' = Ghost.status g.
Proof. intros ->. reflexivity. Qed.

Lemma moved_trans g1 g2 g3 : moved g1 g2 -> moved g2 g3 -> moved g1 g3.
Proof. unfold moved. intros H1 H2. rewrite H2, H1. reflexivity. Qed.

Lemma onlyMoved_refl gs : onlyMoved gs gs.
Proof.
  split; [done|]. intros i g H. exists g.
  split; [done|]. split; [apply moved_refl | done].
Qed.

Lemma onlyMoved_trans gs1 gs2 gs3 :
  onlyMoved gs1 gs2 -> onlyMoved gs2 gs3 -> onlyMoved gs1 gs3.
Proof.
  intros [L1 H1] [L2 H2]. split; [congruence|].
  intros i g Hg. destruct (H1 i g Hg) as (g' & Hg' & M1 & E1).
  destruct (H2 i g' Hg') as (g'' & Hg'' & M2 & E2).
  exists g''. split; [done|]. split; [by eapply moved_trans|].
  intros He. rewrite <- (E1 He). apply E2. by rewrite (E1 He).
Qed.

Lemma onlyMoved_insert gs i g g' :
  gs !! i = Some g -> moved g g' -> Ghost.status g <> EATEN ->
  onlyMoved gs (<[i := g']> gs).
Proof.
  intros Hi Hm Hne. split; [apply length_insert|].
  intros j h Hj. destruct (decide (i = j)) as [<-|Hneq].
  - exists g'. rewrite list_lookup_insert_eq by (by eapply lookup_lt_Some).
    assert (h = g) as -> by congruence. done.
  - exists h. rewrite list_lookup_insert_ne by done.
    split; [done|]. split; [apply moved_refl | done].
Qed.

Lemma noneVulnerable_moved gs gs' :
  onlyMoved gs gs' -> noneVulnerable gs -> noneVulnerable gs'.
Proof.
  intros [Hlen H] Hn i g' Hi.
  destruct (lookup_lt_is_Some_2 gs i) as [g Hg].
  { rewrite <- Hlen. by eapply lookup_lt_Some. }
  destruct (H i g Hg) as (g'' & Hg'' & Hm & _).
  assert (g'' = g') as -> by congruence.
  rewrite (moved_status _ _ Hm). by eapply Hn.
Qed.

Lemma ghostStep_refl w : ghostStep w w.
Proof.
  split; [by destruct w as [[] ? ? ? ?]|]. split; [done|]. split; [done|].
  split; [done|]. split; [apply onlyMoved_refl | lia].
Qed.

Lemma ghostStep_trans w1 w2 w3 : ghostStep w1 w2 -> ghostStep w2 w3 -> ghostStep w1 w3.
Proof.
  intros (F1 & R1 & E1 & T1 & M1 & D1) (F2 & R2 & E2 & T2 & M2 & D2).
  split; [rewrite F2, F1; reflexivity|].
  split; [congruence|]. split; [congruence|]. split; [congruence|].
  split; [by eapply onlyMoved_trans | lia].
Qed.

Lemma ghostStep_set (w : World) (i : nat) (g g' : GhostEntity) (k : nat) :
  ghosts (game w) !! i = Some g -> moved g g' -> Ghost.status g <> EATEN ->
  (draws w <= k)%nat ->
  ghostStep w (set_draws k (upd (fun s => set_ghosts (<[i := g']> (ghosts s)) s) w)).
Proof.
  intros Hi Hm Hne Hk. split; [reflexivity|]. split; [reflexivity|].
  split; [reflexivity|]. split; [reflexivity|].
  split; [by eapply onlyMoved_insert | exact Hk].
Qed.

Lemma getNextGhostDirection_uses (random : nat -> Q) (draws : nat)
    (ghost : GhostEntity) (pacmanPos : Position) (pacmanDir : Direction)
    (blinkyPos : Position) (grid : Grid) (round : Z) (d : Direction) (k : nat) :
  getNextGhostDirection random draws ghost pacmanPos pacmanDir blinkyPos grid round
    = Some (d, k) ->
  (draws <= k <= S draws)%nat
  /\ (Ghost.status ghost <> VULNERABLE -> k = draws).
Proof.
  unfold getNextGhostDirection.
  destruct (getAvailableMoves ghost grid false) as [moves|];
    [|by destruct (GhostStatus_eqb _ _)].
  cbn [mbind option_bind].
  destruct (GhostStatus_eqb _ _) eqn:Hv.
  - apply GhostStatus_eqb_eq in Hv. destruct (0 <? length moves)%nat.
    + destruct (lookupZ moves _); cbn [mbind option_bind]; [|discriminate].
      intros [= _ <-]. split; [lia | done].
    + intros [= _ <-]. split; [lia | done].
  - destruct moves as [|first [|second rest]];
      (match goal with |- Some (?e, _) = _ -> _ => generalize e end);
      intros e [= _ <-]; split; first [lia | done].
Qed.

Lemma ghostLoop_step (random : nat -> Q) (fuel : nat) (blinky : option nat)
    (i : nat) :
  forall distRemaining w w',
    ghostLoop random fuel blinky i distRemaining w = Some w' ->
    (forall g, ghosts (game w) !! i = Some g -> Ghost.status g <> EATEN) ->
    ghostStep w w'
    /\ (draws w' <= draws w + fuel)%nat
    /\ ((forall g, ghosts (game w) !! i = Some g -> Ghost.status g <> VULNERABLE) ->
        draws w' = draws w).
Proof.
  induction fuel as [|fuel IH]; intros distRemaining w w'; simpl.
  - intros [= <-] _. split; [apply ghostStep_refl|]. split; [lia | done].
  - destruct (negb (Qltb 0 distRemaining));
      [intros [= <-] _; split; [apply ghostStep_refl|]; split; [lia | done]|].
    destruct (ghosts (game w) !! i) as [ghost|] eqn:Hi;
      [|intros [= <-] _; split; [apply ghostStep_refl|]; split; [lia | done]].
    intros H Hne. specialize (Hne ghost eq_refl).
    destruct (Qleb _ distRemaining).
    + destruct (getNextGhostDirection _ _ _ _ _ _ _ _) as [[nextDir k]|] eqn:Hdir;
        cbn [mbind option_bind] in H; [|discriminate].
      apply getNextGhostDirection_uses in Hdir as [Hk Hsame].
      cbn [draws upd Ghost.status Ghost.set_pos] in Hk, Hsame.
      apply IH in H as (Hstep & Hfuel & Hquiet).
      * cbn [draws set_draws upd] in Hfuel, Hquiet.
        split; [|split].
        -- eapply ghostStep_trans; [|exact Hstep].
           split; [reflexivity|]. split; [reflexivity|]. split; [reflexivity|].
           split; [reflexivity|]. split; [|cbn; lia].
           cbn. rewrite list_insert_insert_eq.
           eapply onlyMoved_insert; [exact Hi| |exact Hne].
           unfold moved. by destruct (negb _).
        -- lia.
        -- intros Hnv. rewrite Hquiet.
           ++ apply Hsame. by apply Hnv.
           ++ cbn. intros g. rewrite list_insert_insert_eq.
              rewrite list_lookup_insert_eq by (by eapply lookup_lt_Some).
              intros [= <-]. specialize (Hnv ghost eq_refl). by destruct (negb _).
      * cbn. intros g. rewrite list_insert_insert_eq.
        rewrite list_lookup_insert_eq by (by eapply lookup_lt_Some).
        intros [= <-]. by destruct (negb _).
    + injection H as <-. split; [|split; [cbn; lia | done]].
      split; [reflexivity|]. split; [reflexivity|]. split; [reflexivity|].
      split; [reflexivity|]. split; [|cbn; lia].
      cbn. eapply onlyMoved_insert; [exact Hi | reflexivity | exact Hne].
Qed.

Lemma moveGhost_step (random : nat -> Q) (blinky : option nat)
    (ghostMoveFactor : Q) (i : nat) (w w' : World) :
  moveGhost random blinky ghostMoveFactor i w = Some w' ->
  ghostStep w w'
  /\ (draws w' <= draws w + 2)%nat
  /\ (noneVulnerable (ghosts (game w)) -> draws w' = draws w).
Proof.
  unfold moveGhost.
  destruct (ghosts (game w) !! i) as [ghost|] eqn:Hi;
    [|intros [= <-]; split; [apply ghostStep_refl|]; split; [lia | done]].
  destruct (GhostStatus_eqb _ _) eqn:He;
    [intros [= <-]; split; [apply ghostStep_refl|]; split; [lia | done]|].
  apply GhostStatus_eqb_neq in He.
  destruct (ghostLoop _ _ _ _ _ _) as [w1|] eqn:Hloop;
    cbn [mbind option_bind]; [|discriminate].
  intros [= <-]. apply ghostLoop_step in Hloop as (Hstep & Hfuel & Hquiet).
  2: { intros g Hg. congruence. }
  split; [|split].
  - eapply ghostStep_trans; [exact Hstep|].
    split; [reflexivity|]. split; [reflexivity|]. split; [reflexivity|].
    split; [reflexivity|]. split; [|cbn; lia]. cbn.
    split; [apply length_alter|]. intros j g Hj.
    destruct (decide (i = j)) as [<-|Hne].
    + exists (ghostTunnel g). rewrite list_lookup_alter_eq, Hj. cbn.
      split; [done|]. split; [reflexivity|].
      intros Heat. exfalso.
      destruct Hstep as (_ & _ & _ & _ & [_ Hm] & _).
      destruct (Hm i ghost Hi) as (g' & Hg' & Hmv & _).
      assert (g' = g) as -> by congruence.
      apply moved_status in Hmv. congruence.
    + exists g. rewrite list_lookup_alter_ne by done.
      split; [done|]. split; [apply moved_refl | done].
  - exact Hfuel.
  - intros Hnv. apply Hquiet. intros g Hg. by eapply Hnv.
Qed.

Lemma forIndices_step (random : nat -> Q) (blinky : option nat) (factor : Q)
    (idxs : list nat) :
  forall w w',
    forIndices (moveGhost random blinky factor) idxs w = Some w' ->
    ghostStep w w'
    /\ (draws w' <= draws w + 2 * length idxs)%nat
    /\ (noneVulnerable (ghosts (game w)) -> draws w' = draws w).
Proof.
  induction idxs as [|i idxs IH]; intros w w'; simpl.
  - intros [= <-]. split; [apply ghostStep_refl|]. split; [lia | done].
  - destruct (moveGhost random blinky factor i w) as [w1|] eqn:Hmove;
      cbn [mbind option_bind]; [|discriminate].
    intros H. apply IH in H as (H & Hd & Hq).
    apply moveGhost_step in Hmove as (Hm & Hd1 & Hq1).
    split; [by eapply ghostStep_trans|]. split; [lia|].
    intros Hnv. rewrite Hq, Hq1; [done | done |].
    destruct Hm as (_ & _ & _ & _ & Hm & _). by eapply noneVulnerable_moved.
Qed.

(** X21.  The adversary phase of a tick only moves adversaries.  It
    changes nothing in the game state but the adversaries' array, which
    keeps its length; of an adversary it changes at most position and
    direction, never identity, colour, start tile or status, and an EATEN
    adversary not at all; it issues no collaborator call and schedules no
    timer.  It consults the random generator at most twice per adversary,
    and not at all when no adversary is VULNERABLE: the chase is
    deterministic. *)
Theorem adversary_phase_frame (random : nat -> Q) (moveFactor : Q) (w w' : World) :
  ghostPhase random moveFactor w = Some w' ->
  game w' = set_ghosts (ghosts (game w')) (game w)
  /\ ghostsRef w' = ghostsRef w
  /\ events w' = events w
  /\ levelTimers w' = levelTimers w
  /\ length (ghosts (game w')) = length (ghosts (game w))
  /\ (forall i g,
        ghosts (game w) !! i = Some g ->
        exists g',
          ghosts (game w') !! i = Some g'
          /\ g' = Ghost.set_direction (Ghost.direction g')
                    (Ghost.set_pos (Ghost.pos g') g)
          /\ (Ghost.status g = EATEN -> g' = g))
  /\ (draws w <= draws w' <= draws w + 2 * length (ghosts (game w)))%nat
  /\ ((forall i g, ghosts (game w) !! i = Some g -> Ghost.status g <> VULNERABLE) ->
      draws w' = draws w).
Proof.
  unfold ghostPhase. intros H.
  apply forIndices_step in H as ((F & R & E & T & [L M] & D) & Hd & Hq).
  rewrite length_seq in Hd. repeat split; try done; lia.
Qed.

Lemma adversary_phase_frame_witness :
  draws chaseWorld = draws playWorld
  /\ game chaseWorld = set_ghosts (ghosts (game chaseWorld)) (game playWorld).
Proof.
  destruct (adversary_phase_frame oneThird (1 # 2) playWorld chaseWorld)
    as (Hframe & _ & _ & _ & _ & _ & _ & Hquiet).
  - vm_compute. reflexivity.
  - split; [|exact Hframe]. apply Hquiet. intros i g Hi.
    destruct i as [|[|[|i]]]; cbv in Hi; try discriminate;
      injection Hi as <-; discriminate.
Defined.

Lemma samePower_refl s : samePower s s.
Proof. by repeat split. Qed.

Lemma samePower_trans s1 s2 s3 : samePower s1 s2 -> samePower s2 s3 -> samePower s1 s3.
Proof. intros (A & B & C) (D & E & F). repeat split; congruence. Qed.

Lemma powerLedger_same s s' : powerLedger s -> samePower s s' -> powerLedger s'.
Proof. intros [A B] (C & D & E). split; congruence. Qed.

Lemma ghostLoop_samePower (random : nat -> Q) (fuel : nat) (blinky : option nat)
    (i : nat) :
  forall distRemaining w w',
    ghostLoop random fuel blinky i distRemaining w = Some w' ->
    samePower (game w) (game w').
Proof.
  induction fuel as [|fuel IH]; intros distRemaining w w'; simpl.
  - intros [= <-]. apply samePower_refl.
  - destruct (negb (Qltb 0 distRemaining)); [intros [= <-]; apply samePower_refl|].
    destruct (ghosts (game w) !! i) as [ghost|]; [|intros [= <-]; apply samePower_refl].
    destruct (Qleb _ distRemaining).
    + destruct (getNextGhostDirection _ _ _ _ _ _ _ _) as [[nextDir k]|];
        cbn [mbind option_bind]; [|discriminate].
      intros H. apply IH in H. exact H.
    + intros [= <-]. by repeat split.
Qed.

Lemma moveGhost_samePower (random : nat -> Q) (blinky : option nat)
    (ghostMoveFactor : Q) (i : nat) (w w' : World) :
  moveGhost random blinky ghostMoveFactor i w = Some w' ->
  samePower (game w) (game w').
Proof.
  unfold moveGhost.
  destruct (ghosts (game w) !! i) as [ghost|]; [|intros [= <-]; apply samePower_refl].
  destruct (GhostStatus_eqb _ _); [intros [= <-]; apply samePower_refl|].
  destruct (ghostLoop _ _ _ _ _ _) as [w1|] eqn:Hloop;
    cbn [mbind option_bind]; [|discriminate].
  intros [= <-]. apply ghostLoop_samePower in Hloop. exact Hloop.
Qed.

Lemma ghostPhase_samePower (random : nat -> Q) (moveFactor : Q) (w w' : World) :
  ghostPhase random moveFactor w = Some w' -> samePower (game w) (game w').
Proof.
  unfold ghostPhase.
  generalize (blinkyIndex (ghosts (game w))) as blinky.
  generalize (seq 0 (length (ghosts (game w)))) as idxs.
  intros idxs blinky.
  match goal with
  | |- forIndices (moveGhost random blinky ?f) idxs w = _ -> _ => generalize f as factor
  end.
  intros factor. revert w.
  induction idxs as [|i idxs IH]; intros w; simpl.
  - intros [= <-]. apply samePower_refl.
  - destruct (moveGhost random blinky factor i w) as [w1|] eqn:Hmove;
      cbn [mbind option_bind]; [|discriminate].
    intros H. apply IH in H. apply moveGhost_samePower in Hmove.
    by eapply samePower_trans.
Qed.

Lemma initRound_powerLedger (roundNum : Z) (keepScore : bool) (w w' : World) :
  initRound roundNum keepScore w = Some w' -> powerLedger (game w').
Proof.
  unfold initRound.
  destruct (ROUND_CONFIGS roundNum); cbn [mbind option_bind]; [|discriminate].
  assert (Hscan : Z.of_nat (length (snd (scanGrid INITIAL_MAP))) = countPower INITIAL_MAP)
    by (vm_compute; reflexivity).
  destruct (scanGrid INITIAL_MAP) as [n locs] eqn:Escan. intros [= <-].
  split; [exact Hscan|]. cbn [game powerPelletLocations]. by rewrite Escan.
Qed.

Lemma handleDeath_powerLedger (teamName : string) (saveReturns : nat -> bool) (w w' : World) :
  handleDeath teamName saveReturns w = Some w' ->
  powerLedger (game w) -> powerLedger (game w').
Proof.
  unfold handleDeath. cbn [upd game lives set_lives]. intros H Hl.
  destruct (_ <=? 0).
  - unfold handleDemotionOrGameOver in H. cbn [upd game round set_status set_lives] in H.
    destruct (_ =? 1).
    + destruct (saveReturns _); [|discriminate]. injection H as <-. exact Hl.
    + by eapply initRound_powerLedger.
  - unfold resetPositions in H. cbn [upd game ghosts set_lives] in H.
    destruct (resetGhosts 0 (ghosts (game w))) as [gs|];
      cbn [mbind option_bind] in H; [|discriminate].
    injection H as <-. exact Hl.
Qed.

Lemma collideGhost_powerLedger (teamName : string) (saveReturns : nat -> bool)
    (random : nat -> Q) (time : Q)
    (arrRef i : nat) (w w' : World) (arr arr' : list GhostEntity) :
  collideGhost teamName saveReturns random time arrRef i (w, arr) = Some (w', arr') ->
  powerLedger (game w) -> powerLedger (game w').
Proof.
  unfold collideGhost. intros H Hl.
  set (live := (ghostsRef w =? arrRef)%nat) in *.
  set (cur := if live then ghosts (game w) else arr) in *.
  destruct (cur !! i) as [ghost|]; [|by injection H as <- <-].
  destruct (GhostStatus_eqb (Ghost.status ghost) EATEN); [by injection H as <- <-|].
  destruct (collides ghost (pacman (game w))); [|by injection H as <- <-].
  destruct (GhostStatus_eqb (Ghost.status ghost) VULNERABLE).
  - unfold capture in H. injection H as <- <-. by destruct live.
  - destruct (handleDeath teamName saveReturns w) as [w1|] eqn:Hdeath;
      cbn [mbind option_bind] in H; [|discriminate].
    injection H as <- <-. by eapply handleDeath_powerLedger.
Qed.

Lemma collideAll_powerLedger (teamName : string) (saveReturns : nat -> bool)
    (random : nat -> Q) (time : Q)
    (arrRef : nat) (idxs : list nat) :
  forall w arr w' arr',
    collideAll teamName saveReturns random time arrRef idxs (w, arr) = Some (w', arr') ->
    powerLedger (game w) -> powerLedger (game w').
Proof.
  induction idxs as [|i idxs IH]; intros w arr w' arr'; cbn [collideAll].
  - by intros [= <- <-].
  - destruct (collideGhost teamName saveReturns random time arrRef i (w, arr)) as [[w1 arr1]|]
      eqn:Hstep; cbn [mbind option_bind]; [|intros [=]].
    intros H Hl. apply (IH w1 arr1 w' arr' H). by eapply collideGhost_powerLedger.
Qed.

Lemma eatPellets_powerLedger (time : Q) (state state' : GameStateRef) :
  validLocs (grid state) (powerPelletLocations state) ->
  eatPellets time state = Some state' ->
  powerLedger state -> powerLedger state'.
Proof.
  intros Hv. rewrite eatPellets_cases.
  destruct (tileUnderPlayer state) as [[pY pX]|] eqn:Hu;
    [|by intros [= <-]].
  destruct (readTile (grid state) pY pX) as [item|] eqn:Hitem;
    cbn [mbind option_bind]; [|discriminate].
  destruct (tileIs item TileType.PELLET) eqn:Hpellet.
  { apply tileIs_eq in Hpellet. subst item. intros [= <-] [Hc Hlocs].
    split; [|exact Hlocs]. unfold countPower in *. cbn.
    rewrite (countGrid_writeTile _ _ _ _ _ TileType.EMPTY Hitem).
    rewrite Hc. cbn. lia. }
  destruct (tileIs item TileType.POWER_PELLET) eqn:Hpower; [|by intros [= <-]].
  apply tileIs_eq in Hpower. subst item. intros Hres [Hc Hlocs].
  destruct (respawnLogic_spec (consumePowerPellet time pY pX state))
    as (s' & Hres' & Hframe & Hyes & Hno).
  { cbn. by apply validLocs_writeTile. }
  rewrite Hres in Hres'. injection Hres' as <-.
  assert (Hone : powerLedger (consumePowerPellet time pY pX state)).
  { split; [|exact Hlocs]. unfold countPower in *. cbn.
    rewrite (countGrid_writeTile _ _ _ _ _ TileType.EMPTY Hitem).
    rewrite Hc. cbn. lia. }
  destruct (Z.eq_dec (currentPowerPellets (consumePowerPellet time pY pX state)) 0)
    as [Hz|Hnz];
    [destruct (ghostsAlive (ghosts (consumePowerPellet time pY pX state))) eqn:Halive|].
  - destruct (Hyes Hz eq_refl) as (n & Hresp & Hcur & _).
    pose proof (respawnPellets_count isPowerTile _ _ _ _ _ Hresp) as (_ & _ & Hcount).
    destruct Hone as [Hc1 Hlocs1]. split.
    + rewrite Hcur, Hc1. unfold countPower. rewrite Hcount. cbn. lia.
    + rewrite Hframe. exact Hlocs1.
  - rewrite Hno by (by right). done.
  - rewrite Hno by (by left). done.
Qed.

Lemma update_powerLedger (teamName : string) (saveReturns : nat -> bool)
    (random : nat -> Q) (time : Q)
    (w w' : World) :
  wellFormed (game w) ->
  update teamName saveReturns random time w = Some w' ->
  powerLedger (game w) -> powerLedger (game w').
Proof.
  intros Hwf. unfold update.
  set (w0 := upd (fun s => set_frameCount (frameCount s + 1) (set_lastFrameTime time s)) w).
  destruct (isPaused (status (game w0))).
  { intros [= <-] Hl. eapply powerLedger_same; [exact Hl|].
    cbn [upd game]. unfold pauseTick. destruct (negb _); [|by repeat split].
    cbn [pauseTimer set_pauseTimer]. destruct (Qleb _ 0); by repeat split. }
  destruct (ROUND_CONFIGS (round (game w0))) as [config|];
    cbn [mbind option_bind]; [|discriminate].
  destruct (pacmanPhase _ (game w0)) as [s1|] eqn:Hp;
    cbn [mbind option_bind]; [|discriminate].
  apply pacmanPhase_frame in Hp.
  destruct (eatPellets time s1) as [s2|] eqn:He;
    cbn [mbind option_bind]; [|discriminate].
  intros Hrest Hl.
  assert (Hl2 : powerLedger s2).
  { eapply eatPellets_powerLedger; [|exact He|].
    - rewrite Hp. by destruct Hwf as (_ & _ & Hv & _).
    - rewrite Hp. exact Hl. }
  destruct (pelletsRemaining s2 =? 0).
  - injection Hrest as <-. exact Hl2.
  - destruct (ghostPhase _ _ _) as [w2|] eqn:Hg;
      cbn [mbind option_bind] in Hrest; [|discriminate].
    apply ghostPhase_samePower in Hg.
    unfold collisionPhase in Hrest.
    destruct (collideAll _ _ _ _ _ _) as [[w3 arr3]|] eqn:Hall; [|discriminate].
    injection Hrest as <-.
    eapply collideAll_powerLedger; [exact Hall|].
    eapply powerLedger_same; [exact Hl2|].
    eapply samePower_trans; [exact Hg|].
    cbn [upd game]. unfold cleanPopups, expireVulnerability.
    destruct (_ <? _)%nat; destruct (_ && _); by repeat split.
Qed.

Lemma reachable_powerLedger (teamName : string) (saveReturns : nat -> bool)
    (random : nat -> Q) (w : World) :
  reachable teamName saveReturns random w -> powerLedger (game w).
Proof.
  induction 1 as [now w Hmount | time w w' Hreach IH Htick | newDir w _ IH
                 | w w' _ IH _ Htimer].
  - apply mount_inv in Hmount as (w0 & Hinit & ->).
    exact (initRound_powerLedger _ _ _ _ Hinit).
  - exact (update_powerLedger _ _ _ _ _ _ (reachable_wellFormed _ _ _ _ Hreach) Htick IH).
  - unfold handleKeyDown. destruct (negb _); exact IH.
  - unfold levelCompleteTimeout in Htimer. cbn [game] in Htimer.
    destruct (round (game w) <? 3).
    + exact (initRound_powerLedger _ _ _ _ Htimer).
    + destruct (saveReturns _); [|discriminate]. injection Htimer as <-. exact IH.
Qed.

Lemma countRow_nonneg (p : Z -> bool) (row : list Z) : 0 <= countRow p row.
Proof. induction row as [|c row IH]; simpl; [lia|]. destruct (p c); lia. Qed.

Lemma countGrid_nonneg (p : Z -> bool) (grid : Grid) : 0 <= countGrid p grid.
Proof.
  induction grid as [|row grid IH]; simpl; [lia|].
  pose proof (countRow_nonneg p row). lia.
Qed.

Lemma countRow_zero (p : Z -> bool) (row : list Z) :
  countRow p row = 0 <-> forall i c, row !! i = Some c -> p c = false.
Proof.
  induction row as [|c row IH]; simpl.
  - split; [|done]. intros _ i c Hi. by rewrite lookup_nil in Hi.
  - pose proof (countRow_nonneg p row) as Hn. split.
    + intros H i c' Hi. destruct (p c) eqn:Hc; [lia|].
      destruct i as [|i]; simpl in Hi; [congruence|].
      apply (proj1 IH) with i; [lia | done].
    + intros H. rewrite (H 0%nat c eq_refl).
      apply IH. intros i c' Hi. by apply (H (S i)).
Qed.

Lemma countGrid_zero (p : Z -> bool) (grid : Grid) :
  countGrid p grid = 0
  <-> forall j row i c, grid !! j = Some row -> row !! i = Some c -> p c = false.
Proof.
  induction grid as [|r grid IH]; simpl.
  - split; [|done]. intros _ j row i c Hj. by rewrite lookup_nil in Hj.
  - pose proof (countRow_nonneg p r) as Hr.
    pose proof (countGrid_nonneg p grid) as Hg. split.
    + intros H j row i c Hj Hi. destruct j as [|j]; simpl in Hj.
      * injection Hj as <-. apply (proj1 (countRow_zero p r)) with i; [lia | done].
      * apply (proj1 IH) with j row i; [lia | done | done].
    + intros H.
      assert (countRow p r = 0) as ->.
      { apply countRow_zero. intros i c Hi. by apply (H 0%nat r i c). }
      apply IH. intros j row i c Hj Hi. by apply (H (S j) row i c).
Qed.

Lemma lookupZ_of_nat {A : Type} (l : list A) (i : nat) :
  lookupZ l (Z.of_nat i) = l !! i.
Proof.
  unfold lookupZ. destruct (Z.ltb_spec (Z.of_nat i) 0); [lia|].
  by rewrite Nat2Z.id.
Qed.

(** No tile of the grid is a power pellet exactly when the count is 0. *)
Lemma countPower_zero (grid : Grid) :
  countPower grid = 0
  <-> forall y x, readTile grid y x <> Some (Some TileType.POWER_PELLET).
Proof.
  unfold countPower. rewrite countGrid_zero. split.
  - intros H y x Hread.
    apply readTile_inv in Hread as (row & Hrow & Hcell).
    apply lookupZ_inv in Hrow as [_ Hrow]. apply lookupZ_inv in Hcell as [_ Hcell].
    by specialize (H _ _ _ _ Hrow Hcell).
  - intros H j row i c Hj Hi. unfold isPowerTile.
    destruct (Z.eqb_spec c TileType.POWER_PELLET) as [->|]; [|done].
    exfalso. apply (H (Z.of_nat j) (Z.of_nat i)).
    unfold readTile. rewrite lookupZ_of_nat, Hj. cbn [mbind option_bind].
    by rewrite lookupZ_of_nat, Hi.
Qed.

(** X22.  The power-pellet bookkeeping of a running game.  In every world
    the component can reach, the live power-pellet counter is the number
    of POWER_PELLET tiles of the grid, so that it is 0 exactly when no
    tile of the grid is a power pellet, and it is never negative; the
    recorded locations are those of the four power pellets of the initial
    maze, in scan order. *)
Theorem power_pellets_accounted (teamName : string) (saveReturns : nat -> bool)
    (random : nat -> Q) (w : World) :
  reachable teamName saveReturns random w ->
  currentPowerPellets (game w) = countPower (grid (game w))
  /\ 0 <= currentPowerPellets (game w)
  /\ (currentPowerPellets (game w) = 0
      <-> forall y x,
            readTile (grid (game w)) y x <> Some (Some TileType.POWER_PELLET))
  /\ powerPelletLocations (game w)
     = [mkTileIndex 1 1; mkTileIndex 17 1; mkTileIndex 1 14; mkTileIndex 17 14].
Proof.
  intros Hreach. destruct (reachable_powerLedger _ _ _ _ Hreach) as [Hc Hlocs].
  split; [exact Hc|]. rewrite Hc.
  split; [apply countGrid_nonneg|]. split; [apply countPower_zero|].
  rewrite Hlocs. vm_compute. reflexivity.
Qed.

Lemma power_pellets_accounted_witness :
  currentPowerPellets (game secondWorld) = countPower (grid (game secondWorld)).
Proof.
  destruct (power_pellets_accounted "TEAM" alwaysSaved oneThird secondWorld) as [H _].
  - apply (reach_tick "TEAM" alwaysSaved oneThird (2065 # 1) playWorld secondWorld).
    + apply (reach_tick "TEAM" alwaysSaved oneThird (2000 # 1) startWorld playWorld).
      * apply (reach_mount "TEAM" alwaysSaved oneThird 0%Q). vm_compute. reflexivity.
      * vm_compute. reflexivity.
    + vm_compute. reflexivity.
  - exact H.
Defined.

Lemma respawnPellets_progress locs :
  forall grid n grid' n' y x,
    respawnPellets locs grid n = Some (grid', n') ->
    restoredAt locs grid y x -> n < n'.
Proof.
  unfold restoredAt.
  induction locs as [|q locs IH]; intros grid n grid' n' y x; simpl.
  - intros _ [Hin _]. by apply elem_of_nil in Hin.
  - destruct (readTile grid (tile_y q) (tile_x q)) as [t|] eqn:Hread;
      cbn [mbind option_bind]; [|discriminate].
    destruct (tileIs t TileType.EMPTY) eqn:Ht; intros H [Hin Hr].
    + pose proof (respawnPellets_count isPowerTile _ _ _ _ _ H) as (Hn & _). lia.
    + apply elem_of_cons in Hin as [Heq|Hin].
      * subst q. simpl in Hread. rewrite Hr in Hread. injection Hread as <-.
        discriminate.
      * eapply IH; [exact H|]. by split.
Qed.

(** X23.  The last power pellet comes back under the player.  When the
    player consumes the last live power pellet on a recorded location while
    some adversary is not EATEN, the respawn restores that very tile: after
    the tick's pellet logic the tile under the player is a POWER_PELLET
    again, the score is up by 50, and neither counter has dropped.  The
    pellet logic of the next tick, the player still being on that tile,
    consumes it again: the score is up by 100 in all and the vulnerability
    threshold is that of the second consumption. *)
Theorem last_power_pellet_returns (time time2 : Q) (state : GameStateRef)
    (pY pX : Z) :
  tileUnderPlayer state = Some (pY, pX) ->
  readTile (grid state) pY pX = Some (Some TileType.POWER_PELLET) ->
  currentPowerPellets state = 1 ->
  ghostsAlive (ghosts state) = true ->
  validLocs (grid state) (powerPelletLocations state) ->
  mkTileIndex pX pY ∈ powerPelletLocations state ->
  exists s1 s2,
    eatPellets time state = Some s1
    /\ readTile (grid s1) pY pX = Some (Some TileType.POWER_PELLET)
    /\ score s1 = score state + 50
    /\ pelletsRemaining state <= pelletsRemaining s1
    /\ 1 <= currentPowerPellets s1
    /\ eatPellets time2 s1 = Some s2
    /\ score s2 = score state + 100
    /\ vulnerableUntil s2 = (time2 + VULNERABLE_DURATION_MS)%Q.
Proof.
  intros Hu Hitem Hone Halive Hv Hin.
  set (c1 := consumePowerPellet time pY pX state).
  destruct (respawnLogic_spec c1) as (s1 & Hres & Hframe & Hyes & _).
  { cbn. by apply validLocs_writeTile. }
  destruct Hyes as (n & Hresp & Hc & Hp).
  { cbn. lia. }
  { cbn. by rewrite ghostsAlive_frighten. }
  cbn [c1 consumePowerPellet grid set_ghosts set_ghostsEatenStreak set_vulnerableUntil
       set_currentPowerPellets set_pelletsRemaining set_grid set_score
       currentPowerPellets pelletsRemaining ghosts powerPelletLocations]
    in Hresp, Hc, Hp.
  assert (Hrestored : restoredAt (powerPelletLocations state)
                        (writeTile (grid state) pY pX TileType.EMPTY) pY pX).
  { split; [exact Hin|].
    rewrite (readTile_writeTile _ _ _ _ _ pY pX Hitem), !Z.eqb_refl. reflexivity. }
  pose proof (respawnPellets_progress _ _ _ _ _ _ _ Hresp Hrestored) as Hn.
  pose proof (proj1 (respawnPellets_tiles _ _ _ _ _ Hresp pY pX) Hrestored) as Hback.
  pose proof (respawnPellets_count isPowerTile _ _ _ _ _ Hresp) as (_ & Hlen & _).
  rewrite writeTile_length in Hlen.
  pose proof (respawnLogic_keeps _ _ Hres) as (Hg1 & Hv1 & Hk1 & Hs1).
  assert (Hpac : pacman s1 = pacman state) by (rewrite Hframe; reflexivity).
  assert (Hlocs : powerPelletLocations s1 = powerPelletLocations state)
    by (rewrite Hframe; reflexivity).
  assert (Hu1 : tileUnderPlayer s1 = Some (pY, pX)).
  { unfold tileUnderPlayer in *. by rewrite Hpac. }
  set (c2 := consumePowerPellet time2 pY pX s1).
  destruct (respawnLogic_spec c2) as (s2 & Hres2 & _).
  { cbn. apply validLocs_writeTile. rewrite Hlocs. unfold validLocs in *.
    by rewrite Hlen. }
  pose proof (respawnLogic_keeps _ _ Hres2) as (_ & Hv2 & _ & Hs2).
  exists s1, s2.
  split; [by rewrite (eatPellets_power _ _ _ _ Hu Hitem)|].
  split; [exact Hback|]. split; [rewrite Hs1; reflexivity|].
  split; [lia|]. split; [lia|].
  split; [by rewrite (eatPellets_power _ _ _ _ Hu1 Hback)|].
  split; [rewrite Hs2; cbn; rewrite Hs1; cbn; lia|].
  rewrite Hv2. reflexivity.
Qed.

Lemma last_power_pellet_returns_witness :
  exists s1 s2,
    eatPellets (2016 # 1) lastPowerState = Some s1
    /\ eatPellets (2032 # 1) s1 = Some s2
    /\ score s2 = score lastPowerState + 100.
Proof.
  destruct (last_power_pellet_returns (2016 # 1) (2032 # 1) lastPowerState 1 1)
    as (s1 & s2 & H1 & _ & _ & _ & _ & H2 & Hs & _).
  - reflexivity.
  - reflexivity.
  - reflexivity.
  - reflexivity.
  - unfold validLocs. vm_compute. repeat constructor; discriminate.
  - vm_compute. apply list_elem_of_here.
  - exists s1, s2. auto.
Defined.

Lemma steered_refl pac : steered pac pac.
Proof. repeat split; auto. Qed.

Lemma steered_trans p1 p2 p3 : steered p1 p2 -> steered p2 p3 -> steered p1 p3.
Proof.
  intros (A & B & C & D) (E & F & G & H). unfold steered.
  rewrite E, A, F, B in *. repeat split; try done.
  - destruct G as [G|G]; [rewrite G; exact C | by right].
  - intros Heq. destruct C as [C|C].
    + rewrite C in *. destruct G as [G|G]; [done | congruence].
    + destruct G as [G|G]; congruence.
Qed.

Lemma steered_pos pac p : steered pac (Pacman.set_pos p pac).
Proof. repeat split; auto. Qed.

Lemma atCenterStep_steered (grid : Grid) (pac pac' : Pacman.t) (goOn : bool) :
  atCenterStep grid pac = Some (pac', goOn) -> steered pac pac'.
Proof.
  unfold atCenterStep. destruct (_ && _); [|intros [= <- _]; apply steered_refl].
  cbn [Pacman.nextDir Pacman.dir Pacman.set_pos].
  destruct (Direction_eqb (Pacman.nextDir pac) (Pacman.dir pac)) eqn:Hsame;
    cbn [negb andb].
  - rewrite andb_false_r. cbn [mbind option_bind].
    destruct (isValidMove _ _ _ _); cbn [mbind option_bind]; [|discriminate].
    intros [= <- _]. apply steered_pos.
  - apply Direction_eqb_neq in Hsame.
    destruct (negb (Direction_eqb (Pacman.nextDir pac) NONE)); cbn [andb].
    + destruct (isValidMove _ _ _ (Pacman.nextDir pac)) as [[|]|];
        cbn [mbind option_bind]; [| |discriminate].
      * destruct (isValidMove _ _ _ _); cbn [mbind option_bind]; [|discriminate].
        intros [= <- _]. repeat split; cbn; auto.
      * destruct (isValidMove _ _ _ _); cbn [mbind option_bind]; [|discriminate].
        intros [= <- _]. apply steered_pos.
    + cbn [mbind option_bind].
      destruct (isValidMove _ _ _ _); cbn [mbind option_bind]; [|discriminate].
      intros [= <- _]. apply steered_pos.
Qed.

Lemma movePacman_steered (fuel : nat) (grid : Grid) :
  forall pac moveDist pac',
    movePacman fuel grid pac moveDist = Some pac' -> steered pac pac'.
Proof.
  induction fuel as [|fuel IH]; intros pac moveDist pac'; simpl.
  - intros [= <-]. apply steered_refl.
  - destruct (negb (Qltb 0 moveDist)); [intros [= <-]; apply steered_refl|].
    destruct (atCenterStep grid pac) as [[pac1 goOn]|] eqn:Hc;
      cbn [mbind option_bind]; [|discriminate].
    apply atCenterStep_steered in Hc.
    destruct (negb goOn); [by intros [= <-]|].
    destruct (Direction_eqb (Pacman.dir pac1) NONE); [by intros [= <-]|].
    destruct (Qleb _ moveDist).
    + intros H. apply IH in H.
      eapply steered_trans; [exact Hc|].
      eapply steered_trans; [apply steered_pos | exact H].
    + intros [= <-]. eapply steered_trans; [exact Hc | apply steered_pos].
Qed.

Lemma tunnel_range (x : Q) :
  (- (1 # 2) <= tunnel x)%Q /\ (tunnel x <= inject_Z MAP_WIDTH - (1 # 2))%Q.
Proof.
  destruct (tunnel_spec x) as (Hlow & Hhigh & Hmid).
  destruct (Qlt_le_dec x (- (1 # 2))) as [H|H].
  - rewrite (Hlow H). split; [discriminate | apply Qle_refl].
  - destruct (Qlt_le_dec (inject_Z MAP_WIDTH - (1 # 2)) x) as [H'|H'].
    + rewrite (Hhigh H'). split; [apply Qle_refl | discriminate].
    + rewrite (Hmid H H'). by split.
Qed.

(** X24.  Steering.  The player phase of a tick changes nothing but the
    player, and of the player only position and direction: the buffered
    direction is kept (a turn does not use it up).  The direction after
    the phase is the one before or the buffered one; a buffered direction
    that is the reverse of the current one is taken at once, wherever the
    player is and whatever the walls; so the reverse key pressed before a
    tick always turns the player round.  The horizontal position after the
    phase lies between -0.5 and MAP_WIDTH - 0.5. *)
Theorem steering (moveDist : Q) (state state' : GameStateRef) :
  pacmanPhase moveDist state = Some state' ->
  state' = set_pacman (pacman state') state
  /\ Pacman.nextDir (pacman state') = Pacman.nextDir (pacman state)
  /\ Pacman.lastMoveTime (pacman state') = Pacman.lastMoveTime (pacman state)
  /\ (Pacman.dir (pacman state') = Pacman.dir (pacman state)
      \/ Pacman.dir (pacman state') = Pacman.nextDir (pacman state))
  /\ (getOppositeDirection (Pacman.dir (pacman state)) = Pacman.nextDir (pacman state) ->
      Pacman.dir (pacman state') = Pacman.nextDir (pacman state))
  /\ (forall w newDir,
        state = game (handleKeyDown newDir w) ->
        newDir <> NONE ->
        newDir = getOppositeDirection (Pacman.dir (pacman (game w))) ->
        Pacman.dir (pacman state') = newDir)
  /\ (- (1 # 2) <= pos_x (Pacman.pos (pacman state')))%Q
  /\ (pos_x (Pacman.pos (pacman state')) <= inject_Z MAP_WIDTH - (1 # 2))%Q.
Proof.
  intros H. pose proof (pacmanPhase_frame _ _ _ H) as Hframe.
  unfold pacmanPhase in H.
  destruct (movePacman 5 (grid state) (reverseNow (pacman state)) moveDist)
    as [pac|] eqn:Hmove; cbn [mbind option_bind] in H; [|discriminate].
  injection H as <-. apply movePacman_steered in Hmove as (Hn & Ht & Hd & Hsame).
  cbn [pacman set_pacman pacmanTunnel Pacman.set_pos Pacman.nextDir Pacman.dir
       Pacman.lastMoveTime Pacman.pos pos_x].
  assert (Hrev : getOppositeDirection (Pacman.dir (pacman state))
                 = Pacman.nextDir (pacman state) ->
                 Pacman.dir pac = Pacman.nextDir (pacman state)).
  { intros Hopp. unfold reverseNow in Hsame, Hn. rewrite Hopp in Hsame, Hn.
    assert (Direction_eqb (Pacman.nextDir (pacman state)) (Pacman.nextDir (pacman state))
            = true) as E by (by apply Direction_eqb_eq).
    rewrite E in Hsame, Hn. cbn in Hsame. by apply Hsame. }
  assert (Hnext : Pacman.nextDir pac = Pacman.nextDir (pacman state)).
  { rewrite Hn. unfold reverseNow. by destruct (Direction_eqb _ _). }
  split; [exact Hframe|]. split; [exact Hnext|].
  split.
  { rewrite Ht. unfold reverseNow. by destruct (Direction_eqb _ _). }
  split.
  { unfold reverseNow in Hd.
    destruct (Direction_eqb _ _); cbn in Hd; [|exact Hd]. destruct Hd; by right. }
  split; [exact Hrev|]. split; [|apply tunnel_range].
  intros w newDir -> Hne Hopp. unfold handleKeyDown in Hrev.
  assert (negb (Direction_eqb newDir NONE) = true) as E.
  { apply negb_true_iff. by apply Direction_eqb_neq. }
  rewrite E in Hrev. cbn in Hrev. by apply Hrev.
Qed.

Lemma steering_witness :
  exists state',
    pacmanPhase (1 # 2) (game (handleKeyDown LEFT playWorld)) = Some state'
    /\ Pacman.dir (pacman state') = LEFT.
Proof.
  eexists. split; [vm_compute; reflexivity|].
  refine (proj1 (proj2 (proj2 (proj2 (proj2 (proj2
            (steering (1 # 2) (game (handleKeyDown LEFT playWorld)) _ _))))))
            playWorld LEFT _ _ _).
  - vm_compute. reflexivity.
  - reflexivity.
  - discriminate.
  - reflexivity.
Defined.

Lemma jsRound_int (q : Q) (z : Z) : (q == inject_Z z)%Q -> jsRound q = z.
Proof.
  intros Hq. unfold jsRound.
  assert (Hlow : (inject_Z z <= q + (1 # 2))%Q) by (rewrite Hq; lra).
  assert (Hhigh : (q + (1 # 2) < inject_Z (z + 1))%Q).
  { rewrite Hq, inject_Z_plus. change (inject_Z 1) with 1%Q. lra. }
  apply Qfloor_resp_le in Hlow. rewrite Qfloor_Z in Hlow.
  pose proof (Qfloor_le (q + (1 # 2))) as Hf.
  assert (Hlt : (inject_Z (Qfloor (q + (1 # 2))) < inject_Z (z + 1))%Q)
    by (eapply Qle_lt_trans; [exact Hf | exact Hhigh]).
  rewrite <- Zlt_Qlt in Hlt. lia.
Qed.

Lemma centred (q : Q) (z : Z) :
  (q == inject_Z z)%Q -> Qltb (Qabs (q - inject_Z (jsRound q))) (1 # 100) = true.
Proof.
  intros Hq. rewrite (jsRound_int q z Hq). apply Qltb_lt.
  assert (E : (q - inject_Z z == 0)%Q) by (rewrite Hq; ring).
  rewrite E. reflexivity.
Qed.

(** The centre handling at a tile centre from which neither the current
    nor the buffered direction can be taken. *)
Lemma atCenterStep_blocked (grid : Grid) (pac : Pacman.t) (tX tY : Z) :
  (pos_x (Pacman.pos pac) == inject_Z tX)%Q ->
  (pos_y (Pacman.pos pac) == inject_Z tY)%Q ->
  isValidMove grid tX tY (Pacman.dir pac) = Some false ->
  (Pacman.nextDir pac = NONE
   \/ isValidMove grid tX tY (Pacman.nextDir pac) = Some false) ->
  atCenterStep grid pac = Some (Pacman.set_pos (tilePos tX tY) pac, false).
Proof.
  intros Hx Hy Hdir Hnext. unfold atCenterStep.
  rewrite (centred _ _ Hx), (centred _ _ Hy).
  rewrite (jsRound_int _ _ Hx), (jsRound_int _ _ Hy).
  cbn [andb Pacman.nextDir Pacman.dir Pacman.set_pos].
  destruct Hnext as [Hnone|Hinvalid].
  - rewrite Hnone.
    cbn [Direction_eqb negb andb mbind option_bind Pacman.dir Pacman.nextDir
         Pacman.set_pos].
    rewrite Hdir. reflexivity.
  - destruct (negb (Direction_eqb (Pacman.nextDir pac) NONE)
              && negb (Direction_eqb (Pacman.nextDir pac) (Pacman.dir pac))).
    + rewrite Hinvalid. cbn [mbind option_bind Pacman.dir Pacman.set_pos].
      rewrite Hdir. reflexivity.
    + cbn [mbind option_bind Pacman.dir Pacman.set_pos]. rewrite Hdir. reflexivity.
Qed.

(** X25.  A blocked player stays.  When the player is on a tile centre
    inside the columns of the grid, cannot move on in its current direction
    and has no buffered direction or one that cannot be taken from that
    tile either, the player phase of a tick leaves the player on that tile
    however long the tick was; the buffered direction is kept, and the
    direction is the one before, or the buffered one when that is its
    reverse. *)
Theorem blocked_player_stays (moveDist : Q) (state : GameStateRef) (tX tY : Z) :
  (pos_x (Pacman.pos (pacman state)) == inject_Z tX)%Q ->
  (pos_y (Pacman.pos (pacman state)) == inject_Z tY)%Q ->
  0 <= tX < MAP_WIDTH ->
  isValidMove (grid state) tX tY (Pacman.dir (pacman state)) = Some false ->
  (Pacman.nextDir (pacman state) = NONE
   \/ isValidMove (grid state) tX tY (Pacman.nextDir (pacman state)) = Some false) ->
  exists state',
    pacmanPhase moveDist state = Some state'
    /\ state' = set_pacman (pacman state') state
    /\ (pos_x (Pacman.pos (pacman state')) == inject_Z tX)%Q
    /\ (pos_y (Pacman.pos (pacman state')) == inject_Z tY)%Q
    /\ Pacman.nextDir (pacman state') = Pacman.nextDir (pacman state)
    /\ Pacman.dir (pacman state')
       = (if Direction_eqb (getOppositeDirection (Pacman.dir (pacman state)))
                           (Pacman.nextDir (pacman state))
          then Pacman.nextDir (pacman state) else Pacman.dir (pacman state)).
Proof.
  intros Hx Hy HtX Hdir Hnext.
  set (pac := reverseNow (pacman state)).
  assert (Hpos : Pacman.pos pac = Pacman.pos (pacman state)).
  { unfold pac, reverseNow. by destruct (Direction_eqb _ _). }
  assert (Hnd : Pacman.nextDir pac = Pacman.nextDir (pacman state)).
  { unfold pac, reverseNow. by destruct (Direction_eqb _ _). }
  assert (Hd : Pacman.dir pac
               = if Direction_eqb (getOppositeDirection (Pacman.dir (pacman state)))
                                  (Pacman.nextDir (pacman state))
                 then Pacman.nextDir (pacman state) else Pacman.dir (pacman state)).
  { unfold pac, reverseNow. by destruct (Direction_eqb _ _). }
  assert (Hdir' : isValidMove (grid state) tX tY (Pacman.dir pac) = Some false).
  { rewrite Hd.
    destruct (Direction_eqb _ _) eqn:Hrev; [|exact Hdir].
    destruct Hnext as [Hnone|Hinvalid]; [|exact Hinvalid].
    apply Direction_eqb_eq in Hrev. rewrite Hnone in Hrev |- *.
    destruct (Pacman.dir (pacman state)); try discriminate. exact Hdir. }
  assert (Hstep : atCenterStep (grid state) pac
                  = Some (Pacman.set_pos (tilePos tX tY) pac, false)).
  { apply atCenterStep_blocked; rewrite ?Hpos, ?Hnd; done. }
  assert (Hin : (- (1 # 2) <= inject_Z tX)%Q
                /\ (inject_Z tX <= inject_Z MAP_WIDTH - (1 # 2))%Q).
  { split.
    - apply Qle_trans with (inject_Z 0); [discriminate|]. rewrite <- Zle_Qle. lia.
    - apply Qle_trans with (inject_Z (MAP_WIDTH - 1)); [rewrite <- Zle_Qle; lia|].
      discriminate. }
  destruct Hin as [Hlow Hhigh].
  unfold pacmanPhase. fold pac.
  assert (Hmove : exists pac',
            movePacman 5 (grid state) pac moveDist = Some pac'
            /\ (pos_x (Pacman.pos pac') == inject_Z tX)%Q
            /\ (pos_y (Pacman.pos pac') == inject_Z tY)%Q
            /\ Pacman.nextDir pac' = Pacman.nextDir pac
            /\ Pacman.dir pac' = Pacman.dir pac).
  { cbn [movePacman]. destruct (negb (Qltb 0 moveDist)).
    - exists pac. rewrite Hpos. done.
    - rewrite Hstep. cbn [mbind option_bind negb].
      eexists. split; [reflexivity|]. cbn. repeat split; reflexivity. }
  destruct Hmove as (pac' & -> & Hx' & Hy' & Hn' & Hd').
  cbn [mbind option_bind]. eexists. split; [reflexivity|].
  cbn [pacman set_pacman pacmanTunnel Pacman.set_pos Pacman.nextDir Pacman.dir
       Pacman.pos pos_x pos_y].
  split; [by destruct state|]. split.
  - destruct (tunnel_spec (pos_x (Pacman.pos pac'))) as (_ & _ & Hmid).
    rewrite Hmid; [exact Hx' | rewrite Hx'; exact Hlow | rewrite Hx'; exact Hhigh].
  - split; [exact Hy'|]. split; [congruence|]. by rewrite Hd', Hd.
Qed.

Lemma blocked_player_stays_witness :
  exists state',
    pacmanPhase (1 # 2) lastPowerState = Some state'
    /\ (pos_x (Pacman.pos (pacman state')) == inject_Z 1)%Q
    /\ (pos_y (Pacman.pos (pacman state')) == inject_Z 1)%Q
    /\ Pacman.dir (pacman state') = LEFT.
Proof.
  destruct (blocked_player_stays (1 # 2) lastPowerState 1 1)
    as (state' & H & _ & Hx & Hy & _ & Hd).
  - reflexivity.
  - reflexivity.
  - unfold MAP_WIDTH. lia.
  - vm_compute. reflexivity.
  - right. vm_compute. reflexivity.
  - exists state'. auto.
Defined.

Lemma initRound_lives (roundNum : Z) (keepScore : bool) (w w' : World) :
  initRound roundNum keepScore w = Some w' ->
  lives (game w') = lives (game w)
  /\ status (game w') = ROUND_STARTING
  /\ levelTimers w' = levelTimers w.
Proof.
  unfold initRound.
  destruct (ROUND_CONFIGS roundNum); cbn [mbind option_bind]; [|discriminate].
  destruct (scanGrid INITIAL_MAP). by intros [= <-].
Qed.

Lemma eatPellets_lives (time : Q) (state state' : GameStateRef) :
  eatPellets time state = Some state' ->
  lives state' = lives state /\ status state' = status state.
Proof.
  rewrite eatPellets_cases.
  destruct (tileUnderPlayer state) as [[pY pX]|]; [|by intros [= <-]].
  destruct (readTile (grid state) pY pX) as [item|];
    cbn [mbind option_bind]; [|discriminate].
  destruct (tileIs item TileType.PELLET); [by intros [= <-]|].
  destruct (tileIs item TileType.POWER_PELLET); [|by intros [= <-]].
  unfold respawnLogic.
  destruct (_ =? 0); [|by intros [= <-]].
  destruct (ghostsAlive _); [|by intros [= <-]].
  destruct (respawnPellets _ _ _) as [[newGrid n]|]; [|discriminate].
  cbn [mbind option_bind]. destruct (0 <? n); by intros [= <-].
Qed.

Lemma handleDeath_colliding (teamName : string) (saveReturns : nat -> bool) (w w' : World) :
  handleDeath teamName saveReturns w = Some w' -> colliding w -> colliding w'.
Proof.
  unfold handleDeath. cbn [upd game lives set_lives]. intros H (H3 & Ht & H1).
  destruct (Z.leb_spec (lives (game w) - 1) 0) as [Hle|Hgt].
  - unfold handleDemotionOrGameOver in H. cbn [upd game round set_status set_lives] in H.
    destruct (_ =? 1).
    + destruct (saveReturns _); [|discriminate]. 
      injection H as <-. split; [cbn; lia|]. split; [exact Ht|]. by cbn.
    + apply initRound_lives in H as (Hl & Hs & Ht').
      cbn in Hl, Ht'. split; [lia|]. split; [congruence|]. intros _. lia.
  - unfold resetPositions in H. cbn [upd game ghosts set_lives] in H.
    destruct (resetGhosts 0 (ghosts (game w))) as [gs|];
      cbn [mbind option_bind] in H; [|discriminate].
    injection H as <-. split; [cbn; lia|]. split; [exact Ht|]. cbn. lia.
Qed.

Lemma collideGhost_colliding (teamName : string) (saveReturns : nat -> bool)
    (random : nat -> Q) (time : Q)
    (arrRef i : nat) (w w' : World) (arr arr' : list GhostEntity) :
  collideGhost teamName saveReturns random time arrRef i (w, arr) = Some (w', arr') ->
  colliding w -> colliding w'.
Proof.
  unfold collideGhost. intros H Hc.
  set (live := (ghostsRef w =? arrRef)%nat) in *.
  set (cur := if live then ghosts (game w) else arr) in *.
  destruct (cur !! i) as [ghost|]; [|by injection H as <- <-].
  destruct (GhostStatus_eqb (Ghost.status ghost) EATEN); [by injection H as <- <-|].
  destruct (collides ghost (pacman (game w))); [|by injection H as <- <-].
  destruct (GhostStatus_eqb (Ghost.status ghost) VULNERABLE).
  - unfold capture in H. injection H as <- <-. by destruct live.
  - destruct (handleDeath teamName saveReturns w) as [w1|] eqn:Hdeath;
      cbn [mbind option_bind] in H; [|discriminate].
    injection H as <- <-. by eapply handleDeath_colliding.
Qed.

Lemma collideAll_colliding (teamName : string) (saveReturns : nat -> bool)
    (random : nat -> Q) (time : Q)
    (arrRef : nat) (idxs : list nat) :
  forall w arr w' arr',
    collideAll teamName saveReturns random time arrRef idxs (w, arr) = Some (w', arr') ->
    colliding w -> colliding w'.
Proof.
  induction idxs as [|i idxs IH]; intros w arr w' arr'; cbn [collideAll].
  - by intros [= <- <-].
  - destruct (collideGhost teamName saveReturns random time arrRef i (w, arr)) as [[w1 arr1]|]
      eqn:Hstep; cbn [mbind option_bind]; [|intros [=]].
    intros H Hc. apply (IH w1 arr1 w' arr' H). by eapply collideGhost_colliding.
Qed.

Lemma pauseTick_lives (delta : Q) (s : GameStateRef) :
  lives (pauseTick delta s) = lives s
  /\ (status (pauseTick delta s) = status s
      \/ (status s <> LEVEL_TRANSITION /\ status (pauseTick delta s) = PLAYING)).
Proof.
  unfold pauseTick. destruct (status s) eqn:Hst; cbn [InternalGameStatus_eqb negb].
  4: { split; [done | by left]. }
  all: cbn [pauseTimer set_pauseTimer]; destruct (Qleb _ 0); cbn;
    (split; [done|]); first [by left | right; split; [discriminate | done]].
Qed.

Lemma update_liveGame (teamName : string) (saveReturns : nat -> bool)
    (random : nat -> Q) (time : Q)
    (w w' : World) :
  update teamName saveReturns random time w = Some w' -> liveGame w -> liveGame w'.
Proof.
  unfold update. intros H (H3 & Ht & Hlt & H1).
  set (w0 := upd (fun s => set_frameCount (frameCount s + 1) (set_lastFrameTime time s)) w)
    in *.
  assert (Hl0 : lives (game w0) = lives (game w)) by reflexivity.
  assert (Hs0 : status (game w0) = status (game w)) by reflexivity.
  assert (Ht0' : levelTimers w0 = levelTimers w) by reflexivity.
  destruct (isPaused (status (game w0))) eqn:Hpaused.
  { injection H as <-.
    destruct (pauseTick_lives (time - lastFrameTime (game w))%Q (game w0))
      as [Hl Hs].
    unfold liveGame. cbn [upd game levelTimers]. rewrite Hl, Hl0, Ht0'.
    split; [exact H3|]. split; [exact Ht|]. split.
    - intros E. destruct Hs as [Hs|[Hs _]].
      + rewrite Hs, Hs0. by apply Hlt.
      + rewrite Hs0 in Hs. by specialize (Hlt E).
    - intros [Hn|E]; [|apply H1; by right].
      destruct Hs as [Hs|[Hs _]]; apply H1; left; congruence. }
  assert (Hst : status (game w) = PLAYING).
  { rewrite <- Hs0. by destruct (status (game w0)). }
  - assert (Ht0 : levelTimers w = 0%nat).
    { destruct (levelTimers w) as [|[|n]] eqn:E; [done| |lia].
      specialize (Hlt eq_refl). congruence. }
    assert (Hl1 : 1 <= lives (game w)) by (apply H1; left; congruence).
    destruct (ROUND_CONFIGS (round (game w0))) as [config|];
      cbn [mbind option_bind] in H; [|discriminate].
    destruct (pacmanPhase _ (game w0)) as [s1|] eqn:Hp;
      cbn [mbind option_bind] in H; [|discriminate].
    apply pacmanPhase_frame in Hp.
    destruct (eatPellets time s1) as [s2|] eqn:He;
      cbn [mbind option_bind] in H; [|discriminate].
    apply eatPellets_lives in He as [Hl2 Hs2].
    rewrite Hp in Hl2, Hs2. cbn in Hl2, Hs2.
    destruct (pelletsRemaining s2 =? 0).
    + injection H as <-. unfold liveGame. cbn. rewrite Hl2, Ht0.
      split; [lia|]. split; [lia|]. split; [done|]. intros _. lia.
    + destruct (ghostPhase _ _ _) as [w2|] eqn:Hg;
        cbn [mbind option_bind] in H; [|discriminate].
      unfold ghostPhase in Hg.
      apply forIndices_step in Hg as ((F & _ & _ & T & _) & _).
      cbn in F, T.
      unfold collisionPhase in H.
      destruct (collideAll _ _ _ _ _ _) as [[w3 arr3]|] eqn:Hall; [|discriminate].
      injection H as <-.
      apply collideAll_colliding in Hall as (A & B & C).
      * unfold liveGame. rewrite B. split; [exact A|]. split; [lia|].
        split; [discriminate|]. intros [?|?]; [by apply C | discriminate].
      * unfold colliding, cleanPopups, expireVulnerability. cbn [upd game levelTimers].
        destruct (_ && _); destruct (_ <? _)%nat; cbn; rewrite F; cbn;
          rewrite Hl2, T, Ht0; (split; [lia|]); (split; [done|]); intros _; lia.
Qed.

Lemma reachable_liveGame (teamName : string) (saveReturns : nat -> bool)
    (random : nat -> Q) (w : World) :
  reachable teamName saveReturns random w -> liveGame w.
Proof.
  induction 1 as [now w Hmount | time w w' _ IH Htick | newDir w _ IH
                 | w w' _ IH Hpending Htimer].
  - apply mount_inv in Hmount as (w0 & Hinit & ->).
    apply initRound_lives in Hinit as (Hl & Hs & Ht). cbn in Hl, Ht.
    unfold liveGame. cbn. rewrite Hl, Hs, Ht.
    split; [lia|]. split; [lia|]. split; [discriminate|]. intros _. lia.
  - by eapply update_liveGame.
  - unfold handleKeyDown. destruct (negb _); exact IH.
  - destruct IH as (H3 & Ht & Hlt & H1).
    assert (Ht1 : levelTimers w = 1%nat) by lia.
    unfold levelCompleteTimeout in Htimer. cbn [game] in Htimer.
    destruct (round (game w) <? 3).
    + apply initRound_lives in Htimer as (Hl & Hs & Ht'). cbn in Hl, Ht'.
      unfold liveGame. rewrite Hl, Hs, Ht', Ht1.
      split; [lia|]. split; [cbn; lia|]. split; [discriminate|].
      intros _. apply H1. by right.
    + destruct (saveReturns _); [|discriminate]. 
      injection Htimer as <-. unfold liveGame. cbn. rewrite Ht1. cbn.
      split; [lia|]. split; [lia|]. split; [discriminate|].
      rewrite (Hlt Ht1). intros [?|?]; [done | discriminate].
Qed.

(** X26.  The lives of a running game.  In every world the component can
    reach there are at most 3 lives; as long as the game is live (the
    status is not LEVEL_TRANSITION, or the level timer is pending) there
    is at least one; at most one level timer is pending, and only in
    LEVEL_TRANSITION.  So ticks are played (PLAYING) only with 1, 2 or 3
    lives, and a world with no life left is in LEVEL_TRANSITION with no
    timer pending: it stays as it is for ever. *)
Theorem lives_of_a_running_game (teamName : string) (saveReturns : nat -> bool)
    (random : nat -> Q) (w : World) :
  reachable teamName saveReturns random w ->
  lives (game w) <= 3
  /\ (levelTimers w <= 1)%nat
  /\ (levelTimers w = 1%nat -> status (game w) = LEVEL_TRANSITION)
  /\ (status (game w) <> LEVEL_TRANSITION \/ levelTimers w = 1%nat ->
      1 <= lives (game w))
  /\ (lives (game w) <= 0 ->
      status (game w) = LEVEL_TRANSITION /\ levelTimers w = 0%nat).
Proof.
  intros Hreach. destruct (reachable_liveGame _ _ _ _ Hreach) as (H3 & Ht & Hlt & H1).
  split; [exact H3|]. split; [exact Ht|]. split; [exact Hlt|]. split; [exact H1|].
  intros H0. split.
  - destruct (status (game w)) eqn:E; [| | |done];
      (assert (1 <= lives (game w)) by (apply H1; left; discriminate); lia).
  - destruct (levelTimers w) as [|[|n]] eqn:E; [done| |lia].
    assert (1 <= lives (game w)) by (apply H1; by right). lia.
Qed.

Lemma lives_of_a_running_game_witness :
  1 <= lives (game secondWorld) <= 3.
Proof.
  destruct (lives_of_a_running_game "TEAM" alwaysSaved oneThird secondWorld)
    as (H3 & _ & _ & H1 & _).
  - apply (reach_tick "TEAM" alwaysSaved oneThird (2065 # 1) playWorld secondWorld).
    + apply (reach_tick "TEAM" alwaysSaved oneThird (2000 # 1) startWorld playWorld).
      * apply (reach_mount "TEAM" alwaysSaved oneThird 0%Q). vm_compute. reflexivity.
      * vm_compute. reflexivity.
    + vm_compute. reflexivity.
  - split; [|exact H3]. apply H1. left. vm_compute. discriminate.
Defined.

Lemma cleanPopups_fresh (time : Q) (s : GameStateRef) :
  Forall (freshAt time) (popups (cleanPopups time s)).
Proof.
  unfold cleanPopups. destruct (Nat.ltb_spec 0 (length (popups s))) as [Hlen|Hlen].
  - cbn. apply Forall_forall. intros p Hin.
    apply list_elem_of_In, filter_In in Hin as [_ Hin]. by apply Qltb_lt in Hin.
  - destruct (popups s); [constructor | simpl in Hlen; lia].
Qed.

Lemma initRound_popups (roundNum : Z) (keepScore : bool) (w w' : World) :
  initRound roundNum keepScore w = Some w' -> popups (game w') = [].
Proof.
  unfold initRound.
  destruct (ROUND_CONFIGS roundNum); cbn [mbind option_bind]; [|discriminate].
  destruct (scanGrid INITIAL_MAP). by intros [= <-].
Qed.

Lemma handleDeath_popups (teamName : string) (saveReturns : nat -> bool) (w w' : World) :
  handleDeath teamName saveReturns w = Some w' ->
  popups (game w') = popups (game w) \/ popups (game w') = [].
Proof.
  unfold handleDeath. cbn [upd game lives set_lives]. intros H.
  destruct (_ <=? 0).
  - unfold handleDemotionOrGameOver in H. cbn [upd game round set_status set_lives] in H.
    destruct (_ =? 1).
    + destruct (saveReturns _); [|discriminate]. injection H as <-. by left.
    + right. by eapply initRound_popups.
  - unfold resetPositions in H. cbn [upd game ghosts set_lives] in H.
    destruct (resetGhosts 0 (ghosts (game w))) as [gs|];
      cbn [mbind option_bind] in H; [|discriminate].
    injection H as <-. by left.
Qed.

Lemma collideGhost_fresh (teamName : string) (saveReturns : nat -> bool)
    (random : nat -> Q) (time : Q)
    (arrRef i : nat) (w w' : World) (arr arr' : list GhostEntity) :
  collideGhost teamName saveReturns random time arrRef i (w, arr) = Some (w', arr') ->
  Forall (freshAt time) (popups (game w)) -> Forall (freshAt time) (popups (game w')).
Proof.
  unfold collideGhost. intros H Hf.
  set (live := (ghostsRef w =? arrRef)%nat) in *.
  set (cur := if live then ghosts (game w) else arr) in *.
  destruct (cur !! i) as [ghost|]; [|by injection H as <- <-].
  destruct (GhostStatus_eqb (Ghost.status ghost) EATEN); [by injection H as <- <-|].
  destruct (collides ghost (pacman (game w))); [|by injection H as <- <-].
  destruct (GhostStatus_eqb (Ghost.status ghost) VULNERABLE).
  - unfold capture in H. injection H as <- <-.
    assert (Hnew : forall p, popup_timestamp p = time -> freshAt time p).
    { intros p Hp. unfold freshAt. rewrite Hp.
      assert (E : (time - time == 0)%Q) by ring. rewrite E. reflexivity. }
    destruct live; cbn; apply Forall_app; (split; [exact Hf|]);
      constructor; [by apply Hnew | constructor | by apply Hnew | constructor].
  - destruct (handleDeath teamName saveReturns w) as [w1|] eqn:Hdeath;
      cbn [mbind option_bind] in H; [|discriminate].
    injection H as <- <-.
    destruct (handleDeath_popups _ _ _ _ Hdeath) as [-> | ->]; [exact Hf | constructor].
Qed.

Lemma collideAll_fresh (teamName : string) (saveReturns : nat -> bool)
    (random : nat -> Q) (time : Q)
    (arrRef : nat) (idxs : list nat) :
  forall w arr w' arr',
    collideAll teamName saveReturns random time arrRef idxs (w, arr) = Some (w', arr') ->
    Forall (freshAt time) (popups (game w)) -> Forall (freshAt time) (popups (game w')).
Proof.
  induction idxs as [|i idxs IH]; intros w arr w' arr'; cbn [collideAll].
  - by intros [= <- <-].
  - destruct (collideGhost teamName saveReturns random time arrRef i (w, arr)) as [[w1 arr1]|]
      eqn:Hstep; cbn [mbind option_bind]; [|intros [=]].
    intros H Hc. apply (IH w1 arr1 w' arr' H). by eapply collideGhost_fresh.
Qed.

(** X27.  Score popups last less than a second of play.  After a tick in
    PLAYING that does not complete the round, every popup in the state is
    less than 1000 ms old at the time of the tick: the older ones were
    removed before the collision pass, and a capture stamps its popup with
    the time of the tick. *)
Theorem popups_are_fresh (teamName : string) (saveReturns : nat -> bool)
    (random : nat -> Q) (time : Q)
    (w w' : World) :
  update teamName saveReturns random time w = Some w' ->
  status (game w) = PLAYING ->
  levelTimers w' = levelTimers w ->
  Forall (fun p => (time - popup_timestamp p < 1000 # 1)%Q) (popups (game w')).
Proof.
  unfold update. intros H Hst Ht.
  set (w0 := upd (fun s => set_frameCount (frameCount s + 1) (set_lastFrameTime time s)) w)
    in *.
  change (status (game w0)) with (status (game w)) in H. rewrite Hst in H.
  cbn [isPaused] in H.
  destruct (ROUND_CONFIGS (round (game w0))) as [config|];
    cbn [mbind option_bind] in H; [|discriminate].
  destruct (pacmanPhase _ (game w0)) as [s1|] eqn:Hp;
    cbn [mbind option_bind] in H; [|discriminate].
  destruct (eatPellets time s1) as [s2|] eqn:He;
    cbn [mbind option_bind] in H; [|discriminate].
  destruct (pelletsRemaining s2 =? 0).
  - injection H as <-. cbn in Ht. lia.
  - destruct (ghostPhase _ _ _) as [w2|] eqn:Hg;
      cbn [mbind option_bind] in H; [|discriminate].
    unfold collisionPhase in H.
    destruct (collideAll _ _ _ _ _ _) as [[w3 arr3]|] eqn:Hall; [|discriminate].
    injection H as <-.
    apply (collideAll_fresh _ _ _ _ _ _ _ _ _ _ Hall).
    cbn [upd game]. apply cleanPopups_fresh.
Qed.

Lemma popups_are_fresh_witness :
  length (popups (game captureWorld)) = 1%nat
  /\ Forall (fun p => ((13 # 1) - popup_timestamp p < 1000 # 1)%Q)
       (popups (game captureWorld)).
Proof.
  split; [reflexivity|].
  apply (popups_are_fresh "TEAM" alwaysSaved oneThird (13 # 1) thirdCaptureWorld captureWorld).
  - vm_compute. reflexivity.
  - reflexivity.
  - reflexivity.
Defined.
